(** * Config Editor: the C-header export pipeline of [ConfigForm]

    A shallow embedding of [generateCHeader], [escapeHtml],
    [isValidCIdentifier] and [exportCHeader] from the ConfigForm component,
    followed by the properties of the export pipeline.

    Modelling conventions.
    - A JavaScript string is the list of its code units.  Code units are
      [ascii], so the model covers strings whose code units are below 256;
      of the four ECMAScript line terminators only LF and CR exist there.
    - A JavaScript object used as a record of keys is the association list
      of its own properties in [Object.keys] order (array indices first, in
      ascending order, then the other keys in the order of their creation).
      A read [o[k]] that the code makes on a key that may not be an own
      property goes on to [Object.prototype]; a plain assignment to
      [__proto__] reaches the setter of [Object.prototype] and creates no
      own property.
    - Numbers are the safe integers (absolute value at most 2^53 - 1), which
      [Number::toString] prints in decimal; fractions, [NaN] and the
      infinities are outside the model.
    - [lines.push] and [console.warn] act on an explicit state. *)

From Stdlib Require Import List Ascii String ZArith Lia Bool DecimalString.
Import ListNotations.

Local Open Scope char_scope.
Local Open Scope list_scope.

(* ================================================================== *)
(** ** JavaScript strings *)

Definition jsstring : Type := list ascii.

Definition str (s : string) : jsstring := list_ascii_of_string s.

Definition dquote : ascii := "034".
Definition squote : ascii := "039".
Definition LF : ascii := "010".
Definition CR : ascii := "013".
Definition backslash : ascii := "092".

Fixpoint jseqb (a b : jsstring) : bool :=
  match a, b with
  | [], [] => true
  | x :: a', y :: b' => Ascii.eqb x y && jseqb a' b'
  | _, _ => false
  end.

Definition inRange (lo hi c : ascii) : bool :=
  (N_of_ascii lo <=? N_of_ascii c)%N && (N_of_ascii c <=? N_of_ascii hi)%N.

Definition isDigit (c : ascii) : bool := inRange "0" "9" c.
Definition isLetter (c : ascii) : bool :=
  inRange "a" "z" c || inRange "A" "Z" c.
(** [\w] of a regular expression without the [u] and [i] flags. *)
Definition isWordChar (c : ascii) : bool :=
  isLetter c || isDigit c || Ascii.eqb c "_".
(** The line terminators that [.] refuses and before which [$] holds under
    the [m] flag. *)
Definition isLineTerminator (c : ascii) : bool :=
  Ascii.eqb c LF || Ascii.eqb c CR.

(** [s.startsWith(p)], returning what follows the prefix. *)
Fixpoint stripPrefix (p s : jsstring) : option jsstring :=
  match p, s with
  | [], _ => Some s
  | x :: p', y :: s' => if Ascii.eqb x y then stripPrefix p' s' else None
  | _ :: _, [] => None
  end.

(** The longest prefix whose code units satisfy [f], and the rest. *)
Fixpoint span (f : ascii -> bool) (s : jsstring) : jsstring * jsstring :=
  match s with
  | [] => ([], [])
  | c :: s' =>
      if f c then let (a, b) := span f s' in (c :: a, b) else ([], s)
  end.

(** [Array.prototype.join]. *)
Fixpoint join (sep : jsstring) (l : list jsstring) : jsstring :=
  match l with
  | [] => []
  | [x] => x
  | x :: l' => x ++ sep ++ join sep l'
  end.

(** [s.replace(/c/g, r)] for a pattern that is one literal code unit and a
    replacement [r] without [$]. *)
Definition replaceChar (c : ascii) (r : jsstring) (s : jsstring) : jsstring :=
  flat_map (fun x => if Ascii.eqb x c then r else [x]) s.

(** [s.includes(w)]. *)
Definition includes (w s : jsstring) : Prop :=
  exists a b, s = a ++ w ++ b.

Fixpoint includesb (w s : jsstring) : bool :=
  match stripPrefix w s with
  | Some _ => true
  | None => match s with [] => false | _ :: s' => includesb w s' end
  end.

(* ================================================================== *)
(** ** Values, schema and value mapping *)

(** [Number.MAX_SAFE_INTEGER]. *)
Definition maxSafe : Z := 9007199254740991.

(** An integer that is a JavaScript number and prints in decimal. *)
Record safeInt : Type := SafeInt {
  int_val : Z;
  int_safe : (Z.abs int_val <=? maxSafe)%Z = true
}.

(** The number literal [z]. *)
Abbreviation int z := (SafeInt z eq_refl) (only parsing).

Inductive value : Type :=
| VUndefined
| VNull
| VBool (b : bool)
| VNum (n : safeInt)
| VStr (s : jsstring).

(** [String(v)], which is also what a template literal inserts. *)
Definition toString (v : value) : jsstring :=
  match v with
  | VUndefined => str "undefined"
  | VNull => str "null"
  | VBool true => str "true"
  | VBool false => str "false"
  | VNum n => str (NilZero.string_of_int (Z.to_int (int_val n)))
  | VStr s => s
  end.

(** [ToBoolean]. *)
Definition truthy (v : value) : bool :=
  match v with
  | VUndefined | VNull => false
  | VBool b => b
  | VNum n => negb (int_val n =? 0)%Z
  | VStr s => match s with [] => false | _ => true end
  end.

(** [{ type: string; default?: any; description?: string }]; an absent
    [default] reads as [undefined]. *)
Record descriptor : Type := Descriptor {
  type : jsstring;
  default : value;
  description : option jsstring
}.

Definition object (A : Type) : Type := list (jsstring * A).

Definition keys {A : Type} (o : object A) : list jsstring := map fst o.

(** The own property [k] of [o]; this is all of [o[k]] when [k] comes from
    [Object.keys(o)]. *)
Fixpoint get {A : Type} (o : object A) (k : jsstring) : option A :=
  match o with
  | [] => None
  | (k', a) :: o' => if jseqb k' k then Some a else get o' k
  end.

Definition Schema : Type := object descriptor.
Definition Values : Type := object value.

(** The names of the properties of [Object.prototype], which every plain
    object inherits. *)
Definition objectPrototype : list jsstring :=
  [ str "constructor"; str "__defineGetter__"; str "__defineSetter__";
    str "hasOwnProperty"; str "__lookupGetter__"; str "__lookupSetter__";
    str "isPrototypeOf"; str "propertyIsEnumerable"; str "toString";
    str "valueOf"; str "__proto__"; str "toLocaleString" ].

Definition inherited (k : jsstring) : bool :=
  existsb (jseqb k) objectPrototype.

(** What [props.schema[k]] gives for an arbitrary [k]: the own descriptor,
    or else the member of [Object.prototype] of that name (a function, or
    the prototype itself for [__proto__]), or else [undefined]. *)
Inductive property : Type :=
| Own (d : descriptor)
| Inherited.

Definition readSchema (schema : Schema) (k : jsstring) : option property :=
  match get schema k with
  | Some d => Some (Own d)
  | None => if inherited k then Some Inherited else None
  end.

(** [schemaEntry.default]: the members of [Object.prototype] have none. *)
Definition defaultOf (p : property) : value :=
  match p with
  | Own d => default d
  | Inherited => VUndefined
  end.

(** [v[k]] for a key [k] of [Object.keys(v)], the only read of the value
    mapping that the generator makes; [undefined] stands for a key without
    an own entry. *)
Definition getValue (v : Values) (k : jsstring) : value :=
  match get v k with Some x => x | None => VUndefined end.

(** An array index: a canonical decimal numeral below 2^32 - 1.  Own keys
    that are array indices are listed first, in ascending order. *)
Definition indexValue (k : jsstring) : N :=
  fold_left (fun n c => (10 * n + (N_of_ascii c - 48))%N) k 0%N.

Definition isArrayIndex (k : jsstring) : bool :=
  match k with
  | [] => false
  | c :: rest =>
      forallb isDigit k
      && (negb (Ascii.eqb c "0") || match rest with [] => true | _ => false end)
      && (indexValue k <=? 4294967294)%N
  end.

Definition hasOwn {A : Type} (o : object A) (k : jsstring) : bool :=
  existsb (fun kv => jseqb (fst kv) k) o.

(** A new value for a key that is there: the key keeps its place. *)
Fixpoint setOwn (o : Values) (k : jsstring) (x : value) : Values :=
  match o with
  | [] => []
  | (k', y) :: o' =>
      if jseqb k' k then (k', x) :: o' else (k', y) :: setOwn o' k x
  end.

(** [k'] is an array index below [k]. *)
Definition smallerIndex (k k' : jsstring) : bool :=
  isArrayIndex k' && (indexValue k' <? indexValue k)%N.

(** A new array index goes after the smaller array indices. *)
Fixpoint insertIndex (o : Values) (k : jsstring) (x : value) : Values :=
  match o with
  | [] => [(k, x)]
  | (k', y) :: o' =>
      if smallerIndex k k'
      then (k', y) :: insertIndex o' k x
      else (k, x) :: (k', y) :: o'
  end.

(** Defining the own property [k]: in place when it is there, in index
    order when it is a new array index, and last otherwise. *)
Definition defineOwn (o : Values) (k : jsstring) (x : value) : Values :=
  if hasOwn o k then setOwn o k x
  else if isArrayIndex k then insertIndex o k x
  else o ++ [(k, x)].

(** [update(key, v)]: [{ ...prev, [key]: v }].  The spread copies the own
    properties in their order, and a computed key defines an own property
    whatever its name. *)
Definition update (prev : Values) (key : jsstring) (x : value) : Values :=
  defineOwn prev key x.

(** [initial[k] = x]: a plain assignment.  For [__proto__] it reaches the
    setter of [Object.prototype]: no own property is made (the values of
    the model are primitives or [null], so at most the prototype of
    [initial] changes, which no later step reads). *)
Definition assign (initial : Values) (k : jsstring) (x : value) : Values :=
  if jseqb k (str "__proto__") then initial else defineOwn initial k x.

(** The initial value mapping:
    [keys.forEach(k => (initial[k] = props.schema[k].default ?? null))]. *)
Definition initialValues (schema : Schema) : Values :=
  fold_left
    (fun initial k =>
       assign initial k
         match get schema k with
         | Some d => match default d with
                     | VUndefined | VNull => VNull
                     | x => x
                     end
         | None => VNull
         end)
    (keys schema) [].

(* ================================================================== *)
(** ** [escapeHtml] and [isValidCIdentifier] *)

Definition escapeHtml (text : jsstring) : jsstring :=
  replaceChar squote (str "&#39;")
    (replaceChar dquote (str "&quot;")
      (replaceChar ">" (str "&gt;")
        (replaceChar "<" (str "&lt;")
          (replaceChar "&" (str "&amp;") text)))).

(** [/^[a-zA-Z_][a-zA-Z0-9_]*$/.test(name)]. *)
Definition isValidCIdentifier (name : jsstring) : bool :=
  match name with
  | [] => false
  | c :: rest =>
      (isLetter c || Ascii.eqb c "_") && forallb isWordChar rest
  end.

(* ================================================================== *)
(** ** The header lines *)

(** The two effects of [generateCHeader]: the [lines] array and the
    console. *)
Record world : Type := World {
  lines : list jsstring;
  console : list jsstring
}.

Definition push (l : jsstring) (w : world) : world :=
  {| lines := lines w ++ [l]; console := console w |}.

Definition warn (m : jsstring) (w : world) : world :=
  {| lines := lines w; console := console w ++ [m] |}.

Definition forEach {A : Type} (xs : list A) (body : A -> world -> world)
  (w : world) : world :=
  fold_left (fun w x => body x w) xs w.

(** [String(val).replace(/\\/g, '\\\\').replace(/"/g, '\\"')]. *)
Definition escapeCString (val : value) : jsstring :=
  replaceChar dquote [backslash; dquote]
    (replaceChar backslash [backslash; backslash] (toString val)).

(** The text after [#define <k> ], by the declared type; the same three
    branches stand in both tiers. *)
Definition encode (ty : jsstring) (val : value) : jsstring :=
  if jseqb ty (str "boolean") then
    (if truthy val then str "1" else str "0")
  else if jseqb ty (str "string") then
    [dquote] ++ escapeCString val ++ [dquote]
  else toString val.

Definition defineLine (ty k : jsstring) (val : value) : jsstring :=
  str "#define " ++ k ++ str " " ++ encode ty val.

(** The same line for what [props.schema[k]] gave.  A member of
    [Object.prototype] has no [type]: both comparisons fail and the last
    branch prints the value. *)
Definition propertyLine (schemaEntry : property) (k : jsstring)
  (val : value) : jsstring :=
  match schemaEntry with
  | Own d => defineLine (type d) k val
  | Inherited => str "#define " ++ k ++ str " " ++ toString val
  end.

(** [props.variantName || 'variant']. *)
Definition nameOrDefault (variantName : jsstring) : jsstring :=
  match variantName with [] => str "variant" | _ => variantName end.

Definition tier1 (schema : Schema) (v : Values) (k : jsstring)
  (w : world) : world :=
  if negb (isValidCIdentifier k) then
    warn (str "Skipping invalid C identifier: " ++ k) w
  else
    match readSchema schema k with
    | None => warn (str "No schema found for key: " ++ k) w
    | Some schemaEntry =>
        let val := getValue v k in
        push (propertyLine schemaEntry k val) w
    end.

Definition tier2 (schema : Schema) (k : jsstring) (w : world) : world :=
  match readSchema schema k with
  | None => w
  | Some schemaEntry =>
      match defaultOf schemaEntry with
      | VUndefined => w
      | def =>
          if negb (isValidCIdentifier k) then w
          else
            push (str "#endif")
              (push (propertyLine schemaEntry k def)
                 (push (str "#ifndef " ++ k) w))
      end
  end.

(** The state of [lines] and of the console when [raw] is computed. *)
Definition headerWorld (schema : Schema) (variantName : jsstring)
  (v : Values) : world :=
  let w := World [] [] in
  let w := push (str "#pragma once") w in
  let w := push (str "// Auto-generated header from Config Editor") w in
  let escapedVariantName := escapeHtml (nameOrDefault variantName) in
  let w := push (str "// Variant: " ++ escapedVariantName) w in
  let w := push [] w in
  let w := push (str "// Variant-specific defines (highest priority)") w in
  let w := forEach (keys v) (tier1 schema v) w in
  let w := push [] w in
  let w :=
    push (str "// Common defaults (only applied if not defined by variant)") w
  in
  forEach (keys schema) (tier2 schema) w.

(** [const raw = lines.join('\n')]. *)
Definition rawHeader (schema : Schema) (variantName : jsstring)
  (v : Values) : jsstring :=
  join [LF] (lines (headerWorld schema variantName v)).

(* ================================================================== *)
(** ** Global regular-expression replacement *)

(** What a regular expression does at one start position: the whole match,
    capture group 1 and the input after the match.  The code unit before
    the position is passed along for [\b]. *)
Definition matcher : Type :=
  option ascii -> jsstring -> option (jsstring * jsstring * jsstring).

Definition lastOf (prev : option ascii) (m : jsstring) : option ascii :=
  match rev m with
  | c :: _ => Some c
  | [] => prev
  end.

(** [s.replace(re, template)] for a global [re]: the leftmost match is
    replaced, the search resumes after it, and unmatched code units are
    copied.  The expressions below never match the empty string, so the
    input left after a match is shorter and [length s] steps suffice. *)
Fixpoint replaceFrom (rx : matcher) (template : jsstring -> jsstring)
  (fuel : nat) (prev : option ascii) (s : jsstring) : jsstring :=
  match fuel, s with
  | S fuel', c :: s' =>
      match rx prev s with
      | Some (m, g1, rest) =>
          template g1 ++ replaceFrom rx template fuel' (lastOf prev m) rest
      | None => c :: replaceFrom rx template fuel' (Some c) s'
      end
  | _, _ => []
  end.

Definition replaceAll (rx : matcher) (template : jsstring -> jsstring)
  (s : jsstring) : jsstring :=
  replaceFrom rx template (List.length s) None s.

(* ================================================================== *)
(** ** The highlighter *)

Definition spanOpen (class : string) : jsstring :=
  str "<span class=" ++ [dquote] ++ str class ++ [dquote] ++ str ">".
Definition spanClose : jsstring := str "</span>".

(** [/(\/\/.*$)/gm]: two slashes and everything up to the end of the line. *)
Definition commentRx : matcher := fun _ s =>
  match s with
  | "/" :: "/" :: s' =>
      let (body, rest) := span (fun c => negb (isLineTerminator c)) s' in
      Some ("/" :: "/" :: body, "/" :: "/" :: body, rest)
  | _ => None
  end.

Definition keywords : list jsstring :=
  [str "#pragma"; str "#define"; str "#ifndef"; str "#endif"].

Fixpoint firstPrefix (alts : list jsstring) (s : jsstring)
  : option (jsstring * jsstring) :=
  match alts with
  | [] => None
  | kw :: alts' =>
      match stripPrefix kw s with
      | Some rest => Some (kw, rest)
      | None => firstPrefix alts' s
      end
  end.

(** [/(#pragma|#define|#ifndef|#endif)/gm]: the expression has no anchor,
    so the [m] flag changes nothing. *)
Definition keywordRx : matcher := fun _ s =>
  match firstPrefix keywords s with
  | Some (kw, rest) => Some (kw, kw, rest)
  | None => None
  end.

(** The string expression of the third pass: the entity [&quot;], the
    longest run without [&] (group 1), and [&quot;] again.  The run cannot
    be shortened, since what follows it must start with [&]. *)
Definition stringRx : matcher := fun _ s =>
  match stripPrefix (str "&quot;") s with
  | None => None
  | Some s1 =>
      let (body, s2) := span (fun c => negb (Ascii.eqb c "&")) s1 in
      match stripPrefix (str "&quot;") s2 with
      | None => None
      | Some rest => Some (str "&quot;" ++ body ++ str "&quot;", body, rest)
      end
  end.

(** [/\b(\d+)\b/gm]: a maximal run of digits with no word character on
    either side. *)
Definition numberRx : matcher := fun prev s =>
  let wordBefore :=
    match prev with Some p => isWordChar p | None => false end in
  if wordBefore then None
  else
    let (ds, rest) := span isDigit s in
    match ds with
    | [] => None
    | _ :: _ =>
        let wordAfter :=
          match rest with c :: _ => isWordChar c | [] => false end in
        if wordAfter then None else Some (ds, ds, rest)
    end.

(** The replacement templates; [$1] is capture group 1. *)
Definition commentTemplate (g1 : jsstring) : jsstring :=
  spanOpen "comment" ++ g1 ++ spanClose.
Definition keywordTemplate (g1 : jsstring) : jsstring :=
  spanOpen "keyword" ++ g1 ++ spanClose.
Definition stringTemplate (g1 : jsstring) : jsstring :=
  spanOpen "string" ++ str "&quot;" ++ g1 ++ str "&quot;" ++ spanClose.
Definition numberTemplate (g1 : jsstring) : jsstring :=
  spanOpen "number" ++ g1 ++ spanClose.

Definition commentPass : jsstring -> jsstring :=
  replaceAll commentRx commentTemplate.
Definition keywordPass : jsstring -> jsstring :=
  replaceAll keywordRx keywordTemplate.
Definition stringPass : jsstring -> jsstring :=
  replaceAll stringRx stringTemplate.
Definition numberPass : jsstring -> jsstring :=
  replaceAll numberRx numberTemplate.

(** The [return] expression of [generateCHeader]. *)
Definition highlight (raw : jsstring) : jsstring :=
  numberPass (stringPass (keywordPass (commentPass (escapeHtml raw)))).

Definition generateCHeader (schema : Schema) (variantName : jsstring)
  (v : Values) : jsstring :=
  highlight (rawHeader schema variantName v).

(* ================================================================== *)
(** ** [exportCHeader] *)

(** What [triggerDownload] receives: the blob's parts and type, and the
    file name. *)
Record download : Type := Download {
  content : jsstring;
  mimeType : jsstring;
  filename : jsstring
}.

Definition exportCHeader (schema : Schema) (variantName : jsstring)
  (v : Values) : download :=
  let content := generateCHeader schema variantName v in
  {| content := content;
     mimeType := str "text/x-c-header";
     filename := nameOrDefault variantName ++ str "_final_cfg.h" |}.

(* ================================================================== *)
(** ** What the spec calls the defined unescaping *)

(** [s.replace(/ab/g, r)] for a pattern of two literal code units. *)
Fixpoint replacePair (a b : ascii) (r : jsstring) (s : jsstring) : jsstring :=
  match s with
  | [] => []
  | x :: t =>
      match t with
      | [] => [x]
      | y :: s' =>
          if Ascii.eqb x a && Ascii.eqb y b then r ++ replacePair a b r s'
          else x :: replacePair a b r t
      end
  end.

(** The reverse of backslash-then-quote escaping, as the spec words it: the
    quote escape is undone first, the backslash escape second. *)
Definition unescapeCString (body : jsstring) : jsstring :=
  replacePair backslash backslash [backslash]
    (replacePair backslash dquote [dquote] body).

(* ================================================================== *)
(** ** The header, line by line *)

(** The five lines pushed before the first loop. *)
Definition preamble (variantName : jsstring) : list jsstring :=
  [ str "#pragma once";
    str "// Auto-generated header from Config Editor";
    str "// Variant: " ++ escapeHtml (nameOrDefault variantName);
    [];
    str "// Variant-specific defines (highest priority)" ].

(** The two lines pushed between the loops. *)
Definition separator : list jsstring :=
  [ []; str "// Common defaults (only applied if not defined by variant)" ].

(** What one round of the first loop pushes and logs. *)
Definition tier1Lines (schema : Schema) (v : Values) (k : jsstring)
  : list jsstring :=
  lines (tier1 schema v k (World [] [])).

Definition tier1Warnings (schema : Schema) (v : Values) (k : jsstring)
  : list jsstring :=
  console (tier1 schema v k (World [] [])).

(** What one round of the second loop pushes. *)
Definition tier2Lines (schema : Schema) (k : jsstring) : list jsstring :=
  lines (tier2 schema k (World [] [])).

(** The guarded block of a key. *)
Definition guardedBlock (ty k : jsstring) (def : value) : list jsstring :=
  [ str "#ifndef " ++ k; defineLine ty k def; str "#endif" ].

(** A key the first loop skips. *)
Definition skippable (schema : Schema) (k : jsstring) : Prop :=
  isValidCIdentifier k = false \/ readSchema schema k = None.

(** Written from section 4.2 of the spec, by cases on the value: the
    textual form of a value. *)
Definition specText (val : value) : jsstring :=
  match val with
  | VUndefined => str "undefined"
  | VNull => str "null"
  | VBool true => str "true"
  | VBool false => str "false"
  | VNum n => str (NilZero.string_of_int (Z.to_int (int_val n)))
  | VStr s => s
  end.

(** Written from section 4.2 of the spec: [1] or [0] by truthiness for
    [boolean]; for [string] the text between double quotes, each backslash
    doubled and each double quote preceded by a backslash; the text as it
    is for any other type. *)
Definition specLiteral (ty : jsstring) (val : value) : jsstring :=
  if jseqb ty (str "boolean") then
    match val with
    | VBool true => str "1"
    | VNum n => if (int_val n =? 0)%Z then str "0" else str "1"
    | VStr (_ :: _) => str "1"
    | _ => str "0"
    end
  else if jseqb ty (str "string") then
    [dquote]
    ++ flat_map (fun c => if Ascii.eqb c backslash then [backslash; backslash]
                          else if Ascii.eqb c dquote then [backslash; dquote]
                          else [c])
         (specText val)
    ++ [dquote]
  else specText val.

(** [s.split(sep)] for a separator of one code unit: the lines of a
    text. *)
Fixpoint splitOn (sep : ascii) (s : jsstring) : list jsstring :=
  match s with
  | [] => [[]]
  | c :: s' =>
      if Ascii.eqb c sep then [] :: splitOn sep s'
      else match splitOn sep s' with
           | l :: ls => (c :: l) :: ls
           | [] => [[c]]
           end
  end.

Definition noLF (l : jsstring) : bool :=
  forallb (fun c => negb (Ascii.eqb c LF)) l.

(** The value mapping without the bindings of [k]. *)
Definition without (k : jsstring) (v : Values) : Values :=
  filter (fun kv => negb (jseqb (fst kv) k)) v.

(* ================================================================== *)
(** ** Marked-up text *)

(** The five tags the highlighter writes. *)
Definition tags : list jsstring :=
  [ spanOpen "comment"; spanOpen "keyword"; spanOpen "string";
    spanOpen "number"; spanClose ].

Definition isTagChar (c : ascii) : bool :=
  existsb (Ascii.eqb c) (List.concat tags).

(** [markup text html]: [html] is [text] with tags of the highlighter
    inserted between its code units. *)
Inductive markup : jsstring -> jsstring -> Prop :=
| markup_nil : markup [] []
| markup_text (c : ascii) (t u : jsstring) :
    markup t u -> markup (c :: t) (c :: u)
| markup_tag (g t u : jsstring) :
    In g tags -> markup t u -> markup t (g ++ u).

(** The five entities [escapeHtml] writes. *)
Definition entities : list jsstring :=
  [ str "&amp;"; str "&lt;"; str "&gt;"; str "&quot;"; str "&#39;" ].

Definition isSpecial (c : ascii) : bool :=
  Ascii.eqb c "<" || Ascii.eqb c ">" || Ascii.eqb c dquote
  || Ascii.eqb c squote.

(** Text without a bare special character: no [<], [>] or quote, and every
    [&] starts one of the five entities. *)
Fixpoint escaped (s : jsstring) : bool :=
  match s with
  | [] => true
  | c :: s' =>
      (if Ascii.eqb c "&"
       then existsb (fun e => match stripPrefix e s with
                              | Some _ => true
                              | None => false
                              end) entities
       else negb (isSpecial c))
      && escaped s'
  end.

(** What [escapeHtml] makes of one code unit. *)
Definition escapeChar (c : ascii) : jsstring :=
  if Ascii.eqb c "&" then str "&amp;"
  else if Ascii.eqb c "<" then str "&lt;"
  else if Ascii.eqb c ">" then str "&gt;"
  else if Ascii.eqb c dquote then str "&quot;"
  else if Ascii.eqb c squote then str "&#39;"
  else [c].

(** A matcher is sound when a match is a non-empty prefix of the input. *)
Definition sound (rx : matcher) : Prop :=
  forall prev s m g1 rest,
    rx prev s = Some (m, g1, rest) -> s = m ++ rest /\ m <> [].

(** The replacement from a given position on, with the fuel it needs. *)
Definition replaceAt (rx : matcher) (template : jsstring -> jsstring)
  (prev : option ascii) (s : jsstring) : jsstring :=
  replaceFrom rx template (List.length s) prev s.

(** A match after which a tag can be written: it ends in a code unit
    that no tag contains, or it has no [<] in it. *)
Definition textEnd (m : jsstring) : Prop :=
  (exists m' c, m = m' ++ [c] /\ isTagChar c = false) \/
  forallb (fun c => negb (Ascii.eqb c "<")) m = true.

(** The non-empty suffixes of a word. *)
Fixpoint tails (w : jsstring) : list jsstring :=
  match w with
  | [] => []
  | _ :: w' => w :: tails w'
  end.

(** The prefixes of a word other than the word itself. *)
Fixpoint inits (w : jsstring) : list jsstring :=
  match w with
  | [] => []
  | c :: w' => [] :: map (cons c) (inits w')
  end.

(** [p] and [s] differ at a position both have, so that [p] is a prefix of
    no extension of [s]. *)
Fixpoint clash (p s : jsstring) : bool :=
  match p, s with
  | x :: p', y :: s' => if Ascii.eqb x y then clash p' s' else true
  | _, _ => false
  end.

(** [x] is a non-empty suffix of [y]. *)
Definition isSuffixOf (x y : jsstring) : bool := existsb (jseqb x) (tails y).

(** Words that the comment pass cannot cut: no slash and no line
    terminator. *)
Definition commentProof (w : jsstring) : bool :=
  forallb (fun c => negb (Ascii.eqb c "/") && negb (isLineTerminator c)) w.

(** Words that the keyword pass cannot cut: no suffix of the word starts a
    keyword, and the word does not start with a letter of a keyword. *)
Definition keywordProof (w : jsstring) : bool :=
  forallb (fun w2 => forallb (fun kw => clash kw w2) keywords) (tails w)
  && match w with
     | c :: _ =>
         negb (existsb (Ascii.eqb c)
                 (List.concat (map (@tl ascii) keywords)))
     | [] => false
     end.

(** Words that the string pass cannot cut: no suffix of the word starts
    with the quote entity, and no proper prefix of the word can end a
    match. *)
Definition stringProof (w : jsstring) : bool :=
  forallb (fun w2 => clash (str "&quot;") w2) (tails w)
  && forallb (fun p => negb (isSuffixOf p (str "&quot;"))
                       && negb (isSuffixOf (str "&quot;") p))
       (inits w).

(** Words that the number pass cannot cut: no digit. *)
Definition numberProof (w : jsstring) : bool :=
  forallb (fun c => negb (isDigit c)) w
  && match w with [] => false | _ :: _ => true end.

(* ================================================================== *)
(** ** The other exporters and the edits of the form *)

(** [exportJSON]; [stringify] stands for the library call
    [x => JSON.stringify(x, null, 2)]. *)
Definition exportJSON (stringify : Values -> jsstring)
  (variantName : jsstring) (v : Values) : download :=
  {| content := stringify v;
     mimeType := str "application/json";
     filename := nameOrDefault variantName ++ str ".json" |}.

(** [exportYAML]; [stringify] stands for the library call
    [YAML.stringify]. *)
Definition exportYAML (stringify : Values -> jsstring)
  (variantName : jsstring) (v : Values) : download :=
  let yaml := stringify v in
  {| content := yaml;
     mimeType := str "text/yaml";
     filename := nameOrDefault variantName ++ str ".yaml" |}.

(** The value mapping after the form has called [update] for each edit in
    turn. *)
Definition applyEdits (v : Values) (edits : list (jsstring * value))
  : Values :=
  fold_left (fun v e => update v (fst e) (snd e)) edits v.

(** A code unit that [escapeHtml] leaves alone. *)
Definition plainChar (c : ascii) : bool :=
  negb (isSpecial c || Ascii.eqb c "&").



(** The text of a marked-up string: everything from a [<] to the next [>]
    is dropped. *)
Fixpoint stripFrom (inTag : bool) (u : jsstring) : jsstring :=
  match u with
  | [] => []
  | c :: u' =>
      if inTag then
        if Ascii.eqb c ">" then stripFrom false u' else stripFrom true u'
      else
        if Ascii.eqb c "<" then stripFrom true u' else c :: stripFrom false u'
  end.

Definition stripTags (u : jsstring) : jsstring := stripFrom false u.

(** The four opening tags. *)
Definition openTags : list jsstring :=
  [ spanOpen "comment"; spanOpen "keyword"; spanOpen "string";
    spanOpen "number" ].

Definition startsSlash (u : jsstring) : bool :=
  match u with
  | c :: _ => Ascii.eqb c "/"
  | [] => false
  end.

(** Opening tags minus closing tags: every [<] counts, as a closing tag
    when a slash follows it and as an opening tag otherwise. *)
Fixpoint spanBalance (u : jsstring) : Z :=
  match u with
  | [] => 0
  | c :: u' =>
      ((if Ascii.eqb c "<"
        then (if startsSlash u' then -1 else 1)
        else 0)
       + spanBalance u')%Z
  end.

(** The last code unit is [<]. *)
Fixpoint endsLt (u : jsstring) : bool :=
  match u with
  | [] => false
  | c :: u' =>
      match u' with
      | [] => Ascii.eqb c "<"
      | _ :: _ => endsLt u'
      end
  end.

(* ================================================================== *)
(** ** Sample inputs *)

Definition numberA (def : value) : Schema :=
  [(str "A", Descriptor (str "number") def None)].

Definition booleanB : Schema :=
  [(str "B", Descriptor (str "boolean") (VBool false) None)].

Definition badKey : Schema :=
  [(str "bad-key", Descriptor (str "number") (VNum (int 5)) None)].

(* ================================================================== *)
(** ** Basic facts about strings and objects *)

Lemma jseqb_eq (a b : jsstring) : jseqb a b = true <-> a = b.
Proof.
  revert b; induction a as [|x a IH]; destruct b as [|y b]; simpl;
    try (split; [discriminate | congruence]); try tauto.
  rewrite andb_true_iff, Ascii.eqb_eq, IH.
  split; [intros [-> ->]; reflexivity | intros H; inversion H; auto].
Qed.

Lemma jseqb_refl (a : jsstring) : jseqb a a = true.
Proof. apply jseqb_eq; reflexivity. Qed.

Lemma jseqb_neq (a b : jsstring) : jseqb a b = false <-> a <> b.
Proof.
  rewrite <- jseqb_eq. destruct (jseqb a b); split; congruence.
Qed.

Lemma stripPrefix_Some (p s rest : jsstring) :
  stripPrefix p s = Some rest <-> s = p ++ rest.
Proof.
  revert s; induction p as [|x p IH]; intros s; simpl.
  - split; congruence.
  - destruct s as [|y s]; [split; discriminate|].
    destruct (Ascii.eqb_spec x y) as [->|N].
    + rewrite IH. split; [intros ->; reflexivity | congruence].
    + split; [discriminate | congruence].
Qed.

Lemma stripPrefix_app (p rest : jsstring) :
  stripPrefix p (p ++ rest) = Some rest.
Proof. apply stripPrefix_Some; reflexivity. Qed.

Lemma includes_here (w b : jsstring) : includes w (w ++ b).
Proof. exists [], b; reflexivity. Qed.

Lemma includes_app_l (w x s : jsstring) : includes w s -> includes w (x ++ s).
Proof.
  intros (a & b & ->). exists (x ++ a), b. now rewrite <- app_assoc.
Qed.

Lemma includes_app_r (w x s : jsstring) : includes w s -> includes w (s ++ x).
Proof.
  intros (a & b & ->). exists a, (b ++ x). now rewrite <- !app_assoc.
Qed.

Lemma includes_cons (w : jsstring) (c : ascii) (s : jsstring) :
  includes w s -> includes w (c :: s).
Proof. apply (includes_app_l w [c]). Qed.

Lemma includesb_spec (w s : jsstring) : includesb w s = true <-> includes w s.
Proof.
  induction s as [|c s IH]; simpl.
  - destruct (stripPrefix w []) as [r|] eqn:E.
    + apply stripPrefix_Some in E. split; [|reflexivity].
      intros _. exists [], r. exact E.
    + split; [discriminate|]. intros (a & b & H).
      destruct a; [|discriminate]. simpl in H.
      destruct w; [discriminate E|discriminate].
  - destruct (stripPrefix w (c :: s)) as [r|] eqn:E.
    + apply stripPrefix_Some in E. split; [|reflexivity].
      intros _. exists [], r. exact E.
    + rewrite IH. split.
      * apply includes_cons.
      * intros (a & b & H). destruct a as [|x a].
        -- simpl in H. rewrite H, stripPrefix_app in E. discriminate.
        -- inversion H; subst. exists a, b; reflexivity.
Qed.

Lemma get_Some_In {A : Type} (o : object A) (k : jsstring) (a : A) :
  get o k = Some a -> In k (keys o).
Proof.
  induction o as [|[k' a'] o IH]; simpl; [discriminate|].
  destruct (jseqb k' k) eqn:E.
  - apply jseqb_eq in E. auto.
  - auto.
Qed.

(* ================================================================== *)
(** ** The loops as concatenations *)

Lemma In_keys_get {A : Type} (o : object A) (k : jsstring) :
  In k (keys o) -> exists a, get o k = Some a.
Proof.
  induction o as [|[k0 a] o IH]; simpl; [tauto|].
  intros H. destruct (jseqb k0 k) eqn:E; [eauto|].
  apply IH. destruct H as [H|H]; [|exact H].
  apply jseqb_neq in E. congruence.
Qed.

Lemma get_first {A : Type} (o1 o2 : object A) (k : jsstring) (a : A) :
  ~ In k (keys o1) -> get (o1 ++ (k, a) :: o2) k = Some a.
Proof.
  induction o1 as [|[k0 a0] o1 IH]; simpl; intros N.
  - rewrite jseqb_refl. reflexivity.
  - destruct (jseqb k0 k) eqn:E.
    + apply jseqb_eq in E. tauto.
    + apply IH. tauto.
Qed.

Lemma get_None_not_In {A : Type} (o : object A) (k : jsstring) :
  ~ In k (keys o) -> get o k = None.
Proof.
  intros N. destruct (get o k) eqn:G; [|reflexivity].
  apply get_Some_In in G. tauto.
Qed.

Lemma readSchema_own (schema : Schema) (k : jsstring) (d : descriptor) :
  get schema k = Some d -> readSchema schema k = Some (Own d).
Proof. intros G. unfold readSchema. rewrite G. reflexivity. Qed.

Lemma readSchema_inherited (schema : Schema) (k : jsstring) :
  get schema k = None -> inherited k = true ->
  readSchema schema k = Some Inherited.
Proof. intros G I. unfold readSchema. rewrite G, I. reflexivity. Qed.

Lemma readSchema_none (schema : Schema) (k : jsstring) :
  get schema k = None -> inherited k = false -> readSchema schema k = None.
Proof. intros G I. unfold readSchema. rewrite G, I. reflexivity. Qed.

Lemma tier1_frame (schema : Schema) (v : Values) (k : jsstring) (w : world) :
  lines (tier1 schema v k w) = lines w ++ tier1Lines schema v k /\
  console (tier1 schema v k w) = console w ++ tier1Warnings schema v k.
Proof.
  unfold tier1Lines, tier1Warnings, tier1.
  destruct (isValidCIdentifier k); simpl.
  - destruct (readSchema schema k); simpl; rewrite ?app_nil_r; auto.
  - rewrite app_nil_r; auto.
Qed.

Lemma tier2_frame (schema : Schema) (k : jsstring) (w : world) :
  lines (tier2 schema k w) = lines w ++ tier2Lines schema k /\
  console (tier2 schema k w) = console w.
Proof.
  unfold tier2Lines, tier2.
  destruct (readSchema schema k) as [p|]; simpl; [|rewrite app_nil_r; auto].
  destruct (isValidCIdentifier k), (defaultOf p); simpl;
    rewrite <- ?app_assoc, ?app_nil_r; auto.
Qed.

Lemma forEach_tier1 (schema : Schema) (v : Values) (ks : list jsstring)
  (w : world) :
  lines (forEach ks (tier1 schema v) w)
    = lines w ++ flat_map (tier1Lines schema v) ks /\
  console (forEach ks (tier1 schema v) w)
    = console w ++ flat_map (tier1Warnings schema v) ks.
Proof.
  unfold forEach. revert w.
  induction ks as [|k ks IH]; intros w; simpl.
  - rewrite !app_nil_r; auto.
  - destruct (IH (tier1 schema v k w)) as [-> ->].
    destruct (tier1_frame schema v k w) as [-> ->].
    rewrite <- !app_assoc; auto.
Qed.

Lemma forEach_tier2 (schema : Schema) (ks : list jsstring) (w : world) :
  lines (forEach ks (tier2 schema) w)
    = lines w ++ flat_map (tier2Lines schema) ks /\
  console (forEach ks (tier2 schema) w) = console w.
Proof.
  unfold forEach. revert w.
  induction ks as [|k ks IH]; intros w; simpl.
  - rewrite !app_nil_r; auto.
  - destruct (IH (tier2 schema k w)) as [-> ->].
    destruct (tier2_frame schema k w) as [-> ->].
    rewrite <- !app_assoc; auto.
Qed.

Lemma headerWorld_lines (schema : Schema) (variantName : jsstring)
  (v : Values) :
  lines (headerWorld schema variantName v)
    = preamble variantName
      ++ flat_map (tier1Lines schema v) (keys v)
      ++ separator
      ++ flat_map (tier2Lines schema) (keys schema).
Proof.
  unfold headerWorld.
  rewrite (proj1 (forEach_tier2 _ _ _)). simpl lines.
  rewrite (proj1 (forEach_tier1 _ _ _ _)). simpl lines.
  unfold preamble, separator. rewrite <- !app_assoc. reflexivity.
Qed.

Lemma headerWorld_console (schema : Schema) (variantName : jsstring)
  (v : Values) :
  console (headerWorld schema variantName v)
    = flat_map (tier1Warnings schema v) (keys v).
Proof.
  unfold headerWorld.
  rewrite (proj2 (forEach_tier2 _ _ _)). simpl console.
  rewrite (proj2 (forEach_tier1 _ _ _ _)). reflexivity.
Qed.

Lemma tier1Lines_valid (schema : Schema) (v : Values) (k : jsstring)
  (d : descriptor) :
  isValidCIdentifier k = true -> get schema k = Some d ->
  tier1Lines schema v k = [defineLine (type d) k (getValue v k)].
Proof.
  intros V G. unfold tier1Lines, tier1.
  rewrite V, (readSchema_own _ _ _ G). reflexivity.
Qed.

Lemma tier1Lines_inherited (schema : Schema) (v : Values) (k : jsstring) :
  isValidCIdentifier k = true -> get schema k = None ->
  inherited k = true ->
  tier1Lines schema v k
  = [str "#define " ++ k ++ str " " ++ toString (getValue v k)].
Proof.
  intros V G I. unfold tier1Lines, tier1.
  rewrite V, (readSchema_inherited _ _ G I). reflexivity.
Qed.

Lemma tier1Lines_skippable (schema : Schema) (v : Values) (k : jsstring) :
  skippable schema k -> tier1Lines schema v k = [].
Proof.
  unfold tier1Lines, tier1. intros [V|G].
  - rewrite V. reflexivity.
  - rewrite G. destruct (isValidCIdentifier k); reflexivity.
Qed.

Lemma tier2Lines_declared (schema : Schema) (k : jsstring) (d : descriptor) :
  isValidCIdentifier k = true -> get schema k = Some d ->
  default d <> VUndefined ->
  tier2Lines schema k = guardedBlock (type d) k (default d).
Proof.
  intros V G D. unfold tier2Lines, tier2.
  rewrite (readSchema_own _ _ _ G), V. simpl defaultOf.
  destruct (default d); try congruence; reflexivity.
Qed.

Lemma In_flat_map_block {A : Type} (f : A -> list jsstring) (xs : list A)
  (x : A) :
  In x xs -> exists a b, flat_map f xs = a ++ f x ++ b.
Proof.
  intros H. apply in_split in H as (l1 & l2 & ->).
  exists (flat_map f l1), (flat_map f l2).
  rewrite flat_map_app. reflexivity.
Qed.

Lemma tier1Lines_shape (schema : Schema) (v : Values) (k l : jsstring) :
  In l (tier1Lines schema v k) ->
  isValidCIdentifier k = true /\
  ((exists d, get schema k = Some d /\
              l = defineLine (type d) k (getValue v k)) \/
   (get schema k = None /\ inherited k = true /\
    l = str "#define " ++ k ++ str " " ++ toString (getValue v k))).
Proof.
  unfold tier1Lines, tier1, readSchema.
  destruct (isValidCIdentifier k); simpl; [|tauto].
  destruct (get schema k) as [d|]; simpl.
  - intros [<-|[]]. split; [reflexivity|]. left. exists d; auto.
  - destruct (inherited k); simpl; [|tauto].
    intros [<-|[]]. split; [reflexivity|]. right. auto.
Qed.

Lemma tier2Lines_shape (schema : Schema) (k : jsstring) :
  In k (keys schema) ->
  tier2Lines schema k = [] \/
  exists d, get schema k = Some d /\ isValidCIdentifier k = true /\
            default d <> VUndefined /\
            tier2Lines schema k = guardedBlock (type d) k (default d).
Proof.
  intros I. destruct (In_keys_get schema k I) as (d & G).
  unfold tier2Lines, tier2. rewrite (readSchema_own _ _ _ G).
  simpl defaultOf.
  destruct (isValidCIdentifier k);
    destruct (default d) eqn:D; simpl; auto;
    right; exists d; rewrite D; repeat split; auto; discriminate.
Qed.

(* ================================================================== *)
(** ** Skipped keys *)

Lemma get_without {A : Type} (k k' : jsstring) (o : object A) :
  k' <> k ->
  get (filter (fun kv => negb (jseqb (fst kv) k)) o) k' = get o k'.
Proof.
  intros N. induction o as [|[k0 a] o IH]; simpl; [reflexivity|].
  destruct (jseqb k0 k) eqn:E; simpl.
  - apply jseqb_eq in E; subst k0.
    destruct (jseqb k k') eqn:E'; [apply jseqb_eq in E'; congruence|exact IH].
  - destruct (jseqb k0 k'); [reflexivity|exact IH].
Qed.

Lemma flat_map_without {A : Type} (f : jsstring -> list jsstring)
  (k : jsstring) (o : object A) :
  f k = [] ->
  flat_map f (keys (filter (fun kv => negb (jseqb (fst kv) k)) o))
    = flat_map f (keys o).
Proof.
  intros F. induction o as [|[k0 a] o IH]; simpl; [reflexivity|].
  destruct (jseqb k0 k) eqn:E; simpl.
  - apply jseqb_eq in E; subst k0. rewrite F. exact IH.
  - rewrite IH. reflexivity.
Qed.

Lemma tier1Lines_without (schema : Schema) (v : Values) (k k' : jsstring) :
  skippable schema k ->
  tier1Lines schema (without k v) k' = tier1Lines schema v k'.
Proof.
  intros Sk. destruct (jseqb k' k) eqn:E.
  - apply jseqb_eq in E; subst k'.
    rewrite !tier1Lines_skippable; auto.
  - apply jseqb_neq in E. unfold tier1Lines, tier1, getValue, without.
    rewrite get_without; auto.
Qed.

Lemma tier1Warnings_skippable (schema : Schema) (v : Values) (k : jsstring) :
  skippable schema k ->
  tier1Warnings schema v k
  = [if isValidCIdentifier k
     then str "No schema found for key: " ++ k
     else str "Skipping invalid C identifier: " ++ k].
Proof.
  unfold tier1Warnings, tier1. intros [V|G].
  - rewrite V. reflexivity.
  - rewrite G. destruct (isValidCIdentifier k); reflexivity.
Qed.

Lemma tier2Lines_skippable (schema : Schema) (k : jsstring) :
  skippable schema k -> tier2Lines schema k = [].
Proof.
  unfold tier2Lines, tier2. intros [V|G].
  - rewrite V. destruct (readSchema schema k) as [p|]; [|reflexivity].
    destruct (defaultOf p); reflexivity.
  - rewrite G. reflexivity.
Qed.

(* ================================================================== *)
(** ** Unset entries *)

(** C2, as stated, fails: a schema key without a default starts as [null]
    in the value mapping, and the first loop pushes a [#define] line for
    it. *)
Lemma null_entry_is_defined :
  initialValues (numberA VUndefined) = [(str "A", VNull)] /\
  getValue (initialValues (numberA VUndefined)) (str "A") = VNull /\
  tier1Lines (numberA VUndefined) (initialValues (numberA VUndefined))
    (str "A") = [str "#define A null"] /\
  lines (headerWorld (numberA VUndefined) (str "variant")
           (initialValues (numberA VUndefined)))
    = preamble (str "variant") ++ [str "#define A null"] ++ separator.
Proof. vm_compute. repeat split. Qed.

(** C2, amended. A key of the value mapping whose entry is [null], that is
    a valid identifier and has a descriptor, is not omitted: the header has
    the line [#define k 0] when the declared type is [boolean],
    [#define k "null"] when it is [string], and [#define k null] otherwise.
    Generation is a total function, so nothing is thrown. *)
Theorem null_entry_encoded :
  forall (schema : Schema) (variantName : jsstring) (v : Values)
         (k : jsstring) (d : descriptor),
    In k (keys v) ->
    getValue v k = VNull ->
    isValidCIdentifier k = true ->
    get schema k = Some d ->
    In (str "#define " ++ k ++ str " " ++
        (if jseqb (type d) (str "boolean") then str "0"
         else if jseqb (type d) (str "string")
              then [dquote] ++ str "null" ++ [dquote]
              else str "null"))
       (lines (headerWorld schema variantName v)).
Proof.
  intros schema variantName v k d Hk N V G.
  rewrite headerWorld_lines.
  apply in_or_app; right. apply in_or_app; left.
  apply in_flat_map. exists k. split; [exact Hk|].
  rewrite (tier1Lines_valid schema v k d V G), N.
  left. unfold defineLine, encode.
  destruct (jseqb (type d) (str "boolean")); [reflexivity|].
  destruct (jseqb (type d) (str "string")); reflexivity.
Qed.

Lemma null_entry_encoded_witness :
  In (str "#define A null")
     (lines (headerWorld (numberA VUndefined) (str "variant")
               [(str "A", VNull)])).
Proof.
  apply (null_entry_encoded (numberA VUndefined) (str "variant")
           [(str "A", VNull)] (str "A")
           (Descriptor (str "number") VUndefined None));
    [left; reflexivity | reflexivity | reflexivity | reflexivity].
Defined.

(* ================================================================== *)
(** ** String literals *)

Lemma replaceChar_dquote_head (x : jsstring) :
  match replaceChar dquote [backslash; dquote] x with
  | c :: _ => Ascii.eqb c dquote = false
  | [] => True
  end.
Proof.
  destruct x as [|c x]; simpl; [exact I|].
  destruct (Ascii.eqb c dquote) eqn:E; simpl; [reflexivity|exact E].
Qed.

Lemma replacePair_skip (a b : ascii) (r : jsstring) (c : ascii)
  (t : jsstring) :
  Ascii.eqb c a
  && match t with y :: _ => Ascii.eqb y b | [] => false end = false ->
  replacePair a b r (c :: t) = c :: replacePair a b r t.
Proof.
  destruct t as [|y t]; simpl; intros H; [reflexivity|].
  rewrite H. reflexivity.
Qed.

Lemma unquote_quote (x : jsstring) :
  replacePair backslash dquote [dquote]
    (replaceChar dquote [backslash; dquote] x) = x.
Proof.
  induction x as [|c x IH]; [reflexivity|].
  change (replaceChar dquote [backslash; dquote] (c :: x))
    with ((if Ascii.eqb c dquote then [backslash; dquote] else [c])
          ++ replaceChar dquote [backslash; dquote] x).
  destruct (Ascii.eqb c dquote) eqn:N.
  - apply Ascii.eqb_eq in N; subst c. simpl. rewrite IH. reflexivity.
  - simpl app. rewrite replacePair_skip, IH; [reflexivity|].
    pose proof (replaceChar_dquote_head x) as Hd.
    destruct (replaceChar dquote [backslash; dquote] x);
      [apply andb_false_r | rewrite Hd; apply andb_false_r].
Qed.

Lemma unslash_slash (x : jsstring) :
  replacePair backslash backslash [backslash]
    (replaceChar backslash [backslash; backslash] x) = x.
Proof.
  induction x as [|c x IH]; [reflexivity|].
  change (replaceChar backslash [backslash; backslash] (c :: x))
    with ((if Ascii.eqb c backslash then [backslash; backslash] else [c])
          ++ replaceChar backslash [backslash; backslash] x).
  destruct (Ascii.eqb c backslash) eqn:N.
  - apply Ascii.eqb_eq in N; subst c. simpl. rewrite IH. reflexivity.
  - simpl app. rewrite replacePair_skip, IH; [reflexivity|].
    rewrite N. reflexivity.
Qed.

(** C5. The string literal of a string value [s] is a double quote, the
    body and a double quote, where the body is [s] with every backslash
    doubled first and every double quote then preceded by a backslash;
    undoing the quote escape and then the backslash escape on the body
    gives [s] back. *)
Theorem string_literal_roundtrip :
  forall s : jsstring,
    encode (str "string") (VStr s)
      = [dquote] ++ escapeCString (VStr s) ++ [dquote] /\
    escapeCString (VStr s)
      = replaceChar dquote [backslash; dquote]
          (replaceChar backslash [backslash; backslash] s) /\
    unescapeCString (escapeCString (VStr s)) = s.
Proof.
  intros s. split; [reflexivity|]. split; [reflexivity|].
  unfold unescapeCString, escapeCString, toString.
  rewrite unquote_quote. apply unslash_slash.
Qed.

(* ================================================================== *)
(** ** Global replacement: unfolding *)

Lemma app_split_short {A : Type} (x y m rest : list A) :
  x ++ y = m ++ rest -> List.length m <= List.length x ->
  exists x2, x = m ++ x2 /\ rest = x2 ++ y.
Proof.
  intros E L. apply app_eq_app in E as (l & [[-> ->] | [-> ->]]).
  - exists l; auto.
  - rewrite length_app in L. destruct l; [|simpl in L; lia].
    exists []. rewrite !app_nil_r. auto.
Qed.

Lemma app_split_long {A : Type} (x y m rest : list A) :
  x ++ y = m ++ rest -> List.length x <= List.length m ->
  exists m2, m = x ++ m2 /\ y = m2 ++ rest.
Proof.
  intros E L. symmetry in E.
  destruct (app_split_short m rest x y E L) as (m2 & -> & ->).
  exists m2; auto.
Qed.

Section Replace.

Variable rx : matcher.
Variable template : jsstring -> jsstring.
Hypothesis rx_sound : sound rx.

Lemma replaceFrom_fuel (fuel fuel' : nat) :
  forall (prev : option ascii) (s : jsstring),
    List.length s <= fuel -> List.length s <= fuel' ->
    replaceFrom rx template fuel prev s
      = replaceFrom rx template fuel' prev s.
Proof.
  revert fuel'. induction fuel as [|fuel IH]; intros fuel' prev s L L'.
  - destruct s; [|simpl in L; lia]. destruct fuel'; reflexivity.
  - destruct s as [|c s]; [destruct fuel'; reflexivity|].
    destruct fuel' as [|fuel']; [simpl in L'; lia|].
    simpl in L, L'. simpl.
    destruct (rx prev (c :: s)) as [[[m g1] rest]|] eqn:E.
    + destruct (rx_sound _ _ _ _ _ E) as [S N].
      assert (List.length rest <= List.length s).
      { apply (f_equal (@List.length ascii)) in S.
        rewrite length_app in S. simpl in S.
        destruct m; [congruence|simpl in S; lia]. }
      f_equal. apply IH; lia.
    + f_equal. apply IH; lia.
Qed.

Lemma replaceAt_cons (prev : option ascii) (c : ascii) (s : jsstring) :
  replaceAt rx template prev (c :: s)
    = match rx prev (c :: s) with
      | Some (m, g1, rest) =>
          template g1 ++ replaceAt rx template (lastOf prev m) rest
      | None => c :: replaceAt rx template (Some c) s
      end.
Proof.
  unfold replaceAt. simpl.
  destruct (rx prev (c :: s)) as [[[m g1] rest]|] eqn:E; [|reflexivity].
  destruct (rx_sound _ _ _ _ _ E) as [S N].
  f_equal. apply replaceFrom_fuel; [|lia].
  apply (f_equal (@List.length ascii)) in S.
  rewrite length_app in S. simpl in S.
  destruct m; [congruence|simpl in S; lia].
Qed.

Lemma replaceAt_match (prev : option ascii) (s m g1 rest : jsstring) :
  rx prev s = Some (m, g1, rest) ->
  replaceAt rx template prev s
    = template g1 ++ replaceAt rx template (lastOf prev m) rest.
Proof.
  intros E. destruct (rx_sound _ _ _ _ _ E) as [S N].
  destruct s as [|c s]; [destruct m; [congruence|discriminate]|].
  rewrite replaceAt_cons, E. reflexivity.
Qed.

Lemma replaceAt_copy (prev : option ascii) (c : ascii) (s : jsstring) :
  rx prev (c :: s) = None ->
  replaceAt rx template prev (c :: s)
    = c :: replaceAt rx template (Some c) s.
Proof. intros E. rewrite replaceAt_cons, E. reflexivity. Qed.

Lemma match_shorter (prev : option ascii) (s m g1 rest : jsstring) :
  rx prev s = Some (m, g1, rest) -> List.length rest < List.length s.
Proof.
  intros E. destruct (rx_sound _ _ _ _ _ E) as [-> N].
  rewrite length_app. destruct m; [congruence|simpl; lia].
Qed.

End Replace.

Lemma span_app (f : ascii -> bool) (s : jsstring) :
  s = fst (span f s) ++ snd (span f s).
Proof.
  induction s as [|c s IH]; simpl; [reflexivity|].
  destruct (f c); [|reflexivity].
  destruct (span f s) as [a b]. simpl in *. congruence.
Qed.

Lemma span_all (f : ascii -> bool) (s : jsstring) :
  forallb f (fst (span f s)) = true.
Proof.
  induction s as [|c s IH]; simpl; [reflexivity|].
  destruct (f c) eqn:F; [|reflexivity].
  destruct (span f s) as [a b]. simpl in *. rewrite F. exact IH.
Qed.

Lemma span_stop (f : ascii -> bool) (s : jsstring) :
  match snd (span f s) with c :: _ => f c = false | [] => True end.
Proof.
  induction s as [|c s IH]; simpl; [exact I|].
  destruct (f c) eqn:F; [|exact F].
  destruct (span f s) as [a b]. exact IH.
Qed.

Lemma firstPrefix_Some (alts : list jsstring) (s kw rest : jsstring) :
  firstPrefix alts s = Some (kw, rest) -> In kw alts /\ s = kw ++ rest.
Proof.
  induction alts as [|a alts IH]; simpl; [discriminate|].
  destruct (stripPrefix a s) as [r|] eqn:E.
  - intros H; inversion H; subst. apply stripPrefix_Some in E. auto.
  - intros H. destruct (IH H). auto.
Qed.

Lemma commentRx_Some (prev : option ascii) (s m g1 rest : jsstring) :
  commentRx prev s = Some (m, g1, rest) ->
  exists s',
    s = "/" :: "/" :: s' /\
    m = "/" :: "/" :: fst (span (fun c => negb (isLineTerminator c)) s') /\
    g1 = m /\
    rest = snd (span (fun c => negb (isLineTerminator c)) s').
Proof.
  unfold commentRx.
  destruct s as [|c1 s]; [discriminate|].
  destruct c1 as [[] [] [] [] [] [] [] []]; try discriminate.
  destruct s as [|c2 s]; [discriminate|].
  destruct c2 as [[] [] [] [] [] [] [] []]; try discriminate.
  destruct (span (fun c => negb (isLineTerminator c)) s) as [body r] eqn:E.
  intros H; inversion H; subst. exists s. rewrite E. simpl. auto.
Qed.

Lemma commentRx_sound : sound commentRx.
Proof.
  intros prev s m g1 rest H.
  apply commentRx_Some in H as (s' & -> & -> & _ & ->).
  split; [|discriminate]. simpl. do 2 f_equal. apply span_app.
Qed.

Lemma keywordRx_sound : sound keywordRx.
Proof.
  intros prev s m g1 rest. unfold keywordRx.
  destruct (firstPrefix keywords s) as [[kw r]|] eqn:E; [|discriminate].
  intros H; inversion H; subst.
  apply firstPrefix_Some in E as [I ->]. split; [reflexivity|].
  simpl in I. intuition (subst; discriminate).
Qed.

Lemma stringRx_sound : sound stringRx.
Proof.
  intros prev s m g1 rest. unfold stringRx.
  destruct (stripPrefix (str "&quot;") s) as [s1|] eqn:E1; [|discriminate].
  pose proof (span_app (fun c => negb (Ascii.eqb c "&")) s1) as S.
  destruct (span (fun c => negb (Ascii.eqb c "&")) s1) as [body s2].
  destruct (stripPrefix (str "&quot;") s2) as [r|] eqn:E2; [|discriminate].
  simpl fst in S; simpl snd in S.
  apply stripPrefix_Some in E1, E2.
  intros H; inversion H; subst.
  split; [|discriminate].
  simpl. rewrite <- ?app_assoc. reflexivity.
Qed.

Lemma numberRx_Some (prev : option ascii) (s m g1 rest : jsstring) :
  numberRx prev s = Some (m, g1, rest) ->
  s = m ++ rest /\ m <> [] /\ g1 = m /\ forallb isDigit m = true /\
  match prev with Some p => isWordChar p = false | None => True end /\
  match rest with c :: _ => isWordChar c = false | [] => True end.
Proof.
  unfold numberRx.
  pose proof (span_app isDigit s) as S.
  pose proof (span_all isDigit s) as D.
  destruct (span isDigit s) as [ds r]. simpl in S, D.
  destruct (match prev with Some p => isWordChar p | None => false end)
    eqn:W; [discriminate|].
  destruct ds as [|d ds]; [discriminate|].
  destruct (match r with c :: _ => isWordChar c | [] => false end) eqn:A;
    [discriminate|].
  intros H; inversion H; subst.
  repeat split; auto; try discriminate.
  - destruct prev; auto.
  - destruct rest; auto.
Qed.

Lemma numberRx_sound : sound numberRx.
Proof.
  intros prev s m g1 rest H.
  apply numberRx_Some in H. tauto.
Qed.

(* ================================================================== *)
(** ** Replacement keeps the text and adds tags *)

Lemma markup_refl (t : jsstring) : markup t t.
Proof. induction t; constructor; auto. Qed.

Lemma markup_app (t1 u1 t2 u2 : jsstring) :
  markup t1 u1 -> markup t2 u2 -> markup (t1 ++ t2) (u1 ++ u2).
Proof.
  induction 1; intros H2; simpl; auto.
  - constructor; auto.
  - rewrite <- app_assoc. constructor; auto.
Qed.

Lemma tag_shape (g : jsstring) :
  In g tags ->
  exists g', g = "<" :: g' /\
             forallb (fun c => negb (Ascii.eqb c "<")) g' = true /\
             forallb isTagChar g = true.
Proof.
  simpl. intros [<-|[<-|[<-|[<-|[<-|[]]]]]];
    eexists; (split; [reflexivity|]); split; vm_compute; reflexivity.
Qed.

Lemma spanClose_tag : In spanClose tags.
Proof. simpl; auto 6. Qed.

Lemma textEnd_tail (c : ascii) (m : jsstring) : textEnd (c :: m) -> textEnd m.
Proof.
  intros [(m' & c' & E & T) | F].
  - destruct m as [|y r]; [right; reflexivity|].
    destruct m' as [|c0 m']; [discriminate|].
    simpl in E. injection E as _ E. left. exists m', c'. auto.
  - right. simpl in F. apply andb_true_iff in F. tauto.
Qed.

Lemma textEnd_drop (x m : jsstring) : textEnd (x ++ m) -> textEnd m.
Proof.
  induction x as [|c x IH]; [auto|]. intros H.
  apply IH. exact (textEnd_tail c _ H).
Qed.

Lemma markup_split (t m rest : jsstring) :
  markup t (m ++ rest) -> textEnd m ->
  exists t1 t2, t = t1 ++ t2 /\ markup t1 m /\ markup t2 rest.
Proof.
  intros H. remember (m ++ rest) as u eqn:E. revert m rest E.
  induction H as [|c t u H IH|g t u G H IH]; intros m rest E T.
  - symmetry in E. apply app_eq_nil in E as [-> ->].
    exists [], []. repeat split; constructor.
  - destruct m as [|c0 m].
    + simpl in E. subst rest. exists [], (c :: t).
      repeat split; constructor; auto.
    + simpl in E. inversion E; subst c0 u.
      destruct (IH m rest eq_refl (textEnd_drop [c] m T))
        as (t1 & t2 & -> & M1 & M2).
      exists (c :: t1), t2. repeat split; auto. constructor; auto.
  - destruct m as [|c0 m].
    + simpl in E. subst rest. exists [], t.
      repeat split; constructor; auto.
    + apply app_eq_app in E as (l & [[E1 E2] | [E1 E2]]).
      * (* the match ends inside the tag *)
        destruct l as [|y l].
        -- rewrite app_nil_r in E1. simpl in E2. subst.
           exists [], t. repeat split; auto.
           rewrite <- (app_nil_r (c0 :: m)). constructor; [auto|constructor].
        -- exfalso.
           destruct (tag_shape g G) as (g' & Eg & NL & TC).
           destruct T as [(m' & c' & Em & Tc) | F].
           ++ rewrite forallb_forall in TC.
              rewrite (TC c') in Tc; [discriminate|].
              rewrite E1, Em. apply in_or_app; left.
              apply in_or_app; right. left; reflexivity.
           ++ rewrite Eg in E1. simpl in E1. inversion E1; subst c0.
              simpl in F. discriminate.
      * (* the tag lies inside the match *)
        assert (T' : textEnd l)
          by (rewrite E1 in T; exact (textEnd_drop g l T)).
        destruct (IH l rest E2 T') as (t1 & t2 & -> & M1 & M2).
        exists t1, t2. repeat split; auto.
        rewrite E1. constructor; auto.
Qed.

Lemma lastOf_cons (prev : option ascii) (c : ascii) (m : jsstring) :
  lastOf prev (c :: m) = lastOf (Some c) m.
Proof.
  unfold lastOf. simpl. destruct (rev m); reflexivity.
Qed.

Section Markup.

Variable rx : matcher.
Variable template : jsstring -> jsstring.
Hypothesis rx_sound : sound rx.
Hypothesis rx_wrap :
  forall prev s m g1 rest,
    rx prev s = Some (m, g1, rest) ->
    exists o, In o tags /\ template g1 = o ++ m ++ spanClose.

(** On text without tags no further condition is needed. *)
Lemma replaceAt_markup_text (n : nat) :
  forall (prev : option ascii) (s : jsstring),
    List.length s <= n -> markup s (replaceAt rx template prev s).
Proof.
  induction n as [|n IH]; intros prev s L.
  - destruct s; [constructor|simpl in L; lia].
  - destruct s as [|c s]; [constructor|].
    rewrite (replaceAt_cons rx template rx_sound).
    destruct (rx prev (c :: s)) as [[[m g1] rest]|] eqn:E.
    + destruct (rx_wrap _ _ _ _ _ E) as (o & O & ->).
      pose proof (match_shorter rx rx_sound _ _ _ _ _ E) as Sh.
      destruct (rx_sound _ _ _ _ _ E) as [S _]. rewrite S at 1.
      rewrite <- !app_assoc.
      apply markup_tag; [exact O|].
      apply markup_app; [apply markup_refl|].
      apply markup_tag; [apply spanClose_tag|].
      apply IH. simpl in L, Sh. lia.
    + constructor. apply IH. simpl in L. lia.
Qed.

Hypothesis rx_text_start :
  forall prev c s m g1 rest,
    rx prev (c :: s) = Some (m, g1, rest) -> isTagChar c = false.
Hypothesis rx_text_end :
  forall prev s m g1 rest,
    rx prev s = Some (m, g1, rest) -> textEnd m.

Lemma replaceAt_through_tag (g : jsstring) :
  forall (prev : option ascii) (u : jsstring),
    forallb isTagChar g = true ->
    replaceAt rx template prev (g ++ u)
      = g ++ replaceAt rx template (lastOf prev g) u.
Proof.
  induction g as [|c g IH]; intros prev u T; [reflexivity|].
  simpl in T. apply andb_true_iff in T as [Tc T].
  simpl app. rewrite (replaceAt_cons rx template rx_sound).
  destruct (rx prev (c :: g ++ u)) as [[[m g1] rest]|] eqn:E.
  - apply rx_text_start in E. congruence.
  - rewrite IH by exact T. rewrite lastOf_cons. reflexivity.
Qed.

Lemma replaceAt_markup (n : nat) :
  forall (prev : option ascii) (t u : jsstring),
    List.length u <= n -> markup t u ->
    markup t (replaceAt rx template prev u).
Proof.
  induction n as [|n IH]; intros prev t u L M.
  - destruct u; [|simpl in L; lia]. exact M.
  - pose proof M as M0.
    destruct M as [|c t u M|g t u G M].
    + constructor.
    + rewrite (replaceAt_cons rx template rx_sound).
      destruct (rx prev (c :: u)) as [[[m g1] rest]|] eqn:E.
      * destruct (rx_wrap _ _ _ _ _ E) as (o & O & ->).
        pose proof (match_shorter rx rx_sound _ _ _ _ _ E) as Sh.
        destruct (rx_sound _ _ _ _ _ E) as [S _].
        rewrite S in M0.
        destruct (markup_split _ _ _ M0 (rx_text_end _ _ _ _ _ E))
          as (t1 & t2 & Et & M1 & M2).
        rewrite Et, <- !app_assoc.
        apply markup_tag; [exact O|].
        apply markup_app; [exact M1|].
        apply markup_tag; [apply spanClose_tag|].
        apply IH; [simpl in L, Sh; lia | exact M2].
      * constructor. apply IH; [simpl in L; lia | exact M].
    + destruct (tag_shape g G) as (g' & Eg & _ & TC).
      rewrite replaceAt_through_tag by exact TC.
      constructor; [exact G|].
      apply IH; [|exact M].
      rewrite length_app, Eg in L. simpl in L. lia.
Qed.

End Markup.

(* ================================================================== *)
(** ** The four passes keep the text *)

Lemma commentRx_wrap (prev : option ascii) (s m g1 rest : jsstring) :
  commentRx prev s = Some (m, g1, rest) ->
  exists o, In o tags /\
            commentTemplate g1 = o ++ m ++ spanClose.
Proof.
  intros H. apply commentRx_Some in H as (s' & _ & _ & -> & _).
  exists (spanOpen "comment"). split; [left; reflexivity|reflexivity].
Qed.

Lemma keywordRx_Some (prev : option ascii) (s m g1 rest : jsstring) :
  keywordRx prev s = Some (m, g1, rest) ->
  In m keywords /\ g1 = m /\ s = m ++ rest.
Proof.
  unfold keywordRx.
  destruct (firstPrefix keywords s) as [[kw r]|] eqn:E; [|discriminate].
  intros H; inversion H; subst.
  apply firstPrefix_Some in E as [I ->]. auto.
Qed.

Lemma stringRx_Some (prev : option ascii) (s m g1 rest : jsstring) :
  stringRx prev s = Some (m, g1, rest) ->
  m = str "&quot;" ++ g1 ++ str "&quot;" /\ s = m ++ rest /\
  forallb (fun c => negb (Ascii.eqb c "&")) g1 = true.
Proof.
  unfold stringRx.
  destruct (stripPrefix (str "&quot;") s) as [s1|] eqn:E1; [|discriminate].
  pose proof (span_app (fun c => negb (Ascii.eqb c "&")) s1) as S.
  pose proof (span_all (fun c => negb (Ascii.eqb c "&")) s1) as A.
  destruct (span (fun c => negb (Ascii.eqb c "&")) s1) as [body s2].
  destruct (stripPrefix (str "&quot;") s2) as [r|] eqn:E2; [|discriminate].
  simpl fst in S, A; simpl snd in S.
  apply stripPrefix_Some in E1, E2.
  intros H; inversion H; subst.
  repeat split; auto. simpl. rewrite <- ?app_assoc. reflexivity.
Qed.

Lemma digit_not_tag (c : ascii) : isDigit c = true -> isTagChar c = false.
Proof.
  destruct c as [[] [] [] [] [] [] [] []]; vm_compute; congruence.
Qed.

Lemma commentPass_markup (s : jsstring) : markup s (commentPass s).
Proof.
  apply (replaceAt_markup_text commentRx _ commentRx_sound commentRx_wrap
           (List.length s) None s). lia.
Qed.

Lemma keywordPass_markup (t u : jsstring) :
  markup t u -> markup t (keywordPass u).
Proof.
  apply (replaceAt_markup keywordRx _ keywordRx_sound)
    with (n := List.length u); [| | |lia].
  - intros prev s m g1 rest H. apply keywordRx_Some in H as (_ & -> & _).
    exists (spanOpen "keyword"). split; [right; left; reflexivity|reflexivity].
  - intros prev c s m g1 rest H. apply keywordRx_Some in H as (I & _ & S).
    simpl in I.
    destruct I as [<-|[<-|[<-|[<-|[]]]]]; inversion S; reflexivity.
  - intros prev s m g1 rest H. apply keywordRx_Some in H as (I & _ & _).
    right. simpl in I.
    destruct I as [<-|[<-|[<-|[<-|[]]]]]; reflexivity.
Qed.

Lemma stringPass_markup (t u : jsstring) :
  markup t u -> markup t (stringPass u).
Proof.
  apply (replaceAt_markup stringRx _ stringRx_sound)
    with (n := List.length u); [| | |lia].
  - intros prev s m g1 rest H. apply stringRx_Some in H as (-> & _ & _).
    exists (spanOpen "string"). split; [right; right; left; reflexivity|].
    rewrite <- !app_assoc. reflexivity.
  - intros prev c s m g1 rest H. apply stringRx_Some in H as (-> & S & _).
    inversion S. reflexivity.
  - intros prev s m g1 rest H. apply stringRx_Some in H as (-> & _ & _).
    left. exists (str "&quot;" ++ g1 ++ str "&quot"), ";".
    split; [|reflexivity].
    rewrite <- !app_assoc. reflexivity.
Qed.

Lemma numberPass_markup (t u : jsstring) :
  markup t u -> markup t (numberPass u).
Proof.
  apply (replaceAt_markup numberRx _ numberRx_sound)
    with (n := List.length u); [| | |lia].
  - intros prev s m g1 rest H. apply numberRx_Some in H as (_ & _ & -> & _).
    exists (spanOpen "number").
    split; [right; right; right; left; reflexivity|reflexivity].
  - intros prev c s m g1 rest H.
    apply numberRx_Some in H as (S & N & _ & D & _).
    destruct m as [|d m]; [congruence|]. inversion S; subst d.
    simpl in D. apply andb_true_iff in D as [D _].
    apply digit_not_tag; exact D.
  - intros prev s m g1 rest H.
    apply numberRx_Some in H as (_ & N & _ & D & _).
    left. destruct (exists_last N) as (m' & c & ->).
    exists m', c. split; [reflexivity|].
    apply digit_not_tag. rewrite forallb_app in D.
    apply andb_true_iff in D as [_ D]. simpl in D.
    apply andb_true_iff in D as [D _]. exact D.
Qed.

(** The highlighted text is the escaped text with tags inserted. *)
Lemma highlight_markup (raw : jsstring) :
  markup (escapeHtml raw) (highlight raw).
Proof.
  unfold highlight.
  apply numberPass_markup, stringPass_markup, keywordPass_markup,
    commentPass_markup.
Qed.

(* ================================================================== *)
(** ** [escapeHtml], one code unit at a time *)

Lemma replaceChar_app (c : ascii) (r a b : jsstring) :
  replaceChar c r (a ++ b) = replaceChar c r a ++ replaceChar c r b.
Proof. apply flat_map_app. Qed.

Lemma escapeHtml_app (a b : jsstring) :
  escapeHtml (a ++ b) = escapeHtml a ++ escapeHtml b.
Proof. unfold escapeHtml. rewrite !replaceChar_app. reflexivity. Qed.

Lemma escapeHtml_one (c : ascii) : escapeHtml [c] = escapeChar c.
Proof. destruct c as [[] [] [] [] [] [] [] []]; reflexivity. Qed.

Lemma escapeHtml_flat_map (s : jsstring) :
  escapeHtml s = flat_map escapeChar s.
Proof.
  induction s as [|c s IH]; [reflexivity|].
  change (c :: s) with ([c] ++ s).
  rewrite escapeHtml_app, escapeHtml_one, IH. reflexivity.
Qed.

Lemma escapeHtml_escaped (s : jsstring) : escaped (escapeHtml s) = true.
Proof.
  rewrite escapeHtml_flat_map.
  induction s as [|c s IH]; [reflexivity|].
  simpl flat_map. unfold escapeChar.
  destruct (Ascii.eqb c "&") eqn:E1; [simpl; exact IH|].
  destruct (Ascii.eqb c "<") eqn:E2; [simpl; exact IH|].
  destruct (Ascii.eqb c ">") eqn:E3; [simpl; exact IH|].
  destruct (Ascii.eqb c dquote) eqn:E4; [simpl; exact IH|].
  destruct (Ascii.eqb c squote) eqn:E5; [simpl; exact IH|].
  simpl. rewrite E1. unfold isSpecial. rewrite E2, E3, E4, E5.
  simpl. exact IH.
Qed.

Lemma escaped_no_special (s : jsstring) :
  escaped s = true -> forallb (fun c => negb (isSpecial c)) s = true.
Proof.
  induction s as [|c s IH]; [reflexivity|].
  simpl. intros H. apply andb_true_iff in H as [Hc Hs].
  rewrite (IH Hs), andb_true_r.
  destruct (Ascii.eqb c "&") eqn:E; [|exact Hc].
  apply Ascii.eqb_eq in E. subst c. reflexivity.
Qed.

(* ================================================================== *)
(** ** Highlighting safety *)

Lemma markup_lt_is_tag (t u : jsstring) :
  markup t u ->
  forallb (fun c => negb (Ascii.eqb c "<")) t = true ->
  forall a b, u = a ++ "<" :: b ->
  exists g r, In g tags /\ "<" :: b = g ++ r.
Proof.
  induction 1 as [|c t u M IH|g t u G M IH]; intros NL a b E.
  - destruct a; discriminate.
  - simpl in NL. apply andb_true_iff in NL as [Nc NL].
    destruct a as [|x a]; simpl in E; inversion E; subst.
    + discriminate.
    + eapply IH; eauto.
  - apply app_eq_app in E as (l & [[E1 E2] | [E1 E2]]).
    + destruct l as [|y l].
      * simpl in E2. apply (IH NL [] b). symmetry. exact E2.
      * simpl in E2. inversion E2; subst y.
        destruct (tag_shape g G) as (g' & Eg & NG & _).
        destruct a as [|x a].
        -- exists g, u. split; [exact G|]. rewrite E1. reflexivity.
        -- exfalso. rewrite Eg in E1. simpl in E1. inversion E1; subst.
           rewrite forallb_app in NG. simpl in NG.
           rewrite andb_false_r in NG. discriminate.
    + apply (IH NL l b). exact E2.
Qed.

Lemma special_lt (t : jsstring) :
  forallb (fun c => negb (isSpecial c)) t = true ->
  forallb (fun c => negb (Ascii.eqb c "<")) t = true.
Proof.
  intros H. rewrite forallb_forall in *. intros c I.
  specialize (H c I). unfold isSpecial in H.
  destruct (Ascii.eqb c "<"); [discriminate|reflexivity].
Qed.

Lemma markup_no_script (t u : jsstring) :
  markup t u -> escaped t = true -> ~ includes (str "<script>") u.
Proof.
  intros M Es (a & b & E).
  destruct (markup_lt_is_tag t u M
              (special_lt t (escaped_no_special t Es)) a
              (str "script>" ++ b) E) as (g & r & G & Eg).
  simpl in G.
  destruct G as [<-|[<-|[<-|[<-|[<-|[]]]]]]; discriminate Eg.
Qed.

Lemma markup_chars (t u : jsstring) :
  markup t u -> forall c, In c u -> In c t \/ isTagChar c = true.
Proof.
  induction 1 as [|x t u M IH|g t u G M IH]; intros c I.
  - destruct I.
  - destruct I as [<-|I]; [left; left; reflexivity|].
    destruct (IH c I); [left; right|right]; assumption.
  - apply in_app_or in I as [I|I]; [|exact (IH c I)].
    right. destruct (tag_shape g G) as (_ & _ & _ & TC).
    rewrite forallb_forall in TC. exact (TC c I).
Qed.

(** C3. The highlighted text of any input is safe to insert as HTML: the
    escaped input has no bare [<], [>], quote or [&] (every [&] starts one
    of the five entities), the output is that escaped text with only the
    five span tags of the highlighter inserted, so that no apostrophe is in
    the output and every [<] of the output starts one of the five tags; the
    output never contains the literal [<script>], and a [<script>] of the
    input is there in its entity form. *)
Theorem highlight_is_safe :
  forall s : jsstring,
    escaped (escapeHtml s) = true /\
    forallb (fun c => negb (isSpecial c)) (escapeHtml s) = true /\
    markup (escapeHtml s) (highlight s) /\
    ~ In squote (highlight s) /\
    (forall a b,
       highlight s = a ++ "<" :: b ->
       exists g r, In g tags /\ "<" :: b = g ++ r) /\
    ~ includes (str "<script>") (highlight s) /\
    (forall a b,
       escapeHtml (a ++ str "<script>" ++ b)
       = escapeHtml a ++ str "&lt;script&gt;" ++ escapeHtml b).
Proof.
  intros s.
  pose proof (escapeHtml_escaped s) as E.
  pose proof (escaped_no_special _ E) as N.
  pose proof (highlight_markup s) as M.
  split; [exact E|]. split; [exact N|]. split; [exact M|].
  split; [|split; [|split]].
  - intros I. destruct (markup_chars _ _ M squote I) as [I'|T].
    + rewrite forallb_forall in N. specialize (N squote I'). discriminate N.
    + discriminate T.
  - intros a b. apply (markup_lt_is_tag _ _ M (special_lt _ N)).
  - apply (markup_no_script (escapeHtml s)); assumption.
  - intros a b. rewrite !escapeHtml_app. reflexivity.
Qed.

(** The input [<script>1]: the only [<] of its output opens the number
    span. *)
Lemma highlight_is_safe_witness :
  highlight (str "<script>1")
  = str "&lt;script&gt;"
    ++ "<" :: str "span class=" ++ [dquote] ++ str "number" ++ [dquote]
              ++ str ">1</span>"
  /\ exists g r,
       In g tags /\
       "<" :: str "span class=" ++ [dquote] ++ str "number" ++ [dquote]
              ++ str ">1</span>" = g ++ r.
Proof.
  assert (H : highlight (str "<script>1")
              = str "&lt;script&gt;"
                ++ "<" :: str "span class=" ++ [dquote] ++ str "number"
                          ++ [dquote] ++ str ">1</span>")
    by (vm_compute; reflexivity).
  split; [exact H|].
  exact (proj1 (proj2 (proj2 (proj2 (proj2
           (highlight_is_safe (str "<script>1"))))))
           (str "&lt;script&gt;") _ H).
Defined.

(* ================================================================== *)
(** ** Occurrences of a word across a replacement *)

Section Occurrence.

Variable rx : matcher.
Variable template : jsstring -> jsstring.
Hypothesis rx_sound : sound rx.

Variables w w' : jsstring.

(** Where the word starts, the replacement writes [w']. *)
Hypothesis at_word :
  forall prev b, exists prev',
    replaceAt rx template prev (w ++ b)
      = w' ++ replaceAt rx template prev' b.

(** A match that starts before the word and reaches into it writes [w']
    too. *)
Hypothesis over_word :
  forall prev a b m g1 rest,
    a <> [] ->
    rx prev (a ++ w ++ b) = Some (m, g1, rest) ->
    List.length a < List.length m ->
    includes w' (template g1).

Lemma occurrence_from (n : nat) :
  forall (prev : option ascii) (s : jsstring),
    List.length s <= n -> includes w s ->
    includes w' (replaceAt rx template prev s).
Proof.
  induction n as [|n IH]; intros prev s L (a & b & E).
  - destruct s; [|simpl in L; lia].
    destruct a; [|discriminate]. simpl in E.
    destruct (at_word prev b) as (prev' & R).
    rewrite E, R. apply includes_here.
  - destruct a as [|c a].
    + destruct (at_word prev b) as (prev' & R).
      simpl in E. rewrite E, R. apply includes_here.
    + subst s. simpl app. rewrite (replaceAt_cons rx template rx_sound).
      destruct (rx prev (c :: a ++ w ++ b)) as [[[m g1] rest]|] eqn:R.
      * destruct (Nat.le_gt_cases (List.length m) (List.length (c :: a)))
          as [Le|Gt].
        -- destruct (rx_sound _ _ _ _ _ R) as [S N].
           destruct (app_split_short (c :: a) (w ++ b) m rest S Le)
             as (x2 & Ea & Er).
           apply includes_app_l. apply IH.
           ++ pose proof (match_shorter rx rx_sound _ _ _ _ _ R) as Sh.
              simpl in L, Sh. lia.
           ++ exists x2, b. exact Er.
        -- apply includes_app_r.
           apply (over_word prev (c :: a) b m g1 rest);
             [discriminate | exact R | exact Gt].
      * apply includes_cons. apply IH; [simpl in L; lia|].
        exists a, b. reflexivity.
Qed.

End Occurrence.

Section Kept.

Variable rx : matcher.
Variable template : jsstring -> jsstring.
Hypothesis rx_sound : sound rx.

Lemma replaceAt_copy_word (w : jsstring) :
  (forall prev w2 b, In w2 (tails w) -> rx prev (w2 ++ b) = None) ->
  forall prev b,
    replaceAt rx template prev (w ++ b)
      = w ++ replaceAt rx template (lastOf prev w) b.
Proof.
  induction w as [|c w IH]; intros H prev b; [reflexivity|].
  simpl app. rewrite (replaceAt_copy rx template rx_sound).
  - rewrite IH, lastOf_cons; [reflexivity|].
    intros p w2 b' I. apply H. right. exact I.
  - apply (H prev (c :: w) b). left. reflexivity.
Qed.

Variable w : jsstring.

Hypothesis not_at_word :
  forall prev w2 b, In w2 (tails w) -> rx prev (w2 ++ b) = None.

Hypothesis template_keeps :
  forall prev s m g1 rest,
    rx prev s = Some (m, g1, rest) -> includes m (template g1).

(** A match that covers the start of the word covers all of it. *)
Hypothesis not_astride :
  forall prev a m2 w3 b g1,
    a <> [] -> m2 <> [] -> w3 <> [] -> w = m2 ++ w3 ->
    rx prev (a ++ w ++ b) = Some (a ++ m2, g1, w3 ++ b) -> False.

Lemma occurrence_kept (prev : option ascii) (s : jsstring) :
  includes w s -> includes w (replaceAt rx template prev s).
Proof.
  apply (occurrence_from rx template rx_sound w w) with (n := List.length s);
    [| |lia].
  - intros p b. exists (lastOf p w).
    apply replaceAt_copy_word. exact not_at_word.
  - intros p a b m g1 rest Na R Gt.
    destruct (rx_sound _ _ _ _ _ R) as [S N].
    destruct (app_split_long a (w ++ b) m rest S) as (m2 & Em & Ew);
      [lia|].
    assert (N2 : m2 <> []).
    { intros ->. rewrite app_nil_r in Em. subst m. lia. }
    destruct (template_keeps _ _ _ _ _ R) as (x & y & ->).
    destruct (Nat.le_gt_cases (List.length w) (List.length m2)) as [Le|Gt2].
    + destruct (app_split_short m2 rest w b (eq_sym Ew) Le)
        as (m3 & E2 & _).
      subst m m2. exists (x ++ a), (m3 ++ y).
      rewrite <- !app_assoc. reflexivity.
    + exfalso.
      destruct (app_split_long m2 rest w b (eq_sym Ew)) as (w3 & E3 & Er);
        [lia|].
      assert (N3 : w3 <> []).
      { intros ->. rewrite app_nil_r in E3. subst m2. lia. }
      subst m rest.
      exact (not_astride p a m2 w3 b g1 Na N2 N3 E3 R).
Qed.

End Kept.

(* ================================================================== *)
(** ** Words that the passes keep whole *)

Lemma clash_stripPrefix (p s b : jsstring) :
  clash p s = true -> stripPrefix p (s ++ b) = None.
Proof.
  revert s; induction p as [|x p IH]; intros [|y s]; simpl;
    try discriminate.
  destruct (Ascii.eqb x y); [apply IH | reflexivity].
Qed.

Lemma firstPrefix_clash (alts : list jsstring) (s b : jsstring) :
  forallb (fun kw => clash kw s) alts = true ->
  firstPrefix alts (s ++ b) = None.
Proof.
  induction alts as [|kw alts IH]; simpl; [reflexivity|].
  intros H. apply andb_true_iff in H as [C H].
  rewrite (clash_stripPrefix _ _ _ C). apply IH, H.
Qed.

Lemma In_tails (w w2 : jsstring) :
  In w2 (tails w) -> exists x c r, w = x ++ w2 /\ w2 = c :: r.
Proof.
  induction w as [|c w IH]; simpl; [tauto|].
  intros [<-|H].
  - exists [], c, w. auto.
  - destruct (IH H) as (x & c' & r & -> & ->).
    exists (c :: x), c', r. auto.
Qed.

Lemma In_inits (m2 w3 : jsstring) :
  w3 <> [] -> In m2 (inits (m2 ++ w3)).
Proof.
  intros N. induction m2 as [|c m2 IH]; simpl.
  - destruct w3; [congruence|]. left; reflexivity.
  - right. apply in_map. exact IH.
Qed.

Lemma isSuffixOf_intro (x l : jsstring) :
  x <> [] -> isSuffixOf x (l ++ x) = true.
Proof.
  intros N. unfold isSuffixOf. induction l as [|c l IH].
  - destruct x as [|a x]; [congruence|].
    cbn [app tails existsb]. rewrite jseqb_refl. reflexivity.
  - cbn [app tails existsb]. rewrite IH. apply orb_true_r.
Qed.

Lemma includes_wrapped (o m c : jsstring) : includes m (o ++ m ++ c).
Proof. exists o, c. reflexivity. Qed.

Lemma commentPass_keeps (w : jsstring) :
  commentProof w = true ->
  forall prev s,
    includes w s ->
    includes w
      (replaceAt commentRx commentTemplate prev s).
Proof.
  intros P prev s. unfold commentProof in P. rewrite forallb_forall in P.
  apply (occurrence_kept commentRx _ commentRx_sound w).
  - intros p w2 b I. apply In_tails in I as (x & c & r & -> & ->).
    destruct (commentRx p ((c :: r) ++ b)) as [[[m g1] rest]|] eqn:E;
      [|reflexivity].
    apply commentRx_Some in E as (s' & E & _). inversion E; subst c.
    specialize (P "/"). rewrite in_app_iff in P. simpl in P.
    discriminate P. auto.
  - intros p s0 m g1 rest E.
    apply commentRx_Some in E as (s' & _ & _ & -> & _).
    apply includes_wrapped.
  - intros p a m2 w3 b g1 Na N2 N3 -> E.
    apply commentRx_Some in E as (s' & _ & _ & _ & Er).
    pose proof (span_stop (fun c => negb (isLineTerminator c)) s') as St.
    rewrite <- Er in St. destruct w3 as [|c3 w3]; [congruence|].
    simpl in St. specialize (P c3).
    rewrite in_app_iff in P. simpl in P.
    rewrite St, andb_false_r in P. discriminate P. auto.
Qed.

Lemma keywordPass_keeps (w : jsstring) :
  keywordProof w = true ->
  forall prev s,
    includes w s ->
    includes w
      (replaceAt keywordRx keywordTemplate prev s).
Proof.
  intros P prev s. unfold keywordProof in P.
  apply andb_true_iff in P as [P1 P2]. rewrite forallb_forall in P1.
  apply (occurrence_kept keywordRx _ keywordRx_sound w).
  - intros p w2 b I. unfold keywordRx.
    rewrite (firstPrefix_clash keywords w2 b (P1 w2 I)). reflexivity.
  - intros p s0 m g1 rest E.
    apply keywordRx_Some in E as (_ & -> & _).
    apply includes_wrapped.
  - intros p a m2 w3 b g1 Na N2 N3 -> E.
    apply keywordRx_Some in E as (I & _ & _).
    destruct m2 as [|c m2]; [congruence|].
    change (negb (existsb (Ascii.eqb c)
                    (List.concat (map (@tl ascii) keywords))) = true) in P2.
    apply negb_true_iff in P2.
    assert (X : existsb (Ascii.eqb c)
                  (List.concat (map (@tl ascii) keywords)) = true).
    { apply existsb_exists. exists c. split; [|apply Ascii.eqb_refl].
      apply in_concat. exists (tl (a ++ c :: m2)).
      split; [apply in_map; exact I|].
      destruct a as [|x a]; [congruence|]. simpl.
      apply in_or_app. right. left. reflexivity. }
    congruence.
Qed.

Lemma stringPass_keeps (w : jsstring) :
  stringProof w = true ->
  forall prev s,
    includes w s ->
    includes w
      (replaceAt stringRx stringTemplate prev s).
Proof.
  intros P prev s. unfold stringProof in P.
  apply andb_true_iff in P as [P1 P2].
  rewrite forallb_forall in P1, P2.
  apply (occurrence_kept stringRx _ stringRx_sound w).
  - intros p w2 b I. unfold stringRx.
    rewrite (clash_stripPrefix _ _ _ (P1 w2 I)). reflexivity.
  - intros p s0 m g1 rest E.
    apply stringRx_Some in E as (-> & _ & _).
    exists (spanOpen "string"), spanClose.
    rewrite <- !app_assoc. reflexivity.
  - intros p a m2 w3 b g1 Na N2 N3 Ew E.
    apply stringRx_Some in E as (Em & _ & _).
    assert (I : In m2 (inits w)) by (rewrite Ew; apply In_inits; exact N3).
    specialize (P2 m2 I). apply andb_true_iff in P2 as [Q1 Q2].
    apply negb_true_iff in Q1, Q2.
    rewrite app_assoc in Em.
    apply app_eq_app in Em as (l & [[E1 E2] | [E1 E2]]).
    + rewrite E2, isSuffixOf_intro in Q1; [discriminate|exact N2].
    + rewrite E2, isSuffixOf_intro in Q2; [discriminate|discriminate].
Qed.

Lemma numberPass_keeps (w : jsstring) :
  numberProof w = true ->
  forall prev s,
    includes w s ->
    includes w
      (replaceAt numberRx numberTemplate prev s).
Proof.
  intros P prev s. unfold numberProof in P.
  apply andb_true_iff in P as [P _]. rewrite forallb_forall in P.
  apply (occurrence_kept numberRx _ numberRx_sound w).
  - intros p w2 b I. apply In_tails in I as (x & c & r & -> & ->).
    destruct (numberRx p ((c :: r) ++ b)) as [[[m g1] rest]|] eqn:E;
      [|reflexivity].
    apply numberRx_Some in E as (S & N & _ & D & _).
    destruct m as [|d m]; [congruence|]. inversion S; subst d.
    simpl in D. apply andb_true_iff in D as [D _].
    specialize (P c). rewrite in_app_iff in P. simpl in P.
    rewrite D in P. discriminate P. auto.
  - intros p s0 m g1 rest E.
    apply numberRx_Some in E as (_ & _ & -> & _).
    apply includes_wrapped.
  - intros p a m2 w3 b g1 Na N2 N3 -> E.
    apply numberRx_Some in E as (_ & _ & _ & D & _).
    destruct m2 as [|c m2]; [congruence|].
    rewrite forallb_app in D. apply andb_true_iff in D as [_ D].
    simpl in D. apply andb_true_iff in D as [D _].
    specialize (P c). simpl in P. rewrite D in P. discriminate P. auto.
Qed.

(* ================================================================== *)
(** ** The number pass and the apostrophe entity *)

Lemma numberRx_nondigit (prev : option ascii) (c : ascii) (s : jsstring) :
  isDigit c = false -> numberRx prev (c :: s) = None.
Proof.
  intros D. unfold numberRx.
  destruct (match prev with Some p => isWordChar p | None => false end);
    [reflexivity|].
  simpl span. rewrite D. reflexivity.
Qed.

Lemma numberRx_after_word (p : ascii) (s : jsstring) :
  isWordChar p = true -> numberRx (Some p) s = None.
Proof. intros W. unfold numberRx. rewrite W. reflexivity. Qed.

Lemma includes_skip (h : ascii) (w0 x y : jsstring) :
  includes (h :: w0) (x ++ y) -> ~ In h x -> includes (h :: w0) y.
Proof.
  intros (a & b & E) N.
  apply app_eq_app in E as (l & [[E1 E2] | [E1 E2]]).
  - destruct l as [|z l].
    + exists [], b. simpl in E2. rewrite app_nil_r in E1. subst. auto.
    + exfalso. simpl in E2. inversion E2; subst z.
      apply N. rewrite E1. apply in_or_app. right. left. reflexivity.
  - exists l, b. exact E2.
Qed.

Lemma number_entity_rewritten (prev : option ascii) (b : jsstring) :
  replaceAt numberRx numberTemplate prev (str "&#39;" ++ b)
  = (str "&#" ++ spanOpen "number" ++ str "39" ++ spanClose ++ str ";")
    ++ replaceAt numberRx numberTemplate (Some ";") b.
Proof.
  change (str "&#39;" ++ b) with ("&" :: "#" :: "3" :: "9" :: ";" :: b).
  rewrite (replaceAt_copy numberRx _ numberRx_sound)
    by (apply numberRx_nondigit; reflexivity).
  rewrite (replaceAt_copy numberRx _ numberRx_sound)
    by (apply numberRx_nondigit; reflexivity).
  rewrite (replaceAt_match numberRx _ numberRx_sound (Some "#") _
             (str "39") (str "39") (";" :: b)) by reflexivity.
  rewrite (replaceAt_copy numberRx _ numberRx_sound)
    by (apply numberRx_nondigit; reflexivity).
  reflexivity.
Qed.

Lemma numberPass_splits_entity (s : jsstring) :
  includes (str "&#39;") s ->
  includes (str "&#" ++ spanOpen "number" ++ str "39" ++ spanClose ++ str ";")
    (numberPass s).
Proof.
  apply (occurrence_from numberRx numberTemplate numberRx_sound
           (str "&#39;") _) with (n := List.length s); [| |lia].
  - intros prev b. exists (Some ";"). apply number_entity_rewritten.
  - intros prev a b m g1 rest Na R Gt. exfalso.
    apply numberRx_Some in R as (S & _ & _ & D & _).
    destruct (app_split_long a _ m rest S) as (m2 & -> & E2); [lia|].
    destruct m2 as [|d m2].
    + rewrite app_nil_r in Gt. lia.
    + inversion E2; subst d. rewrite forallb_app in D.
      apply andb_true_iff in D as [_ D]. discriminate D.
Qed.

Lemma number_no_hash_39 (n : nat) :
  forall (prev : option ascii) (t : jsstring),
    List.length t <= n ->
    ~ includes (str "#39;") (replaceAt numberRx numberTemplate prev t) /\
    (prev = Some "#" ->
     stripPrefix (str "39;") (replaceAt numberRx numberTemplate prev t)
     = None).
Proof.
  induction n as [|n IH]; intros prev t L.
  - destruct t; [|simpl in L; lia]. split; [|reflexivity].
    intros (a & b & E). destruct a; discriminate.
  - destruct t as [|c t].
    { split; [|reflexivity]. intros (a & b & E). destruct a; discriminate. }
    rewrite (replaceAt_cons numberRx _ numberRx_sound).
    destruct (numberRx prev (c :: t)) as [[[m g1] rest]|] eqn:E.
    + pose proof (match_shorter numberRx numberRx_sound _ _ _ _ _ E) as Sh.
      apply numberRx_Some in E as (_ & _ & -> & D & _).
      assert (Lr : List.length rest <= n) by (simpl in L, Sh; lia).
      split; [|reflexivity].
      intros I. apply (proj1 (IH (lastOf prev m) rest Lr)).
      apply (includes_skip "#" _ (numberTemplate m)); [exact I|].
      unfold numberTemplate. rewrite !in_app_iff. intros [H|[H|H]].
      * simpl in H. intuition discriminate.
      * rewrite forallb_forall in D. specialize (D _ H). discriminate D.
      * simpl in H. intuition discriminate.
    + assert (Lt : List.length t <= n) by (simpl in L; lia).
      destruct (IH (Some c) t Lt) as [I1 I2].
      split.
      * intros (a & b & Eab). destruct a as [|x a].
        -- simpl in Eab. inversion Eab as [[Ec Er]]. subst c.
           rewrite Er in I2. specialize (I2 eq_refl).
           simpl in I2. discriminate I2.
        -- inversion Eab as [[Ec Er]]. apply I1. exists a, b.
           rewrite Ec. exact Er.
      * intros ->.
        destruct (stripPrefix (str "39;")
                    (c :: replaceAt numberRx numberTemplate (Some c) t))
          as [r|] eqn:P; [exfalso|reflexivity].
        apply stripPrefix_Some in P. injection P as Ec Er.
        subst c.
        destruct t as [|h t]; [discriminate Er|].
        rewrite (replaceAt_copy numberRx _ numberRx_sound) in Er
          by (apply numberRx_after_word; reflexivity).
        injection Er as Eh Er'. subst h.
        destruct t as [|k t]; [discriminate Er'|].
        rewrite (replaceAt_copy numberRx _ numberRx_sound) in Er'
          by (apply numberRx_after_word; reflexivity).
        injection Er' as Ek _. subst k.
        discriminate E.
Qed.

Lemma numberPass_no_entity (t : jsstring) :
  ~ includes (str "&#39;") (numberPass t).
Proof.
  intros (a & b & E).
  apply (proj1 (number_no_hash_39 (List.length t) None t (le_n _))).
  exists (a ++ ["&"]), b. rewrite <- app_assoc. exact E.
Qed.

Lemma includes_escapeHtml (c : ascii) (s : jsstring) :
  In c s -> includes (escapeChar c) (escapeHtml s).
Proof.
  intros I. apply in_split in I as (a & b & ->).
  change (c :: b) with ([c] ++ b).
  rewrite !escapeHtml_app, escapeHtml_one.
  exists (escapeHtml a), (escapeHtml b). reflexivity.
Qed.

(** C10. The number pass cuts the apostrophe entity: for every input with
    an apostrophe the escaped text contains [&#39;], the highlighted text
    contains the entity with its digits wrapped in a number span, and the
    highlighted text nowhere contains the entity itself. *)
Theorem apostrophe_entity_is_split :
  forall s : jsstring,
    In squote s ->
    includes (str "&#39;") (escapeHtml s) /\
    includes
      (str "&#" ++ spanOpen "number" ++ str "39" ++ spanClose ++ str ";")
      (highlight s) /\
    ~ includes (str "&#39;") (highlight s).
Proof.
  intros s I.
  assert (E : includes (str "&#39;") (escapeHtml s))
    by exact (includes_escapeHtml squote s I).
  split; [exact E|]. split.
  - unfold highlight. apply numberPass_splits_entity.
    apply stringPass_keeps; [reflexivity|].
    apply keywordPass_keeps; [reflexivity|].
    apply commentPass_keeps; [reflexivity|].
    exact E.
  - apply numberPass_no_entity.
Qed.

Lemma apostrophe_entity_is_split_witness :
  In squote (str "it's") /\
  includes
    (str "&#" ++ spanOpen "number" ++ str "39" ++ spanClose ++ str ";")
    (highlight (str "it's")).
Proof.
  assert (I : In squote (str "it's")) by (simpl; auto).
  split; [exact I|].
  exact (proj1 (proj2 (apostrophe_entity_is_split (str "it's") I))).
Defined.

(* ================================================================== *)
(** ** The first line of every header *)

Lemma join_cons2 (sep x y : jsstring) (l : list jsstring) :
  join sep (x :: y :: l) = x ++ sep ++ join sep (y :: l).
Proof. reflexivity. Qed.

Lemma rawHeader_shape (schema : Schema) (variantName : jsstring)
  (v : Values) :
  exists rest,
    rawHeader schema variantName v
    = (str "#pragma once" ++ [LF]
       ++ str "// Auto-generated header from Config Editor" ++ [LF])
      ++ (str "// Variant: " ++ escapeHtml (nameOrDefault variantName))
      ++ rest.
Proof.
  unfold rawHeader. rewrite headerWorld_lines. unfold preamble.
  cbn [app]. rewrite !join_cons2.
  eexists. rewrite <- !app_assoc. reflexivity.
Qed.

Lemma keyword_at_word (kw : jsstring) :
  In kw keywords ->
  forall prev b, keywordRx prev (kw ++ b) = Some (kw, kw, b).
Proof.
  simpl. intros [<-|[<-|[<-|[<-|[]]]]] prev b; reflexivity.
Qed.

Lemma keywordPass_wraps (kw : jsstring) :
  In kw keywords ->
  forall prev s,
    includes kw s ->
    includes (spanOpen "keyword" ++ kw ++ spanClose)
      (replaceAt keywordRx keywordTemplate prev s).
Proof.
  intros K prev s.
  apply (occurrence_from keywordRx _ keywordRx_sound kw _)
    with (n := List.length s); [| |lia].
  - intros p b. exists (lastOf p kw).
    rewrite (replaceAt_match keywordRx _ keywordRx_sound p _ kw kw b)
      by (apply keyword_at_word; exact K).
    unfold keywordTemplate. rewrite <- !app_assoc. reflexivity.
  - intros p a b m g1 rest Na R Gt. exfalso.
    apply keywordRx_Some in R as (I & _ & S).
    destruct (app_split_long a _ m rest S) as (m2 & -> & E2); [lia|].
    destruct m2 as [|d m2]; [rewrite app_nil_r in Gt; lia|].
    destruct a as [|x a]; [congruence|].
    assert (H : In d (List.concat (map (@tl ascii) keywords))).
    { apply in_concat. exists (tl ((x :: a) ++ d :: m2)).
      split; [apply in_map; exact I|].
      simpl. apply in_or_app. right. left. reflexivity. }
    assert (d = "#").
    { simpl in K. destruct K as [<-|[<-|[<-|[<-|[]]]]];
        inversion E2; reflexivity. }
    subst d. simpl in H. intuition discriminate.
Qed.

Lemma commentRx_not_at (w : jsstring) :
  commentProof w = true ->
  forall prev w2 b, In w2 (tails w) -> commentRx prev (w2 ++ b) = None.
Proof.
  intros P p w2 b I. unfold commentProof in P. rewrite forallb_forall in P.
  apply In_tails in I as (x & c & r & -> & ->).
  destruct (commentRx p ((c :: r) ++ b)) as [[[m g1] rest]|] eqn:E;
    [|reflexivity].
  apply commentRx_Some in E as (s' & E & _). inversion E; subst c.
  specialize (P "/"). rewrite in_app_iff in P. simpl in P.
  discriminate P. auto.
Qed.

Lemma stringRx_not_at (w : jsstring) :
  stringProof w = true ->
  forall prev w2 b, In w2 (tails w) -> stringRx prev (w2 ++ b) = None.
Proof.
  intros P p w2 b I. unfold stringProof in P.
  apply andb_true_iff in P as [P _]. rewrite forallb_forall in P.
  unfold stringRx. rewrite (clash_stripPrefix _ _ _ (P w2 I)). reflexivity.
Qed.

Lemma numberRx_not_at (w : jsstring) :
  numberProof w = true ->
  forall prev w2 b, In w2 (tails w) -> numberRx prev (w2 ++ b) = None.
Proof.
  intros P p w2 b I. unfold numberProof in P.
  apply andb_true_iff in P as [P _]. rewrite forallb_forall in P.
  apply In_tails in I as (x & c & r & -> & ->).
  simpl app. apply numberRx_nondigit.
  specialize (P c). rewrite in_app_iff in P. simpl in P.
  apply negb_true_iff. apply P. auto.
Qed.

Lemma commentPass_eq (s : jsstring) :
  commentPass s
  = replaceAt commentRx commentTemplate None s.
Proof. reflexivity. Qed.

Lemma keywordPass_eq (s : jsstring) :
  keywordPass s
  = replaceAt keywordRx keywordTemplate None s.
Proof. reflexivity. Qed.

Lemma stringPass_eq (s : jsstring) :
  stringPass s
  = replaceAt stringRx stringTemplate None s.
Proof. reflexivity. Qed.

Lemma numberPass_eq (s : jsstring) :
  numberPass s
  = replaceAt numberRx numberTemplate None s.
Proof. reflexivity. Qed.

(** Whatever follows, a text that starts with [#pragma] is highlighted into
    a text that starts with a keyword span. *)
Lemma highlight_pragma (rest : jsstring) :
  exists out,
    highlight (str "#pragma" ++ rest)
    = (spanOpen "keyword" ++ str "#pragma" ++ spanClose) ++ out.
Proof.
  unfold highlight.
  rewrite numberPass_eq, stringPass_eq, keywordPass_eq, commentPass_eq.
  rewrite escapeHtml_app.
  change (escapeHtml (str "#pragma")) with (str "#pragma").
  rewrite (replaceAt_copy_word commentRx _ commentRx_sound (str "#pragma")
             (commentRx_not_at (str "#pragma") eq_refl)).
  rewrite (replaceAt_match keywordRx _ keywordRx_sound None _
             (str "#pragma") (str "#pragma") _)
    by (apply keyword_at_word; left; reflexivity).
  rewrite (replaceAt_copy_word stringRx _ stringRx_sound
             (spanOpen "keyword" ++ str "#pragma" ++ spanClose)
             (stringRx_not_at
                (spanOpen "keyword" ++ str "#pragma" ++ spanClose) eq_refl)).
  rewrite (replaceAt_copy_word numberRx _ numberRx_sound
             (spanOpen "keyword" ++ str "#pragma" ++ spanClose)
             (numberRx_not_at
                (spanOpen "keyword" ++ str "#pragma" ++ spanClose) eq_refl)).
  eexists. reflexivity.
Qed.

(* ================================================================== *)
(** ** The exported file *)

(** C1. What [exportCHeader] hands to the download is the highlighted
    markup, not the raw header: for every schema, variant name and value
    mapping the content is [highlight] of the raw text, it starts with a
    keyword span around [#pragma], and it differs from the raw header.
    For the empty schema and the name [variant] both texts are written
    out. *)
Theorem exported_header_is_markup :
  forall (schema : Schema) (variantName : jsstring) (v : Values),
    content (exportCHeader schema variantName v)
      = highlight (rawHeader schema variantName v) /\
    filename (exportCHeader schema variantName v)
      = nameOrDefault variantName ++ str "_final_cfg.h" /\
    (exists out,
       content (exportCHeader schema variantName v)
       = (spanOpen "keyword" ++ str "#pragma" ++ spanClose) ++ out) /\
    content (exportCHeader schema variantName v)
      <> rawHeader schema variantName v /\
    rawHeader [] (str "variant") []
      = str "#pragma once" ++ [LF]
        ++ str "// Auto-generated header from Config Editor" ++ [LF]
        ++ str "// Variant: variant" ++ [LF]
        ++ [LF]
        ++ str "// Variant-specific defines (highest priority)" ++ [LF]
        ++ [LF]
        ++ str "// Common defaults (only applied if not defined by variant)"
    /\
    content (exportCHeader [] (str "variant") [])
      = spanOpen "keyword" ++ str "#pragma" ++ spanClose ++ str " once"
        ++ [LF]
        ++ spanOpen "comment"
        ++ str "// Auto-generated header from Config Editor" ++ spanClose
        ++ [LF]
        ++ spanOpen "comment" ++ str "// Variant: variant" ++ spanClose
        ++ [LF]
        ++ [LF]
        ++ spanOpen "comment"
        ++ str "// Variant-specific defines (highest priority)" ++ spanClose
        ++ [LF]
        ++ [LF]
        ++ spanOpen "comment"
        ++ str "// Common defaults (only applied if not defined by variant)"
        ++ spanClose.
Proof.
  intros schema variantName v.
  assert (H : exists out,
             content (exportCHeader schema variantName v)
             = (spanOpen "keyword" ++ str "#pragma" ++ spanClose) ++ out).
  { destruct (rawHeader_shape schema variantName v) as (rest & R).
    cbn [exportCHeader content]. unfold generateCHeader. rewrite R.
    change (str "#pragma once") with (str "#pragma" ++ str " once").
    rewrite <- !app_assoc. apply highlight_pragma. }
  split; [reflexivity|]. split; [reflexivity|]. split; [exact H|].
  split; [|split; vm_compute; reflexivity].
  destruct H as (out & ->).
  destruct (rawHeader_shape schema variantName v) as (rest & ->).
  discriminate.
Qed.

(* ================================================================== *)
(** ** Keywords *)

(** C8, as stated, fails: in [x #define y] the keyword stands in the middle
    of the line and is wrapped; so is a keyword typed as the variant name,
    inside the comment line of the header. *)
Lemma keyword_wrapped_mid_line :
  highlight (str "x #define y")
    = str "x " ++ spanOpen "keyword" ++ str "#define" ++ spanClose
      ++ str " y" /\
  includes
    (spanOpen "comment" ++ str "// Variant: " ++ spanOpen "keyword"
     ++ str "#endif" ++ spanClose ++ spanClose)
    (generateCHeader [] (str "#endif") []).
Proof.
  split; [vm_compute; reflexivity|].
  apply includesb_spec. vm_compute. reflexivity.
Qed.

(* ================================================================== *)
(** ** The variant name *)

Lemma includes_escapeHtml_word (w s : jsstring) :
  includes w s -> includes (escapeHtml w) (escapeHtml s).
Proof.
  intros (a & b & ->). rewrite !escapeHtml_app.
  exists (escapeHtml a), (escapeHtml b). reflexivity.
Qed.

Lemma includes_trans (w x s : jsstring) :
  includes w x -> includes x s -> includes w s.
Proof.
  intros (a & b & ->) (a' & b' & ->).
  exists (a' ++ a), (b ++ b'). rewrite <- !app_assoc. reflexivity.
Qed.

Lemma highlight_keeps (w s : jsstring) :
  commentProof w = true -> keywordProof w = true ->
  stringProof w = true -> numberProof w = true ->
  includes w (escapeHtml s) -> includes w (highlight s).
Proof.
  intros C K S N I. unfold highlight.
  apply numberPass_keeps; [exact N|].
  apply stringPass_keeps; [exact S|].
  apply keywordPass_keeps; [exact K|].
  apply commentPass_keeps; [exact C|].
  exact I.
Qed.

(** C9. The variant name is escaped twice.  The comment line of the raw
    header holds the escaped name; the whole raw text is escaped again
    before highlighting, so the text of the output (the output is that text
    with span tags inserted) holds the name escaped twice: [&] as
    [&amp;amp;], [<] as [&amp;lt;], [>] as [&amp;gt;], a double quote as
    [&amp;quot;] and an apostrophe as [&amp;#39;].  The exported file has
    the same content as the preview.  A name with [&] puts the literal
    [&amp;amp;] into the output. *)
Theorem variant_name_escaped_twice :
  forall (schema : Schema) (variantName : jsstring) (v : Values),
    content (exportCHeader schema variantName v)
      = generateCHeader schema variantName v /\
    includes (str "// Variant: " ++ escapeHtml (nameOrDefault variantName))
      (rawHeader schema variantName v) /\
    includes
      (str "// Variant: "
       ++ escapeHtml (escapeHtml (nameOrDefault variantName)))
      (escapeHtml (rawHeader schema variantName v)) /\
    markup (escapeHtml (rawHeader schema variantName v))
      (generateCHeader schema variantName v) /\
    (forall c,
       In c (nameOrDefault variantName) ->
       includes (escapeHtml (escapeChar c))
         (escapeHtml (rawHeader schema variantName v))) /\
    escapeHtml (escapeChar "&") = str "&amp;amp;" /\
    escapeHtml (escapeChar "<") = str "&amp;lt;" /\
    escapeHtml (escapeChar ">") = str "&amp;gt;" /\
    escapeHtml (escapeChar dquote) = str "&amp;quot;" /\
    escapeHtml (escapeChar squote) = str "&amp;#39;" /\
    (In "&" variantName ->
     includes (str "&amp;amp;") (generateCHeader schema variantName v)).
Proof.
  intros schema variantName v.
  assert (L : includes
                (str "// Variant: " ++ escapeHtml (nameOrDefault variantName))
                (rawHeader schema variantName v)).
  { destruct (rawHeader_shape schema variantName v) as (rest & ->).
    eexists _, _. reflexivity. }
  assert (C : forall c, In c (nameOrDefault variantName) ->
                includes (escapeHtml (escapeChar c))
                  (escapeHtml (rawHeader schema variantName v))).
  { intros c I. apply includes_escapeHtml_word.
    apply (includes_trans _ _ _ (includes_escapeHtml c _ I)).
    apply (includes_trans _ (str "// Variant: "
                             ++ escapeHtml (nameOrDefault variantName)));
      [|exact L].
    exists (str "// Variant: "), []. rewrite app_nil_r. reflexivity. }
  split; [reflexivity|]. split; [exact L|]. split.
  { apply includes_escapeHtml_word in L.
    rewrite escapeHtml_app in L. exact L. }
  split; [apply highlight_markup|]. split; [exact C|].
  do 5 (split; [reflexivity|]).
  intros I. unfold generateCHeader.
  apply highlight_keeps; try reflexivity.
  apply (C "&"). destruct variantName; [destruct I|exact I].
Qed.

Lemma variant_name_escaped_twice_witness :
  In "&" (str "R&D") /\
  includes (str "&amp;amp;") (generateCHeader [] (str "R&D") []).
Proof.
  assert (I : In "&" (str "R&D")) by (simpl; auto).
  split; [exact I|].
  apply (variant_name_escaped_twice [] (str "R&D") []). exact I.
Defined.


(* ================================================================== *)
(** ** More about [escapeHtml] *)

Lemma escapeChar_spec (c : ascii) :
  (c = "&" /\ escapeChar c = str "&amp;") \/
  (c = "<" /\ escapeChar c = str "&lt;") \/
  (c = ">" /\ escapeChar c = str "&gt;") \/
  (c = dquote /\ escapeChar c = str "&quot;") \/
  (c = squote /\ escapeChar c = str "&#39;") \/
  (plainChar c = true /\ c <> "&" /\ escapeChar c = [c]).
Proof.
  unfold escapeChar, plainChar, isSpecial.
  destruct (Ascii.eqb_spec c "&") as [->|N1]; [auto|].
  destruct (Ascii.eqb_spec c "<") as [->|N2]; [auto|].
  destruct (Ascii.eqb_spec c ">") as [->|N3]; [auto 6|].
  destruct (Ascii.eqb_spec c dquote) as [->|N4]; [auto 7|].
  destruct (Ascii.eqb_spec c squote) as [->|N5]; [auto 8|].
  do 5 right. auto.
Qed.

Lemma escapeChar_cancel (c1 c2 : ascii) (r1 r2 : jsstring) :
  escapeChar c1 ++ r1 = escapeChar c2 ++ r2 -> c1 = c2 /\ r1 = r2.
Proof.
  destruct (escapeChar_spec c1)
    as [[-> ->]|[[-> ->]|[[-> ->]|[[-> ->]|[[-> ->]|(_ & N1 & ->)]]]]];
  destruct (escapeChar_spec c2)
    as [[-> ->]|[[-> ->]|[[-> ->]|[[-> ->]|[[-> ->]|(_ & N2 & ->)]]]]];
  simpl; intros H; try discriminate H;
    injection H; intros; subst; try congruence; auto.
Qed.

Lemma escapeChar_nonempty (c : ascii) (r : jsstring) :
  escapeChar c ++ r <> [].
Proof.
  destruct (escapeChar_spec c)
    as [[_ E]|[[_ E]|[[_ E]|[[_ E]|[[_ E]|(_ & _ & E)]]]]];
    rewrite E; discriminate.
Qed.

Lemma escapeChars_cancel (a b : jsstring) :
  flat_map escapeChar a = flat_map escapeChar b -> a = b.
Proof.
  revert b. induction a as [|x a IH]; intros [|y b]; simpl; intros H.
  - reflexivity.
  - symmetry in H. destruct (escapeChar_nonempty _ _ H).
  - destruct (escapeChar_nonempty _ _ H).
  - apply escapeChar_cancel in H as [-> H]. f_equal. apply IH, H.
Qed.

(** X1. [escapeHtml] loses nothing: two texts with the same escaped form
    are the same text. *)
Theorem escapeHtml_injective :
  forall a b : jsstring, escapeHtml a = escapeHtml b -> a = b.
Proof.
  intros a b H. rewrite !escapeHtml_flat_map in H.
  apply escapeChars_cancel. exact H.
Qed.

Lemma escapeHtml_injective_witness :
  escapeHtml (str "a<b") = escapeHtml (str "a<b") /\ str "a<b" = str "a<b".
Proof.
  split; [reflexivity|].
  exact (escapeHtml_injective (str "a<b") (str "a<b") eq_refl).
Defined.

Lemma escapeChar_length (c : ascii) :
  1 <= List.length (escapeChar c) /\
  (List.length (escapeChar c) = 1 -> plainChar c = true).
Proof.
  destruct (escapeChar_spec c)
    as [[_ E]|[[_ E]|[[_ E]|[[_ E]|[[_ E]|(P & _ & E)]]]]];
    rewrite E; simpl; split; try lia; try discriminate; auto.
Qed.

Lemma escapeHtml_length (s : jsstring) :
  List.length s <= List.length (escapeHtml s).
Proof.
  rewrite escapeHtml_flat_map.
  induction s as [|c s IH]; simpl; [lia|].
  rewrite length_app. pose proof (proj1 (escapeChar_length c)). lia.
Qed.

Lemma escapeHtml_plain (s : jsstring) :
  forallb plainChar s = true -> escapeHtml s = s.
Proof.
  intros H. rewrite escapeHtml_flat_map.
  induction s as [|c s IH]; [reflexivity|].
  simpl in H. apply andb_true_iff in H as [Hc Hs].
  simpl. rewrite (IH Hs).
  destruct (escapeChar_spec c)
    as [[-> _]|[[-> _]|[[-> _]|[[-> _]|[[-> _]|(_ & _ & ->)]]]]];
    try discriminate Hc. reflexivity.
Qed.

(** X2. [escapeHtml] never shortens a text, and it returns the text
    unchanged exactly when the text has none of the five characters [&],
    [<], [>], double quote and apostrophe. *)
Theorem escapeHtml_fixed_points :
  forall s : jsstring,
    List.length s <= List.length (escapeHtml s) /\
    (escapeHtml s = s <-> forallb plainChar s = true).
Proof.
  intros s. split; [apply escapeHtml_length|].
  split.
  - intros H. apply (f_equal (@List.length ascii)) in H.
    rewrite escapeHtml_flat_map in H.
    induction s as [|c s IH]; [reflexivity|].
    simpl in H. rewrite length_app in H.
    pose proof (escapeChar_length c) as [L1 L2].
    pose proof (escapeHtml_length s) as L3.
    rewrite escapeHtml_flat_map in L3.
    simpl. rewrite L2 by lia. apply IH. lia.
  - apply escapeHtml_plain.
Qed.

(* ================================================================== *)
(** ** The text under the markup *)

Lemma stripFrom_tag (g u : jsstring) :
  In g tags -> stripFrom false (g ++ u) = stripFrom false u.
Proof.
  simpl. intros [<-|[<-|[<-|[<-|[<-|[]]]]]]; reflexivity.
Qed.

Lemma markup_stripTags (t u : jsstring) :
  markup t u ->
  forallb (fun c => negb (Ascii.eqb c "<")) t = true ->
  stripTags u = t.
Proof.
  unfold stripTags. induction 1 as [|c t u M IH|g t u G M IH]; intros N.
  - reflexivity.
  - simpl in N. apply andb_true_iff in N as [Nc N].
    apply negb_true_iff in Nc. simpl. rewrite Nc, (IH N). reflexivity.
  - rewrite (stripFrom_tag g u G). exact (IH N).
Qed.

(** X3. Dropping the tags from the highlighted text gives the escaped text
    back: the four passes add span tags and change nothing else. *)
Theorem stripTags_highlight :
  forall s : jsstring, stripTags (highlight s) = escapeHtml s.
Proof.
  intros s. apply markup_stripTags.
  - apply highlight_markup.
  - apply special_lt, escaped_no_special, escapeHtml_escaped.
Qed.

(** X4. The highlighted text determines the raw text: two raw texts with
    the same preview are equal. *)
Theorem highlight_injective :
  forall a b : jsstring, highlight a = highlight b -> a = b.
Proof.
  intros a b H.
  assert (T : forall s, stripTags (highlight s) = escapeHtml s).
  { intros s. apply markup_stripTags; [apply highlight_markup|].
    apply special_lt, escaped_no_special, escapeHtml_escaped. }
  apply escapeChars_cancel. rewrite <- !escapeHtml_flat_map.
  rewrite <- (T a), <- (T b), H. reflexivity.
Qed.

Lemma highlight_injective_witness :
  highlight (str "#define A 1") = highlight (str "#define A 1") /\
  str "#define A 1" = str "#define A 1".
Proof.
  split; [reflexivity|].
  exact (highlight_injective (str "#define A 1") (str "#define A 1") eq_refl).
Defined.

(* ================================================================== *)
(** ** String literals are closed by their last quote *)


Lemma escapeCString_flat_map (val : value) :
  escapeCString val
  = flat_map (fun c =>
                if Ascii.eqb c backslash then [backslash; backslash]
                else if Ascii.eqb c dquote then [backslash; dquote]
                else [c]) (toString val).
Proof.
  unfold escapeCString.
  induction (toString val) as [|c s IH]; [reflexivity|].
  change (replaceChar backslash [backslash; backslash] (c :: s))
    with ((if Ascii.eqb c backslash then [backslash; backslash] else [c])
          ++ replaceChar backslash [backslash; backslash] s).
  rewrite replaceChar_app, IH. cbn [flat_map]. f_equal.
  destruct (Ascii.eqb c backslash) eqn:B.
  - reflexivity.
  - cbn [replaceChar flat_map app]. rewrite app_nil_r. reflexivity.
Qed.


(* ================================================================== *)
(** ** The value mapping under [update] *)

Lemma hasOwn_In {A : Type} (o : object A) (k : jsstring) :
  hasOwn o k = true <-> In k (keys o).
Proof.
  unfold hasOwn. induction o as [|[k0 a] o IH]; simpl.
  - split; [discriminate|tauto].
  - destruct (jseqb k0 k) eqn:E; simpl.
    + apply jseqb_eq in E. split; auto.
    + apply jseqb_neq in E. rewrite IH. split; [auto|].
      intros [H|H]; [congruence|exact H].
Qed.

Lemma hasOwn_false {A : Type} (o : object A) (k : jsstring) :
  hasOwn o k = false <-> ~ In k (keys o).
Proof.
  rewrite <- hasOwn_In. destruct (hasOwn o k); split; congruence.
Qed.

Lemma get_setOwn_same (v : Values) (k : jsstring) (x : value) :
  In k (keys v) -> get (setOwn v k x) k = Some x.
Proof.
  induction v as [|[k0 y] v IH]; simpl; [tauto|].
  intros H. destruct (jseqb k0 k) eqn:E; simpl; rewrite E; [reflexivity|].
  apply IH. destruct H as [H|H]; [|exact H].
  apply jseqb_neq in E. congruence.
Qed.

Lemma get_setOwn_other (v : Values) (k k' : jsstring) (x : value) :
  k' <> k -> get (setOwn v k x) k' = get v k'.
Proof.
  intros N. induction v as [|[k0 y] v IH]; simpl; [reflexivity|].
  destruct (jseqb k0 k) eqn:E; simpl.
  - apply jseqb_eq in E. subst k0.
    destruct (jseqb k k') eqn:E'; [|reflexivity].
    apply jseqb_eq in E'. congruence.
  - rewrite IH. reflexivity.
Qed.

Lemma keys_setOwn (v : Values) (k : jsstring) (x : value) :
  keys (setOwn v k x) = keys v.
Proof.
  induction v as [|[k0 y] v IH]; simpl; [reflexivity|].
  destruct (jseqb k0 k); simpl; [reflexivity|].
  f_equal. exact IH.
Qed.

Lemma get_insertIndex_same (v : Values) (k : jsstring) (x : value) :
  ~ In k (keys v) -> get (insertIndex v k x) k = Some x.
Proof.
  induction v as [|[k0 y] v IH]; simpl; intros N.
  - rewrite jseqb_refl. reflexivity.
  - destruct (smallerIndex k k0); simpl.
    + destruct (jseqb k0 k) eqn:E; [apply jseqb_eq in E; tauto|].
      apply IH. tauto.
    + rewrite jseqb_refl. reflexivity.
Qed.

Lemma get_insertIndex_other (v : Values) (k k' : jsstring) (x : value) :
  k' <> k -> get (insertIndex v k x) k' = get v k'.
Proof.
  intros N. induction v as [|[k0 y] v IH]; simpl.
  - destruct (jseqb k k') eqn:E; [|reflexivity].
    apply jseqb_eq in E. congruence.
  - destruct (smallerIndex k k0); simpl.
    + rewrite IH. reflexivity.
    + destruct (jseqb k k') eqn:E; [|reflexivity].
      apply jseqb_eq in E. congruence.
Qed.

Lemma get_app_last {A : Type} (o : object A) (k k' : jsstring) (a : A) :
  get (o ++ [(k, a)]) k'
  = match get o k' with
    | Some b => Some b
    | None => if jseqb k k' then Some a else None
    end.
Proof.
  induction o as [|[k0 b] o IH]; simpl; [reflexivity|].
  destruct (jseqb k0 k'); [reflexivity|exact IH].
Qed.

Lemma get_update_same (v : Values) (k : jsstring) (x : value) :
  get (update v k x) k = Some x.
Proof.
  unfold update, defineOwn. destruct (hasOwn v k) eqn:H.
  - apply get_setOwn_same, hasOwn_In, H.
  - apply hasOwn_false in H. destruct (isArrayIndex k).
    + apply get_insertIndex_same, H.
    + rewrite get_app_last, (get_None_not_In _ _ H), jseqb_refl. reflexivity.
Qed.

Lemma get_update_other (v : Values) (k k' : jsstring) (x : value) :
  k' <> k -> get (update v k x) k' = get v k'.
Proof.
  intros N. unfold update, defineOwn. destruct (hasOwn v k).
  - apply get_setOwn_other, N.
  - destruct (isArrayIndex k).
    + apply get_insertIndex_other, N.
    + rewrite get_app_last. destruct (get v k'); [reflexivity|].
      destruct (jseqb k k') eqn:E; [|reflexivity].
      apply jseqb_eq in E. congruence.
Qed.

Lemma keys_update_present (v : Values) (k : jsstring) (x : value) :
  In k (keys v) -> keys (update v k x) = keys v.
Proof.
  intros H. unfold update, defineOwn.
  rewrite (proj2 (hasOwn_In v k) H). apply keys_setOwn.
Qed.

Lemma keys_update_absent (v : Values) (k : jsstring) (x : value) :
  ~ In k (keys v) -> isArrayIndex k = false ->
  keys (update v k x) = keys v ++ [k].
Proof.
  intros H I. unfold update, defineOwn.
  rewrite (proj2 (hasOwn_false v k) H), I.
  unfold keys. rewrite map_app. reflexivity.
Qed.

Lemma keys_insertIndex (v : Values) (k : jsstring) (x : value) :
  exists a b,
    keys v = a ++ b /\
    keys (insertIndex v k x) = a ++ k :: b /\
    forallb (smallerIndex k) a = true /\
    match b with
    | [] => True
    | k' :: _ => smallerIndex k k' = false
    end.
Proof.
  induction v as [|[k0 y] v IH]; simpl.
  - exists [], []. auto.
  - destruct (smallerIndex k k0) eqn:S; simpl.
    + destruct IH as (a & b & E1 & E2 & F & B).
      exists (k0 :: a), b. simpl. rewrite E1, E2, S, F. auto.
    + exists [], (k0 :: keys v). simpl. auto.
Qed.

Lemma In_keys_update (v : Values) (k k' : jsstring) (x : value) :
  In k' (keys (update v k x)) <-> k' = k \/ In k' (keys v).
Proof.
  split.
  - intros H. destruct (jseqb k' k) eqn:E; [apply jseqb_eq in E; auto|].
    apply jseqb_neq in E. right.
    destruct (In_keys_get _ _ H) as (a & G).
    rewrite get_update_other in G by exact E.
    apply get_Some_In in G. exact G.
  - intros [->|H].
    + apply (get_Some_In _ _ x), get_update_same.
    + destruct (jseqb k' k) eqn:E.
      * apply jseqb_eq in E. subst k'.
        apply (get_Some_In _ _ x), get_update_same.
      * apply jseqb_neq in E. destruct (In_keys_get _ _ H) as (a & G).
        apply (get_Some_In _ _ a). rewrite get_update_other by exact E.
        exact G.
Qed.

(** X6. [update] writes one entry and touches no other: the key reads the
    new value afterwards, and every other key reads what it read before. *)
Theorem update_reads :
  forall (v : Values) (k : jsstring) (x : value),
    getValue (update v k x) k = x /\
    (forall k', k' <> k -> getValue (update v k x) k' = getValue v k').
Proof.
  intros v k x. unfold getValue. split.
  - rewrite get_update_same. reflexivity.
  - intros k' N. rewrite get_update_other by exact N. reflexivity.
Qed.

Lemma update_reads_witness :
  getValue (update [(str "A", VNum (int 1)); (str "B", VBool true)]
              (str "A") (VNum (int 2))) (str "B")
  = getValue [(str "A", VNum (int 1)); (str "B", VBool true)] (str "B").
Proof.
  apply (proj2 (update_reads [(str "A", VNum (int 1)); (str "B", VBool true)]
                  (str "A") (VNum (int 2)))).
  discriminate.
Defined.

(** X7. [update] keeps the order of the keys that are there: a key that
    has an entry keeps its place, so an edit never reorders the header.  A
    new key goes last, unless it is an array index (a canonical numeral
    below 2^32 - 1): that one goes after the smaller array indices at the
    front and before everything else. *)
Theorem update_keeps_key_order :
  (forall (v : Values) (k : jsstring) (x : value),
     (In k (keys v) -> keys (update v k x) = keys v) /\
     (~ In k (keys v) -> isArrayIndex k = false ->
      keys (update v k x) = keys v ++ [k]) /\
     (~ In k (keys v) -> isArrayIndex k = true ->
      exists a b,
        keys v = a ++ b /\
        keys (update v k x) = a ++ k :: b /\
        forallb (fun k' => isArrayIndex k'
                           && (indexValue k' <? indexValue k)%N) a = true /\
        match b with
        | [] => True
        | k' :: _ =>
            isArrayIndex k' && (indexValue k' <? indexValue k)%N = false
        end)) /\
  keys (update [(str "A", VNum (int 1)); (str "B", VBool true)]
          (str "A") (VNum (int 2))) = [str "A"; str "B"] /\
  keys (update [(str "A", VNum (int 1))] (str "B") VNull)
  = [str "A"; str "B"] /\
  keys (update [(str "1", VNull); (str "10", VNull); (str "A", VNull)]
          (str "2") VNull)
  = [str "1"; str "2"; str "10"; str "A"] /\
  keys (update [(str "A", VNull)] (str "02") VNull) = [str "A"; str "02"] /\
  map isArrayIndex
    [str "0"; str "2"; str "10"; str "4294967294"; str "4294967295";
     str "02"; str "-1"; str "1.5"; str ""; str "A"]
  = [true; true; true; true; false; false; false; false; false; false].
Proof.
  split; [|repeat split; reflexivity].
  intros v k x. split; [apply keys_update_present|].
  split; [apply keys_update_absent|].
  intros N I. unfold update, defineOwn.
  rewrite (proj2 (hasOwn_false v k) N), I.
  apply keys_insertIndex.
Qed.

Lemma update_keeps_key_order_witness :
  keys (update [(str "A", VNum (int 1)); (str "B", VBool true)]
          (str "A") (VNum (int 2)))
  = [str "A"; str "B"] /\
  keys (update [(str "A", VNum (int 1))] (str "B") VNull) = [str "A"; str "B"].
Proof.
  split.
  - apply (proj1 (proj1 update_keeps_key_order
                    [(str "A", VNum (int 1)); (str "B", VBool true)]
                    (str "A") (VNum (int 2)))).
    left. reflexivity.
  - apply (proj1 (proj2 (proj1 update_keeps_key_order [(str "A", VNum (int 1))]
                    (str "B") VNull))).
    + simpl. intros [H|[]]. discriminate H.
    + reflexivity.
Defined.

(* ================================================================== *)
(** ** The initial value mapping and the mappings the form can reach *)

Section Assignments.

Variable f : jsstring -> value.

Lemma get_assign_same (initial : Values) (k : jsstring) :
  k <> str "__proto__" -> get (assign initial k (f k)) k = Some (f k).
Proof.
  intros N. unfold assign.
  destruct (jseqb k (str "__proto__")) eqn:E;
    [apply jseqb_eq in E; congruence|].
  apply get_update_same.
Qed.

Lemma get_assign_other (initial : Values) (k k' : jsstring) :
  k' <> k \/ k' = str "__proto__" ->
  get (assign initial k (f k)) k' = get initial k'.
Proof.
  intros N. unfold assign.
  destruct (jseqb k (str "__proto__")) eqn:E; [reflexivity|].
  apply jseqb_neq in E. apply get_update_other.
  destruct N as [N|N]; congruence.
Qed.

Lemma get_assignments_out (ks : list jsstring) (initial : Values)
  (k : jsstring) :
  ~ In k ks \/ k = str "__proto__" ->
  get (fold_left (fun initial k => assign initial k (f k)) ks initial) k
  = get initial k.
Proof.
  revert initial. induction ks as [|k0 ks IH]; intros initial N; simpl.
  - reflexivity.
  - rewrite IH by (simpl in N; tauto).
    apply get_assign_other. simpl in N.
    destruct N as [N|N]; [left|right]; [intros ->; tauto|exact N].
Qed.

Lemma get_assignments_in (ks : list jsstring) (initial : Values)
  (k : jsstring) :
  In k ks -> k <> str "__proto__" ->
  get (fold_left (fun initial k => assign initial k (f k)) ks initial) k
  = Some (f k).
Proof.
  revert initial. induction ks as [|k0 ks IH]; intros initial I N; simpl.
  - destruct I.
  - destruct (in_dec (list_eq_dec Ascii.ascii_dec) k ks) as [I'|I'].
    + apply IH; assumption.
    + rewrite get_assignments_out by tauto.
      destruct I as [->|I]; [|tauto].
      apply get_assign_same, N.
Qed.

Lemma keys_assignments (ks : list jsstring) (initial : Values) :
  NoDup ks ->
  (forall k, In k ks ->
             ~ In k (keys initial) /\ isArrayIndex k = false /\
             k <> str "__proto__") ->
  keys (fold_left (fun initial k => assign initial k (f k)) ks initial)
  = keys initial ++ ks.
Proof.
  revert initial. induction ks as [|k0 ks IH]; intros initial D H; simpl.
  - rewrite app_nil_r. reflexivity.
  - inversion D as [|? ? D1 D2]; subst.
    destruct (H k0 (or_introl eq_refl)) as (H1 & H2 & H3).
    assert (K : keys (assign initial k0 (f k0)) = keys initial ++ [k0]).
    { unfold assign.
      destruct (jseqb k0 (str "__proto__")) eqn:E;
        [apply jseqb_eq in E; congruence|].
      apply keys_update_absent; assumption. }
    rewrite IH; [rewrite K, <- app_assoc; reflexivity|exact D2|].
    intros k I. destruct (H k (or_intror I)) as (G1 & G2 & G3).
    split; [|auto]. rewrite K, in_app_iff. simpl.
    intros [G|[G|[]]]; [tauto|]. subst k. tauto.
Qed.

End Assignments.

Lemma getValue_initialValues (schema : Schema) (k : jsstring)
  (d : descriptor) :
  get schema k = Some d -> k <> str "__proto__" ->
  getValue (initialValues schema) k
  = match default d with
    | VUndefined | VNull => VNull
    | x => x
    end.
Proof.
  intros H N. unfold getValue, initialValues.
  rewrite (get_assignments_in
             (fun k => match get schema k with
                       | Some d => match default d with
                                   | VUndefined | VNull => VNull
                                   | x => x
                                   end
                       | None => VNull
                       end) _ _ _ (get_Some_In _ _ _ H) N), H.
  reflexivity.
Qed.

Lemma In_keys_initialValues (schema : Schema) (k : jsstring) :
  In k (keys (initialValues schema)) <->
  In k (keys schema) /\ k <> str "__proto__".
Proof.
  split.
  - intros I. destruct (In_keys_get _ _ I) as (x & G).
    unfold initialValues in G.
    destruct (in_dec (list_eq_dec Ascii.ascii_dec) k (keys schema)) as [I'|I'].
    + split; [exact I'|]. intros ->.
      rewrite get_assignments_out in G by auto. discriminate G.
    + rewrite get_assignments_out in G by auto. discriminate G.
  - intros [I N]. destruct (In_keys_get _ _ I) as (d & G).
    pose proof (getValue_initialValues schema k d G N) as E.
    unfold getValue in E.
    destruct (get (initialValues schema) k) as [x|] eqn:G'.
    + exact (get_Some_In _ _ _ G').
    + destruct (default d); discriminate E.
Qed.

(** X8. The initial value mapping has an entry for every key of the schema
    except [__proto__], and for no other key; an entry reads the declared
    default, falsy defaults included, and reads [null] when the default is
    missing or [null]; no entry reads [undefined].  The assignment to
    [__proto__] makes no entry.  When no key of the schema is an array
    index or [__proto__], the entries stand in the order of the schema. *)
Theorem initialValues_defaults :
  (forall (schema : Schema),
     (forall k,
        In k (keys (initialValues schema)) <->
        In k (keys schema) /\ k <> str "__proto__") /\
     (forall k d,
        get schema k = Some d -> k <> str "__proto__" ->
        getValue (initialValues schema) k
        = match default d with
          | VUndefined | VNull => VNull
          | x => x
          end) /\
     (forall k,
        In k (keys schema) -> k <> str "__proto__" ->
        getValue (initialValues schema) k <> VUndefined) /\
     (NoDup (keys schema) ->
      (forall k, In k (keys schema) ->
                 isArrayIndex k = false /\ k <> str "__proto__") ->
      keys (initialValues schema) = keys schema)) /\
  initialValues booleanB = [(str "B", VBool false)] /\
  initialValues (numberA VUndefined) = [(str "A", VNull)] /\
  initialValues
    [(str "__proto__", Descriptor (str "number") (VNum (int 5)) None);
     (str "A", Descriptor (str "number") (VNum (int 0)) None)]
  = [(str "A", VNum (int 0))].
Proof.
  split; [|repeat split; reflexivity].
  intros schema.
  split; [apply In_keys_initialValues|].
  split; [apply getValue_initialValues|].
  split.
  - intros k I N. destruct (In_keys_get schema k I) as (d & H).
    rewrite (getValue_initialValues schema k d H N).
    destruct (default d); discriminate.
  - intros D H. unfold initialValues.
    rewrite keys_assignments; [reflexivity|exact D|].
    intros k I. destruct (H k I). simpl. tauto.
Qed.

Lemma initialValues_defaults_witness :
  getValue (initialValues booleanB) (str "B") = VBool false.
Proof.
  apply (proj1 (proj2 (proj1 initialValues_defaults booleanB)) (str "B")
           (Descriptor (str "boolean") (VBool false) None));
    [reflexivity|discriminate].
Defined.

Lemma keys_applyEdits (schema : Schema) (edits : list (jsstring * value)) :
  Forall (fun e => In (fst e) (keys schema)) edits ->
  forall v,
    (forall k, In k (keys v) -> In k (keys schema)) ->
    (forall k, In k (keys schema) -> k <> str "__proto__" ->
               In k (keys v)) ->
    (forall k, In k (keys (applyEdits v edits)) -> In k (keys schema)) /\
    (forall k, In k (keys schema) -> k <> str "__proto__" ->
               In k (keys (applyEdits v edits))).
Proof.
  unfold applyEdits. induction 1 as [|e edits He _ IH]; intros v K1 K2.
  - auto.
  - simpl. apply IH.
    + intros k I. apply In_keys_update in I as [->|I]; auto.
    + intros k I N. apply In_keys_update. right. auto.
Qed.

Lemma tier1Warnings_shape (schema : Schema) (v : Values) (k m : jsstring) :
  In m (tier1Warnings schema v k) ->
  (isValidCIdentifier k = false /\
   m = str "Skipping invalid C identifier: " ++ k) \/
  (get schema k = None /\ inherited k = false /\
   m = str "No schema found for key: " ++ k).
Proof.
  unfold tier1Warnings, tier1, readSchema.
  destruct (isValidCIdentifier k); simpl.
  - destruct (get schema k) eqn:G; simpl; [tauto|].
    destruct (inherited k); simpl; [tauto|].
    intros [<-|[]]. right. auto.
  - intros [<-|[]]. left. auto.
Qed.

(** X9. The form only edits keys of the schema, so every value mapping it
    can reach (the initial one, then any edits of schema keys) has entries
    for keys of the schema only, and for every key of the schema other
    than [__proto__]; for such a mapping the generator never logs
    [No schema found]: every warning names a schema key that is not a valid
    C identifier. *)
Theorem reachable_values_cover_schema :
  forall (schema : Schema) (variantName : jsstring)
         (edits : list (jsstring * value)),
    Forall (fun e => In (fst e) (keys schema)) edits ->
    let v := applyEdits (initialValues schema) edits in
    (forall k, In k (keys v) -> In k (keys schema)) /\
    (forall k, In k (keys schema) -> k <> str "__proto__" ->
               In k (keys v)) /\
    (forall m,
       In m (console (headerWorld schema variantName v)) ->
       exists k,
         In k (keys schema) /\ isValidCIdentifier k = false /\
         m = str "Skipping invalid C identifier: " ++ k).
Proof.
  intros schema variantName edits F v.
  destruct (keys_applyEdits schema edits F (initialValues schema))
    as [K1 K2].
  { intros k I. apply In_keys_initialValues in I. tauto. }
  { intros k I N. apply In_keys_initialValues. auto. }
  split; [exact K1|]. split; [exact K2|].
  intros m I. rewrite headerWorld_console in I.
  apply in_flat_map in I as (k & Ik & Im).
  apply K1 in Ik. exists k. split; [exact Ik|].
  destruct (tier1Warnings_shape _ _ _ _ Im) as [[V E]|[G _]]; [auto|].
  destruct (In_keys_get schema k Ik) as (d & G'). congruence.
Qed.

Lemma reachable_values_cover_schema_witness :
  In (str "bad-key")
     (keys (applyEdits (initialValues badKey)
              [(str "bad-key", VNum (int 7))])).
Proof.
  refine (proj1 (proj2 (reachable_values_cover_schema badKey (str "variant")
                          [(str "bad-key", VNum (int 7))] _))
            (str "bad-key") _ _).
  - constructor; [left; reflexivity|constructor].
  - left. reflexivity.
  - discriminate.
Defined.

Lemma tier1_one_each (schema : Schema) (v : Values) (k : jsstring) :
  List.length (tier1Lines schema v k)
  + List.length (tier1Warnings schema v k) = 1.
Proof.
  unfold tier1Lines, tier1Warnings, tier1.
  destruct (isValidCIdentifier k); simpl; [|reflexivity].
  destruct (readSchema schema k); reflexivity.
Qed.

(** X10. Every key of the value mapping is accounted for exactly once, by a
    line or by a warning: compared with the header of the empty value
    mapping, lines and warnings together grow by the number of keys.  The
    second loop never warns: with an empty value mapping the console stays
    empty, whatever the schema. *)
Theorem every_key_is_accounted_for :
  forall (schema : Schema) (variantName : jsstring) (v : Values),
    List.length (lines (headerWorld schema variantName v))
    + List.length (console (headerWorld schema variantName v))
    = List.length (keys v)
      + List.length (lines (headerWorld schema variantName [])) /\
    console (headerWorld schema variantName []) = [].
Proof.
  intros schema variantName v.
  split; [|rewrite headerWorld_console; reflexivity].
  rewrite !headerWorld_lines, headerWorld_console.
  rewrite !length_app. simpl flat_map. simpl List.length.
  assert (H : forall ks,
             List.length (flat_map (tier1Lines schema v) ks)
             + List.length (flat_map (tier1Warnings schema v) ks)
             = List.length ks).
  { induction ks as [|k ks IH]; [reflexivity|].
    simpl. rewrite !length_app.
    pose proof (tier1_one_each schema v k). lia. }
  specialize (H (keys v)). lia.
Qed.

Lemma toString_specText (val : value) : toString val = specText val.
Proof. destruct val as [| |[|]|n|s]; reflexivity. Qed.

Lemma encode_specLiteral (ty : jsstring) (val : value) :
  encode ty val = specLiteral ty val.
Proof.
  unfold encode, specLiteral.
  destruct (jseqb ty (str "boolean")).
  - destruct val as [| |[|]|n|[|c s]]; try reflexivity.
    simpl. destruct (int_val n =? 0)%Z; reflexivity.
  - destruct (jseqb ty (str "string")).
    + rewrite escapeCString_flat_map, toString_specText. reflexivity.
    + apply toString_specText.
Qed.

Lemma defineLine_spec (ty k : jsstring) (val : value) :
  defineLine ty k val = str "#define " ++ k ++ str " " ++ specLiteral ty val.
Proof. unfold defineLine. rewrite encode_specLiteral. reflexivity. Qed.

(** X11. Before any edit the header says every default twice: for a schema
    key other than [__proto__] that is a valid identifier and has a default
    other than [null], the unconditional [#define] of the first part and
    the guarded [#define] of the second part are the same line.  A key
    [__proto__] has no entry in the initial mapping, so its default stands
    in the second part only. *)
Theorem initial_header_repeats_defaults :
  (forall (schema : Schema) (variantName : jsstring) (k : jsstring)
          (d : descriptor),
     get schema k = Some d ->
     k <> str "__proto__" ->
     isValidCIdentifier k = true ->
     default d <> VUndefined ->
     default d <> VNull ->
     exists a b c e,
       lines (headerWorld schema variantName (initialValues schema))
       = preamble variantName
         ++ (a ++ [str "#define " ++ k ++ str " "
                   ++ specLiteral (type d) (default d)] ++ b)
         ++ separator
         ++ (c ++ [str "#ifndef " ++ k;
                   str "#define " ++ k ++ str " "
                   ++ specLiteral (type d) (default d);
                   str "#endif"] ++ e)) /\
  (forall variantName,
     let schema :=
       [(str "__proto__", Descriptor (str "number") (VNum (int 5)) None)] in
     lines (headerWorld schema variantName (initialValues schema))
     = preamble variantName
       ++ separator
       ++ [str "#ifndef __proto__"; str "#define __proto__ 5";
           str "#endif"]).
Proof.
  split; [|intros variantName; reflexivity].
  intros schema variantName k d G P V D1 D2.
  pose proof (get_Some_In _ _ _ G) as I.
  assert (I' : In k (keys (initialValues schema))).
  { apply In_keys_initialValues. auto. }
  rewrite headerWorld_lines.
  destruct (In_flat_map_block (tier1Lines schema (initialValues schema))
              _ k I') as (a & b & ->).
  destruct (In_flat_map_block (tier2Lines schema) (keys schema) k I)
    as (c & e & ->).
  rewrite (tier1Lines_valid schema _ k d V G).
  rewrite (tier2Lines_declared schema k d V G D1).
  rewrite (getValue_initialValues schema k d G P).
  exists a, b, c, e. unfold guardedBlock. rewrite !defineLine_spec.
  destruct (default d); try congruence; reflexivity.
Qed.

Lemma initial_header_repeats_defaults_witness :
  exists a b c e,
    lines (headerWorld (numberA (VNum (int 0))) (str "variant")
             (initialValues (numberA (VNum (int 0)))))
    = preamble (str "variant")
      ++ (a ++ [str "#define A 0"] ++ b)
      ++ separator
      ++ (c ++ [str "#ifndef A"; str "#define A 0"; str "#endif"] ++ e).
Proof.
  apply (proj1 initial_header_repeats_defaults
           (numberA (VNum (int 0))) (str "variant")
           (str "A") (Descriptor (str "number") (VNum (int 0)) None));
    [reflexivity | discriminate | reflexivity | discriminate | discriminate].
Defined.

(* ================================================================== *)
(** ** File names *)

(** X12. The three exports of one variant name go to three different
    files, and no file name is a bare extension: each is the variant name,
    or [variant] when the name is empty, followed by its own ending. *)
Theorem export_filenames_differ :
  forall (json yaml : Values -> jsstring) (schema : Schema)
         (variantName : jsstring) (v : Values),
    let j := filename (exportJSON json variantName v) in
    let y := filename (exportYAML yaml variantName v) in
    let h := filename (exportCHeader schema variantName v) in
    j <> y /\ j <> h /\ y <> h /\
    nameOrDefault variantName <> [] /\
    j = nameOrDefault variantName ++ str ".json" /\
    y = nameOrDefault variantName ++ str ".yaml" /\
    h = nameOrDefault variantName ++ str "_final_cfg.h".
Proof.
  intros json yaml schema variantName v j y h. subst j y h. simpl.
  repeat split;
    try (intros H; apply app_inv_head in H; discriminate H).
  destruct variantName; discriminate.
Qed.

(* ================================================================== *)
(** ** Identifiers *)

Lemma wordChar_facts (c : ascii) :
  isWordChar c = true ->
  plainChar c = true /\ Ascii.eqb c "/" = false /\
  isLineTerminator c = false /\ Ascii.eqb c "#" = false /\
  Ascii.eqb c "&" = false /\ Ascii.eqb "#" c = false /\
  Ascii.eqb "&" c = false.
Proof.
  destruct c as [[] [] [] [] [] [] [] []]; vm_compute;
    intros H; try discriminate H; repeat split.
Qed.

Lemma identifier_head (c : ascii) :
  (isLetter c || Ascii.eqb c "_") = true <->
  isWordChar c = true /\ isDigit c = false.
Proof.
  destruct c as [[] [] [] [] [] [] [] []]; vm_compute;
    split; try tauto; try discriminate; intros [H1 H2]; congruence.
Qed.

(** X13. A name is a valid C identifier exactly when it is not empty, all
    its code units are letters, digits or underscores, and it does not
    start with a digit. *)
Theorem isValidCIdentifier_iff :
  forall name : jsstring,
    isValidCIdentifier name = true <->
    name <> [] /\ forallb isWordChar name = true /\
    (forall c rest, name = c :: rest -> isDigit c = false).
Proof.
  intros [|c rest]; simpl.
  - split; [discriminate|]. intros [H _]. congruence.
  - rewrite !andb_true_iff, identifier_head. split.
    + intros [[W D] R]. split; [discriminate|]. split; [auto|].
      intros c' r' E. inversion E; subst. exact D.
    + intros (_ & [W R] & D). split; [|exact R].
      split; [exact W|]. exact (D c rest eq_refl).
Qed.

Section Copy.

Variable rx : matcher.
Variable template : jsstring -> jsstring.
Hypothesis rx_sound : sound rx.

Variable skip : ascii -> bool.
Hypothesis rx_skip :
  forall prev c s, skip c = true -> rx prev (c :: s) = None.

Lemma replaceAt_copy_chars (w : jsstring) :
  forallb skip w = true ->
  forall prev b,
    replaceAt rx template prev (w ++ b)
    = w ++ replaceAt rx template (lastOf prev w) b.
Proof.
  induction w as [|c w IH]; intros F prev b; [reflexivity|].
  simpl in F. apply andb_true_iff in F as [Fc F].
  simpl app. rewrite (replaceAt_copy rx template rx_sound)
    by (apply rx_skip; exact Fc).
  rewrite (IH F), lastOf_cons. reflexivity.
Qed.

Lemma replaceAt_copy_all (w : jsstring) :
  forallb skip w = true ->
  forall prev, replaceAt rx template prev w = w.
Proof.
  intros F prev. rewrite <- (app_nil_r w) at 1.
  rewrite (replaceAt_copy_chars w F). apply app_nil_r.
Qed.

End Copy.

Lemma commentRx_skip (prev : option ascii) (c : ascii) (s : jsstring) :
  negb (Ascii.eqb c "/") = true -> commentRx prev (c :: s) = None.
Proof.
  intros N. apply negb_true_iff in N.
  destruct (commentRx prev (c :: s)) as [[[m g1] rest]|] eqn:E;
    [|reflexivity].
  apply commentRx_Some in E as (s' & E & _). inversion E; subst c.
  discriminate N.
Qed.

Lemma keywordRx_skip (prev : option ascii) (c : ascii) (s : jsstring) :
  negb (Ascii.eqb c "#") = true -> keywordRx prev (c :: s) = None.
Proof.
  intros N. apply negb_true_iff in N.
  destruct (keywordRx prev (c :: s)) as [[[m g1] rest]|] eqn:E;
    [|reflexivity].
  apply keywordRx_Some in E as (I & _ & S). simpl in I.
  destruct I as [<-|[<-|[<-|[<-|[]]]]]; inversion S; subst c;
    discriminate N.
Qed.

Lemma stringRx_skip (prev : option ascii) (c : ascii) (s : jsstring) :
  negb (Ascii.eqb c "&") = true -> stringRx prev (c :: s) = None.
Proof.
  intros N. apply negb_true_iff in N.
  destruct (stringRx prev (c :: s)) as [[[m g1] rest]|] eqn:E;
    [|reflexivity].
  apply stringRx_Some in E as (-> & S & _). inversion S; subst c.
  discriminate N.
Qed.

Lemma numberRx_skip (prev : option ascii) (c : ascii) (s : jsstring) :
  negb (isDigit c) = true -> numberRx prev (c :: s) = None.
Proof.
  intros N. apply negb_true_iff in N. apply numberRx_nondigit. exact N.
Qed.

(** Inside a word the number expression finds no boundary. *)
Lemma number_copies_word (w : jsstring) :
  forallb isWordChar w = true ->
  forall p b,
    isWordChar p = true ->
    replaceAt numberRx numberTemplate (Some p) (w ++ b)
    = w ++ replaceAt numberRx numberTemplate (lastOf (Some p) w) b.
Proof.
  induction w as [|c w IH]; intros F p b P; [reflexivity|].
  simpl in F. apply andb_true_iff in F as [Fc F].
  simpl app. rewrite (replaceAt_copy numberRx _ numberRx_sound)
    by (apply numberRx_after_word; exact P).
  rewrite (IH F c b Fc), lastOf_cons. reflexivity.
Qed.

Lemma number_copies_identifier (k : jsstring) :
  isValidCIdentifier k = true ->
  forall prev b,
    replaceAt numberRx numberTemplate prev (k ++ b)
    = k ++ replaceAt numberRx numberTemplate (lastOf prev k) b.
Proof.
  intros V prev b. destruct k as [|c k]; [discriminate V|].
  simpl in V. apply andb_true_iff in V as [H R].
  apply identifier_head in H as [W D].
  simpl app. rewrite (replaceAt_copy numberRx _ numberRx_sound)
    by (apply numberRx_nondigit; exact D).
  rewrite (number_copies_word k R c b W), lastOf_cons. reflexivity.
Qed.

Lemma forallb_weaken (f g : ascii -> bool) (s : jsstring) :
  (forall c, f c = true -> g c = true) ->
  forallb f s = true -> forallb g s = true.
Proof.
  intros H F. rewrite forallb_forall in *. auto.
Qed.

Lemma identifier_word (k : jsstring) :
  isValidCIdentifier k = true -> forallb isWordChar k = true.
Proof.
  destruct k as [|c k]; [discriminate|]. simpl.
  rewrite !andb_true_iff, identifier_head. tauto.
Qed.

(** X14. A valid C identifier goes through [escapeHtml] and through the
    whole highlighter unchanged: no entity and no span is written into a
    macro name, digits in the name included. *)
Theorem identifier_is_not_highlighted :
  forall k : jsstring,
    isValidCIdentifier k = true ->
    escapeHtml k = k /\ highlight k = k.
Proof.
  intros k V. pose proof (identifier_word k V) as W.
  assert (E : escapeHtml k = k).
  { apply escapeHtml_plain.
    apply (forallb_weaken isWordChar); [|exact W].
    intros c H. apply wordChar_facts in H. tauto. }
  split; [exact E|]. unfold highlight. rewrite E.
  rewrite commentPass_eq.
  rewrite (replaceAt_copy_all commentRx _ commentRx_sound
             (fun c => negb (Ascii.eqb c "/")) commentRx_skip k).
  2:{ apply (forallb_weaken isWordChar); [|exact W].
      intros c H. apply wordChar_facts in H.
      apply negb_true_iff. tauto. }
  rewrite keywordPass_eq.
  rewrite (replaceAt_copy_all keywordRx _ keywordRx_sound
             (fun c => negb (Ascii.eqb c "#")) keywordRx_skip k).
  2:{ apply (forallb_weaken isWordChar); [|exact W].
      intros c H. apply wordChar_facts in H.
      apply negb_true_iff. tauto. }
  rewrite stringPass_eq.
  rewrite (replaceAt_copy_all stringRx _ stringRx_sound
             (fun c => negb (Ascii.eqb c "&")) stringRx_skip k).
  2:{ apply (forallb_weaken isWordChar); [|exact W].
      intros c H. apply wordChar_facts in H.
      apply negb_true_iff. tauto. }
  rewrite numberPass_eq. rewrite <- (app_nil_r k) at 1.
  rewrite (number_copies_identifier k V). apply app_nil_r.
Qed.

Lemma identifier_is_not_highlighted_witness :
  highlight (str "UART0_BAUD") = str "UART0_BAUD".
Proof.
  apply (identifier_is_not_highlighted (str "UART0_BAUD")). reflexivity.
Defined.

(* ================================================================== *)
(** ** A numeric define line, highlighted *)

Lemma uint_digits (u : Decimal.uint) :
  forallb isDigit (str (NilEmpty.string_of_uint u)) = true.
Proof. induction u; simpl; auto. Qed.

Lemma toString_natural (n : safeInt) :
  (0 <= int_val n)%Z ->
  forallb isDigit (toString (VNum n)) = true /\ toString (VNum n) <> [].
Proof.
  intros H. unfold toString. destruct n as [n S]. simpl in *. clear S.
  destruct n as [|p|p]; [split; [reflexivity|discriminate]| |lia].
  simpl Z.to_int. cbn [NilZero.string_of_int].
  destruct (Pos.to_uint p) eqn:E;
    try (split; [exact (uint_digits _)|discriminate]).
  split; [reflexivity|discriminate].
Qed.

Lemma span_whole (f : ascii -> bool) (s : jsstring) :
  forallb f s = true -> span f s = (s, []).
Proof.
  induction s as [|c s IH]; simpl; [reflexivity|].
  intros H. apply andb_true_iff in H as [Hc Hs].
  rewrite Hc, (IH Hs). reflexivity.
Qed.

Lemma numberRx_whole (p : ascii) (ds : jsstring) :
  isWordChar p = false -> forallb isDigit ds = true -> ds <> [] ->
  numberRx (Some p) ds = Some (ds, ds, []).
Proof.
  intros P D N. unfold numberRx. rewrite P, (span_whole _ _ D).
  destruct ds; [congruence|reflexivity].
Qed.

Lemma digit_word (c : ascii) : isDigit c = true -> isWordChar c = true.
Proof.
  intros H. unfold isWordChar. rewrite H. rewrite orb_true_r. reflexivity.
Qed.

(** X15. The line of a numeric key, highlighted: for a valid identifier [k]
    and a natural number [n] (an integer that JavaScript prints in
    decimal), the preview of [#define k n] is the keyword in a keyword
    span, the bare name, and the digits of the number in a number span;
    nothing else is added. *)
Theorem numeric_define_highlighted :
  forall (k : jsstring) (n : safeInt),
    isValidCIdentifier k = true ->
    (0 <= int_val n)%Z ->
    forallb isDigit (toString (VNum n)) = true /\
    toString (VNum n) <> [] /\
    highlight (str "#define " ++ k ++ str " " ++ toString (VNum n))
    = spanOpen "keyword" ++ str "#define" ++ spanClose
      ++ str " " ++ k ++ str " "
      ++ spanOpen "number" ++ toString (VNum n) ++ spanClose /\
    highlight (defineLine (str "number") k (VNum n))
    = spanOpen "keyword" ++ str "#define" ++ spanClose
      ++ str " " ++ k ++ str " "
      ++ spanOpen "number" ++ toString (VNum n) ++ spanClose.
Proof.
  intros k n V Hn.
  destruct (toString_natural n Hn) as [D N].
  split; [exact D|]. split; [exact N|].
  pose proof (identifier_word k V) as W.
  change (defineLine (str "number") k (VNum n))
    with (str "#define " ++ k ++ str " " ++ toString (VNum n)).
  match goal with |- ?A /\ _ => assert (G : A); [|split; exact G] end.
  change (str "#define " ++ k ++ str " " ++ toString (VNum n))
    with (str "#define" ++ str " " ++ k ++ str " " ++ toString (VNum n)).
  set (ds := toString (VNum n)) in *.
  set (rest := str " " ++ k ++ str " " ++ ds).
  assert (Wp : forall f : ascii -> bool,
             (forall c, isWordChar c = true -> f c = true) ->
             f " " = true -> forallb f rest = true).
  { intros f Hf Hs. unfold rest. rewrite !forallb_app. simpl forallb.
    rewrite Hs, (forallb_weaken _ f k Hf W).
    rewrite (forallb_weaken isDigit f ds
               (fun c H => Hf c (digit_word c H)) D).
    reflexivity. }
  assert (E : escapeHtml (str "#define" ++ rest) = str "#define" ++ rest).
  { apply escapeHtml_plain. rewrite forallb_app.
    rewrite (Wp plainChar); [reflexivity| |reflexivity].
    intros c H. apply wordChar_facts in H. tauto. }
  unfold highlight. rewrite E.
  (* comments *)
  rewrite commentPass_eq.
  rewrite (replaceAt_copy_all commentRx _ commentRx_sound
             (fun c => negb (Ascii.eqb c "/")) commentRx_skip).
  2:{ rewrite forallb_app. rewrite Wp; [reflexivity| |reflexivity].
      intros c H. apply wordChar_facts in H. apply negb_true_iff. tauto. }
  (* keywords *)
  rewrite keywordPass_eq.
  rewrite (replaceAt_match keywordRx _ keywordRx_sound None _
             (str "#define") (str "#define") rest)
    by (apply keyword_at_word; simpl; auto).
  rewrite (replaceAt_copy_all keywordRx _ keywordRx_sound
             (fun c => negb (Ascii.eqb c "#")) keywordRx_skip).
  2:{ apply Wp; [|reflexivity].
      intros c H. apply wordChar_facts in H. apply negb_true_iff. tauto. }
  (* strings *)
  rewrite stringPass_eq.
  rewrite (replaceAt_copy_all stringRx _ stringRx_sound
             (fun c => negb (Ascii.eqb c "&")) stringRx_skip).
  2:{ rewrite forallb_app. rewrite Wp; [reflexivity| |reflexivity].
      intros c H. apply wordChar_facts in H. apply negb_true_iff. tauto. }
  (* numbers *)
  rewrite numberPass_eq. unfold rest.
  change (keywordTemplate (str "#define") ++ str " " ++ k ++ str " " ++ ds)
    with ((keywordTemplate (str "#define") ++ str " ")
          ++ k ++ str " " ++ ds).
  rewrite (replaceAt_copy_chars numberRx _ numberRx_sound
             (fun c => negb (isDigit c)) numberRx_skip
             (keywordTemplate (str "#define") ++ str " ") eq_refl).
  rewrite (number_copies_identifier k V).
  change (str " " ++ ds) with (" " :: ds).
  rewrite (replaceAt_copy numberRx _ numberRx_sound)
    by (apply numberRx_nondigit; reflexivity).
  rewrite (replaceAt_match numberRx _ numberRx_sound (Some " ") ds ds ds [])
    by (apply numberRx_whole; [reflexivity | exact D | exact N]).
  unfold keywordTemplate, numberTemplate.
  rewrite <- !app_assoc. simpl. rewrite ?app_nil_r. reflexivity.
Qed.

Lemma numeric_define_highlighted_witness :
  highlight (str "#define BAUD 115200")
  = spanOpen "keyword" ++ str "#define" ++ spanClose ++ str " BAUD "
    ++ spanOpen "number" ++ str "115200" ++ spanClose.
Proof.
  apply (proj1 (proj2 (proj2 (numeric_define_highlighted
                                (str "BAUD") (int 115200) eq_refl
                                ltac:(simpl; lia))))).
Defined.


(* ================================================================== *)
(** ** Every span that is opened is closed *)

Lemma spanBalance_app (x y : jsstring) :
  endsLt x = false ->
  spanBalance (x ++ y) = (spanBalance x + spanBalance y)%Z.
Proof.
  induction x as [|c x IH]; intros E; [reflexivity|].
  destruct x as [|c2 x].
  - simpl in E. simpl. rewrite E. lia.
  - specialize (IH E). cbn [app spanBalance startsSlash] in *.
    rewrite IH. lia.
Qed.

Lemma endsLt_app (x y : jsstring) :
  y <> [] -> endsLt (x ++ y) = endsLt y.
Proof.
  intros N. induction x as [|c x IH]; [reflexivity|].
  simpl app. cbn [endsLt]. rewrite IH.
  destruct (x ++ y) eqn:E; [|reflexivity].
  apply app_eq_nil in E. tauto.
Qed.

Lemma startsSlash_app (x y : jsstring) :
  x <> [] -> startsSlash (x ++ y) = startsSlash x.
Proof. destruct x; [congruence|reflexivity]. Qed.

Lemma openTag_facts (o : jsstring) :
  In o openTags ->
  spanBalance o = 1%Z /\ endsLt o = false /\
  (forall y, startsSlash (o ++ y) = false).
Proof.
  simpl. intros [<-|[<-|[<-|[<-|[]]]]]; repeat split.
Qed.

Lemma text_balance (x : jsstring) :
  forallb (fun c => negb (Ascii.eqb c "<")) x = true ->
  spanBalance x = 0%Z /\ endsLt x = false.
Proof.
  induction x as [|c x IH]; [auto|].
  simpl forallb. intros H. apply andb_true_iff in H as [Hc Hx].
  apply negb_true_iff in Hc. destruct (IH Hx) as [B E].
  cbn [spanBalance endsLt]. rewrite Hc, B.
  split; [reflexivity|]. destruct x; [reflexivity|exact E].
Qed.

Lemma wrapped_balance (o m r : jsstring) :
  In o openTags -> endsLt m = false ->
  spanBalance ((o ++ m ++ spanClose) ++ r)
  = (spanBalance m + spanBalance r)%Z.
Proof.
  intros O E. destruct (openTag_facts o O) as (B & L & _).
  rewrite spanBalance_app.
  2:{ rewrite app_assoc. rewrite endsLt_app; [reflexivity|discriminate]. }
  rewrite (spanBalance_app o) by exact L.
  rewrite (spanBalance_app m) by exact E.
  rewrite B. change (spanBalance spanClose) with (-1)%Z. lia.
Qed.

Section Balance.

Variable rx : matcher.
Variable template : jsstring -> jsstring.
Hypothesis rx_sound : sound rx.
Hypothesis rx_span :
  forall prev s m g1 rest,
    rx prev s = Some (m, g1, rest) ->
    exists o, In o openTags /\ template g1 = o ++ m ++ spanClose.

(** On text without [<]. *)
Lemma replaceAt_balance_text (n : nat) :
  forall (prev : option ascii) (s : jsstring),
    List.length s <= n ->
    forallb (fun c => negb (Ascii.eqb c "<")) s = true ->
    spanBalance (replaceAt rx template prev s) = 0%Z.
Proof.
  induction n as [|n IH]; intros prev s L F.
  - destruct s; [reflexivity|simpl in L; lia].
  - destruct s as [|c s]; [reflexivity|].
    rewrite (replaceAt_cons rx template rx_sound).
    destruct (rx prev (c :: s)) as [[[m g1] rest]|] eqn:E.
    + destruct (rx_span _ _ _ _ _ E) as (o & O & ->).
      pose proof (match_shorter rx rx_sound _ _ _ _ _ E) as Sh.
      destruct (rx_sound _ _ _ _ _ E) as [S _].
      rewrite S, forallb_app in F. apply andb_true_iff in F as [Fm Fr].
      destruct (text_balance m Fm) as [Bm Em].
      rewrite (wrapped_balance o m _ O Em), Bm.
      rewrite IH; [reflexivity | simpl in L, Sh; lia | exact Fr].
    + simpl in F. apply andb_true_iff in F as [Fc F].
      apply negb_true_iff in Fc.
      cbn [spanBalance]. rewrite Fc.
      rewrite IH; [reflexivity | simpl in L; lia | exact F].
Qed.

Hypothesis rx_ends :
  forall prev s m g1 rest,
    rx prev s = Some (m, g1, rest) ->
    endsLt m = false /\ startsSlash m = false.

Lemma replaceAt_startsSlash (prev : option ascii) (u : jsstring) :
  startsSlash (replaceAt rx template prev u) = startsSlash u.
Proof.
  destruct u as [|c u]; [reflexivity|].
  rewrite (replaceAt_cons rx template rx_sound).
  destruct (rx prev (c :: u)) as [[[m g1] rest]|] eqn:E; [|reflexivity].
  destruct (rx_span _ _ _ _ _ E) as (o & O & ->).
  destruct (rx_sound _ _ _ _ _ E) as [S N].
  destruct (rx_ends _ _ _ _ _ E) as [_ Sm].
  rewrite S, (startsSlash_app m rest N), Sm.
  rewrite <- app_assoc. apply (openTag_facts o O).
Qed.

Lemma replaceAt_balance (n : nat) :
  forall (prev : option ascii) (u : jsstring),
    List.length u <= n ->
    spanBalance (replaceAt rx template prev u) = spanBalance u.
Proof.
  induction n as [|n IH]; intros prev u L.
  - destruct u; [reflexivity|simpl in L; lia].
  - destruct u as [|c u]; [reflexivity|].
    rewrite (replaceAt_cons rx template rx_sound).
    destruct (rx prev (c :: u)) as [[[m g1] rest]|] eqn:E.
    + destruct (rx_span _ _ _ _ _ E) as (o & O & ->).
      pose proof (match_shorter rx rx_sound _ _ _ _ _ E) as Sh.
      destruct (rx_sound _ _ _ _ _ E) as [S _].
      destruct (rx_ends _ _ _ _ _ E) as [Em _].
      rewrite (wrapped_balance o m _ O Em).
      rewrite IH by (simpl in L, Sh; lia).
      rewrite S, (spanBalance_app m rest Em). reflexivity.
    + cbn [spanBalance]. rewrite replaceAt_startsSlash.
      rewrite IH by (simpl in L; lia). reflexivity.
Qed.

End Balance.

Lemma endsLt_last (m : jsstring) (c : ascii) :
  Ascii.eqb c "<" = false -> endsLt (m ++ [c]) = false.
Proof.
  intros H. rewrite endsLt_app by discriminate. exact H.
Qed.

(** X16. Every span the highlighter opens it also closes: in the
    highlighted text of any input the opening tags and the closing tags
    are equal in number. *)
Theorem highlight_spans_balanced :
  forall s : jsstring, spanBalance (highlight s) = 0%Z.
Proof.
  intros s. unfold highlight.
  rewrite numberPass_eq, (replaceAt_balance numberRx _ numberRx_sound) with
    (n := List.length (stringPass (keywordPass (commentPass (escapeHtml s)))));
    [| | |lia].
  - rewrite stringPass_eq,
      (replaceAt_balance stringRx _ stringRx_sound) with
      (n := List.length (keywordPass (commentPass (escapeHtml s))));
      [| | |lia].
    + rewrite keywordPass_eq,
        (replaceAt_balance keywordRx _ keywordRx_sound) with
        (n := List.length (commentPass (escapeHtml s))); [| | |lia].
      * rewrite commentPass_eq.
        apply (replaceAt_balance_text commentRx _ commentRx_sound)
          with (n := List.length (escapeHtml s)); [|lia|].
        -- intros prev u m g1 rest E.
           apply commentRx_Some in E as (_ & _ & _ & -> & _).
           exists (spanOpen "comment"). split; [left|]; reflexivity.
        -- apply special_lt, escaped_no_special, escapeHtml_escaped.
      * intros prev u m g1 rest E.
        apply keywordRx_Some in E as (_ & -> & _).
        exists (spanOpen "keyword").
        split; [right; left|]; reflexivity.
      * intros prev u m g1 rest E.
        apply keywordRx_Some in E as (I & _ & _). simpl in I.
        destruct I as [<-|[<-|[<-|[<-|[]]]]]; split; reflexivity.
    + intros prev u m g1 rest E.
      apply stringRx_Some in E as (-> & _ & _).
      exists (spanOpen "string").
      split; [right; right; left; reflexivity|].
      unfold stringTemplate. rewrite <- !app_assoc. reflexivity.
    + intros prev u m g1 rest E.
      apply stringRx_Some in E as (-> & _ & _). split; [|reflexivity].
      change (str "&quot;" ++ g1 ++ str "&quot;")
        with (str "&quot;" ++ g1 ++ str "&quot" ++ [";"]).
      rewrite !app_assoc. apply endsLt_last. reflexivity.
  - intros prev u m g1 rest E.
    apply numberRx_Some in E as (_ & _ & -> & _).
    exists (spanOpen "number").
    split; [right; right; right; left|]; reflexivity.
  - intros prev u m g1 rest E.
    apply numberRx_Some in E as (_ & N & _ & D & _).
    split.
    + apply text_balance. apply (forallb_weaken isDigit); [|exact D].
      intros c H. destruct (Ascii.eqb_spec c "<") as [->|];
        [discriminate H|reflexivity].
    + destruct m as [|d m]; [congruence|].
      simpl in D. apply andb_true_iff in D as [D _]. simpl.
      destruct (Ascii.eqb_spec d "/") as [->|];
        [discriminate D|reflexivity].
Qed.

(* ================================================================== *)
(** ** The text of the header and its lines *)

Lemma join_flat_map (sep : jsstring) (ls : list jsstring) :
  ls <> [] -> join sep ls ++ sep = flat_map (fun l => l ++ sep) ls.
Proof.
  induction ls as [|x ls IH]; [congruence|]. intros _.
  destruct ls as [|y ls].
  - simpl. rewrite app_nil_r. reflexivity.
  - rewrite join_cons2. cbn [flat_map]. cbn [flat_map] in IH.
    rewrite <- IH by discriminate.
    rewrite <- !app_assoc. reflexivity.
Qed.

Lemma join_app (sep : jsstring) (a b : list jsstring) :
  a <> [] -> b <> [] ->
  join sep (a ++ b) = join sep a ++ sep ++ join sep b.
Proof.
  intros Na Nb. induction a as [|x a IH]; [congruence|].
  destruct a as [|x' a].
  - destruct b as [|y b]; [congruence|]. apply join_cons2.
  - change ((x :: x' :: a) ++ b) with (x :: x' :: (a ++ b)).
    rewrite !join_cons2.
    change (x' :: a ++ b) with ((x' :: a) ++ b).
    rewrite IH by discriminate. rewrite <- !app_assoc. reflexivity.
Qed.

Lemma join_block (a e : list jsstring) (l1 l2 l3 : jsstring) :
  a <> [] ->
  exists x y,
    join [LF] (a ++ [l1; l2; l3] ++ e)
    = x ++ [LF] ++ l1 ++ [LF] ++ l2 ++ [LF] ++ l3 ++ y /\
    (y = [] \/ exists y', y = LF :: y').
Proof.
  intros Na. exists (join [LF] a).
  rewrite join_app by (try exact Na; discriminate).
  destruct e as [|z e].
  - exists []. split; [|left; reflexivity].
    cbn [app]. rewrite !join_cons2. cbn [join]. rewrite app_nil_r.
    reflexivity.
  - exists (LF :: join [LF] (z :: e)). split; [|right; eauto].
    rewrite (join_app [LF] [l1; l2; l3] (z :: e)) by discriminate.
    rewrite !join_cons2. cbn [join]. rewrite <- !app_assoc. reflexivity.
Qed.

Lemma splitOn_line (l s : jsstring) :
  noLF l = true -> splitOn LF (l ++ LF :: s) = l :: splitOn LF s.
Proof.
  induction l as [|c l IH]; intros H.
  - reflexivity.
  - simpl in H. apply andb_true_iff in H as [Hc Hl].
    apply negb_true_iff in Hc.
    cbn [app splitOn]. rewrite Hc, (IH Hl). reflexivity.
Qed.

Lemma splitOn_last (l : jsstring) : noLF l = true -> splitOn LF l = [l].
Proof.
  induction l as [|c l IH]; intros H.
  - reflexivity.
  - simpl in H. apply andb_true_iff in H as [Hc Hl].
    apply negb_true_iff in Hc.
    cbn [splitOn]. rewrite Hc, (IH Hl). reflexivity.
Qed.

Lemma splitOn_join (ls : list jsstring) :
  ls <> [] -> forallb noLF ls = true -> splitOn LF (join [LF] ls) = ls.
Proof.
  induction ls as [|x ls IH]; [congruence|]. intros _ H.
  simpl in H. apply andb_true_iff in H as [Hx Hl].
  destruct ls as [|y ls].
  - apply splitOn_last, Hx.
  - rewrite join_cons2.
    change (x ++ [LF] ++ join [LF] (y :: ls))
      with (x ++ LF :: join [LF] (y :: ls)).
    rewrite (splitOn_line _ _ Hx), IH; [reflexivity|discriminate|exact Hl].
Qed.

Lemma noLF_app (a b : jsstring) : noLF (a ++ b) = noLF a && noLF b.
Proof. apply forallb_app. Qed.

Lemma escapeHtml_noLF (s : jsstring) :
  noLF s = true -> noLF (escapeHtml s) = true.
Proof.
  rewrite escapeHtml_flat_map.
  induction s as [|c s IH]; [reflexivity|]. intros H.
  simpl in H. apply andb_true_iff in H as [Hc Hs].
  cbn [flat_map]. rewrite noLF_app, (IH Hs), andb_true_r.
  unfold escapeChar.
  repeat match goal with
         | |- context [if ?b then _ else _] => destruct b; [reflexivity|]
         end.
  simpl. rewrite Hc. reflexivity.
Qed.

Lemma nameOrDefault_noLF (variantName : jsstring) :
  noLF variantName = true -> noLF (nameOrDefault variantName) = true.
Proof. destruct variantName; [reflexivity|auto]. Qed.

Lemma headerWorld_blocks (schema : Schema) :
  forall ks : list jsstring,
    (forall k, In k ks -> In k (keys schema)) ->
    exists blocks,
      flat_map (tier2Lines schema) ks = List.concat blocks /\
      forall b, In b blocks ->
        exists k d,
          In k (keys schema) /\ get schema k = Some d /\
          isValidCIdentifier k = true /\ default d <> VUndefined /\
          b = [str "#ifndef " ++ k;
               str "#define " ++ k ++ str " "
               ++ specLiteral (type d) (default d);
               str "#endif"].
Proof.
  induction ks as [|k ks IH]; intros H.
  - exists []. split; [reflexivity|]. intros b [].
  - destruct IH as (blocks & E & B); [intros; apply H; right; assumption|].
    destruct (tier2Lines_shape schema k (H k (or_introl eq_refl)))
      as [T|(d & G & V & D & T)].
    + exists blocks. cbn [flat_map]. rewrite T. auto.
    + exists (guardedBlock (type d) k (default d) :: blocks).
      cbn [flat_map List.concat]. rewrite T, E. split; [reflexivity|].
      intros b [<-|I]; [|auto].
      exists k, d. unfold guardedBlock. rewrite defineLine_spec.
      repeat split; auto. apply (get_Some_In _ _ _ G).
Qed.

(** C4 (the refutation). An entry with a line feed spreads over several
    lines of the text, and what follows the line feed is a line of its own.
    With the schema and the value mapping of the spec's example and a
    variant name of two lines, the line [#ifndef A] stands before
    [#define A 2].  The same happens through a string default of the
    schema: its lines come with the first part, before the define of a
    later key. *)
Theorem ifndef_line_before_define :
  splitOn LF
    (rawHeader (numberA (VNum (int 1)))
       (str "v" ++ [LF] ++ str "#ifndef A") [(str "A", VNum (int 2))])
  = [ str "#pragma once";
      str "// Auto-generated header from Config Editor";
      str "// Variant: v";
      str "#ifndef A";
      [];
      str "// Variant-specific defines (highest priority)";
      str "#define A 2";
      [];
      str "// Common defaults (only applied if not defined by variant)";
      str "#ifndef A";
      str "#define A 1";
      str "#endif" ] /\
  (let schema :=
     [ (str "X",
        Descriptor (str "string")
          (VStr ([LF] ++ str "#ifndef A" ++ [LF] ++ str "#define A 9"
                 ++ [LF] ++ str "#endif" ++ [LF])) None);
       (str "A", Descriptor (str "number") (VNum (int 1)) None) ] in
   splitOn LF
     (rawHeader schema (str "variant")
        (update (initialValues schema) (str "A") (VNum (int 2))))
   = [ str "#pragma once";
       str "// Auto-generated header from Config Editor";
       str "// Variant: variant";
       [];
       str "// Variant-specific defines (highest priority)";
       str "#define X " ++ [dquote];
       str "#ifndef A";
       str "#define A 9";
       str "#endif";
       [dquote];
       str "#define A 2";
       [];
       str "// Common defaults (only applied if not defined by variant)";
       str "#ifndef X";
       str "#define X " ++ [dquote];
       str "#ifndef A";
       str "#define A 9";
       str "#endif";
       [dquote];
       str "#endif";
       str "#ifndef A";
       str "#define A 1";
       str "#endif" ]).
Proof. split; reflexivity. Qed.

(** C4 (amended). The entries of the first loop all stand before the
    entries of the second loop, and the text is the entries, each followed
    by a line feed but the last.  After the five opening entries come the
    unconditional defines, one for each accepted key of the value mapping
    and none of them an [#ifndef]; then the two separator entries; then the
    guarded blocks, one for each schema key that is a valid identifier with
    a declared default, carrying that default.  When no entry holds a line
    feed, the lines of the text are exactly the entries, so that every
    unconditional define is a line before every [#ifndef] line.  For the
    schema [{A: number, default 1}] and the value mapping [{A: 2}] the text
    is given in full. *)
Theorem tier1_precedes_tier2 :
  (forall (schema : Schema) (variantName : jsstring) (v : Values),
     exists (tier1s : list jsstring) (blocks : list (list jsstring)),
       lines (headerWorld schema variantName v)
       = [ str "#pragma once";
           str "// Auto-generated header from Config Editor";
           str "// Variant: " ++ escapeHtml (nameOrDefault variantName);
           [];
           str "// Variant-specific defines (highest priority)" ]
         ++ tier1s
         ++ [ [];
              str "// Common defaults (only applied if not defined by variant)" ]
         ++ List.concat blocks /\
       rawHeader schema variantName v ++ [LF]
       = flat_map (fun l => l ++ [LF])
           ([ str "#pragma once";
              str "// Auto-generated header from Config Editor";
              str "// Variant: " ++ escapeHtml (nameOrDefault variantName);
              [];
              str "// Variant-specific defines (highest priority)" ]
            ++ tier1s)
         ++ flat_map (fun l => l ++ [LF])
              ([ [];
                 str "// Common defaults (only applied if not defined by variant)" ]
               ++ List.concat blocks) /\
       (forall l, In l tier1s ->
          stripPrefix (str "#ifndef") l = None /\
          exists k,
            In k (keys v) /\ isValidCIdentifier k = true /\
            ((exists d, get schema k = Some d /\
                        l = str "#define " ++ k ++ str " "
                            ++ specLiteral (type d) (getValue v k)) \/
             (get schema k = None /\ inherited k = true /\
              l = str "#define " ++ k ++ str " "
                  ++ specText (getValue v k)))) /\
       (forall b, In b blocks ->
          exists k d,
            In k (keys schema) /\ get schema k = Some d /\
            isValidCIdentifier k = true /\ default d <> VUndefined /\
            b = [str "#ifndef " ++ k;
                 str "#define " ++ k ++ str " "
                 ++ specLiteral (type d) (default d);
                 str "#endif"]) /\
       (forallb noLF (lines (headerWorld schema variantName v)) = true ->
        splitOn LF (rawHeader schema variantName v)
        = [ str "#pragma once";
            str "// Auto-generated header from Config Editor";
            str "// Variant: " ++ escapeHtml (nameOrDefault variantName);
            [];
            str "// Variant-specific defines (highest priority)" ]
          ++ tier1s
          ++ [ [];
               str "// Common defaults (only applied if not defined by variant)" ]
          ++ List.concat blocks)) /\
  (forall variantName : jsstring,
     rawHeader (numberA (VNum (int 1))) variantName [(str "A", VNum (int 2))]
     = str "#pragma once" ++ [LF]
       ++ str "// Auto-generated header from Config Editor" ++ [LF]
       ++ str "// Variant: " ++ escapeHtml (nameOrDefault variantName) ++ [LF]
       ++ [LF]
       ++ str "// Variant-specific defines (highest priority)" ++ [LF]
       ++ str "#define A 2" ++ [LF]
       ++ [LF]
       ++ str "// Common defaults (only applied if not defined by variant)"
       ++ [LF]
       ++ str "#ifndef A" ++ [LF]
       ++ str "#define A 1" ++ [LF]
       ++ str "#endif" /\
     (noLF variantName = true ->
      splitOn LF
        (rawHeader (numberA (VNum (int 1))) variantName
           [(str "A", VNum (int 2))])
      = [ str "#pragma once";
          str "// Auto-generated header from Config Editor";
          str "// Variant: " ++ escapeHtml (nameOrDefault variantName);
          [];
          str "// Variant-specific defines (highest priority)";
          str "#define A 2";
          [];
          str "// Common defaults (only applied if not defined by variant)";
          str "#ifndef A";
          str "#define A 1";
          str "#endif" ])).
Proof.
  assert (S : forall schema variantName v,
             forallb noLF (lines (headerWorld schema variantName v)) = true ->
             splitOn LF (rawHeader schema variantName v)
             = lines (headerWorld schema variantName v)).
  { intros schema variantName v H. unfold rawHeader.
    apply splitOn_join; [|exact H].
    rewrite headerWorld_lines. discriminate. }
  split.
  - intros schema variantName v.
    destruct (headerWorld_blocks schema (keys schema) (fun k I => I))
      as (blocks & E & B).
    exists (flat_map (tier1Lines schema v) (keys v)), blocks.
    assert (L : lines (headerWorld schema variantName v)
                = preamble variantName
                  ++ flat_map (tier1Lines schema v) (keys v)
                  ++ separator ++ List.concat blocks).
    { rewrite headerWorld_lines, E. reflexivity. }
    refine (conj L (conj _ (conj _ (conj B _)))).
    3:{ intros H. rewrite (S schema variantName v H). exact L. }
    + unfold rawHeader. rewrite L.
      rewrite join_flat_map by discriminate.
      rewrite <- flat_map_app. f_equal.
    + intros l H. apply in_flat_map in H as (k & Hk & Hl).
      apply tier1Lines_shape in Hl as (V & [(d & G & ->)|(G & I & ->)]).
      * split; [reflexivity|]. exists k. split; [exact Hk|].
        split; [exact V|]. left. exists d. split; [exact G|].
        apply defineLine_spec.
      * split; [reflexivity|]. exists k. split; [exact Hk|].
        split; [exact V|]. right.
        split; [exact G|]. split; [exact I|].
        rewrite (toString_specText (getValue v k)). reflexivity.
  - intros variantName. split; [reflexivity|].
    intros N. rewrite S; [reflexivity|].
    apply forallb_forall. intros l Hl.
    change (In l (preamble variantName
                  ++ [str "#define A 2"] ++ separator
                  ++ [str "#ifndef A"; str "#define A 1"; str "#endif"]))
      in Hl.
    cbn [preamble separator app In] in Hl.
    repeat match goal with
           | H : _ \/ _ |- _ => destruct H as [<-|H]
           end;
      try contradiction; try reflexivity.
    rewrite noLF_app, (escapeHtml_noLF _ (nameOrDefault_noLF _ N)).
    reflexivity.
Qed.

Lemma tier1_precedes_tier2_witness :
  splitOn LF
    (rawHeader (numberA (VNum (int 1))) (str "variant")
       [(str "A", VNum (int 2))])
  = [ str "#pragma once";
      str "// Auto-generated header from Config Editor";
      str "// Variant: variant";
      [];
      str "// Variant-specific defines (highest priority)";
      str "#define A 2";
      [];
      str "// Common defaults (only applied if not defined by variant)";
      str "#ifndef A";
      str "#define A 1";
      str "#endif" ].
Proof.
  apply (proj2 (proj2 tier1_precedes_tier2 (str "variant"))).
  reflexivity.
Defined.

(* ================================================================== *)
(** ** Declared defaults *)

(** C7. A declared default is emitted whatever its truthiness.  For a key
    of the schema that is a valid identifier and whose descriptor has a
    default (anything but [undefined]), the three entries [#ifndef k],
    [#define k <literal of the default>], [#endif] stand together after the
    separator, and the text has them as three consecutive lines.  The
    literal is written out: [0], the empty string and [false] give [0], an
    empty pair of quotes and [0].  For the schema
    [{B: boolean, default false}] and an empty value mapping the text is
    given in full. *)
Theorem falsy_default_preserved :
  (forall (schema : Schema) (variantName : jsstring) (v : Values)
          (s1 s2 : Schema) (k : jsstring) (d : descriptor),
     schema = s1 ++ (k, d) :: s2 ->
     ~ In k (keys s1) ->
     isValidCIdentifier k = true ->
     default d <> VUndefined ->
     (exists t1 c e,
        lines (headerWorld schema variantName v)
        = [ str "#pragma once";
            str "// Auto-generated header from Config Editor";
            str "// Variant: " ++ escapeHtml (nameOrDefault variantName);
            [];
            str "// Variant-specific defines (highest priority)" ]
          ++ t1
          ++ [ [];
               str "// Common defaults (only applied if not defined by variant)" ]
          ++ c
          ++ [ str "#ifndef " ++ k;
               str "#define " ++ k ++ str " "
               ++ specLiteral (type d) (default d);
               str "#endif" ]
          ++ e) /\
     (exists x y,
        rawHeader schema variantName v
        = x ++ [LF]
          ++ (str "#ifndef " ++ k) ++ [LF]
          ++ (str "#define " ++ k ++ str " "
              ++ specLiteral (type d) (default d)) ++ [LF]
          ++ str "#endif" ++ y /\
        (y = [] \/ exists y', y = LF :: y'))) /\
  specLiteral (str "number") (VNum (int 0)) = str "0" /\
  specLiteral (str "number") (VNum (int 5)) = str "5" /\
  specLiteral (str "string") (VStr []) = [dquote; dquote] /\
  specLiteral (str "string") (VStr (str "a" ++ [dquote] ++ str "b"))
  = [dquote] ++ str "a" ++ [backslash; dquote] ++ str "b" ++ [dquote] /\
  specLiteral (str "boolean") (VBool false) = str "0" /\
  specLiteral (str "boolean") (VBool true) = str "1" /\
  specLiteral (str "boolean") (VNum (int 0)) = str "0" /\
  specLiteral (str "boolean") (VStr []) = str "0" /\
  specLiteral (str "boolean") VNull = str "0" /\
  (forall variantName : jsstring,
     rawHeader booleanB variantName []
     = str "#pragma once" ++ [LF]
       ++ str "// Auto-generated header from Config Editor" ++ [LF]
       ++ str "// Variant: " ++ escapeHtml (nameOrDefault variantName) ++ [LF]
       ++ [LF]
       ++ str "// Variant-specific defines (highest priority)" ++ [LF]
       ++ [LF]
       ++ str "// Common defaults (only applied if not defined by variant)"
       ++ [LF]
       ++ str "#ifndef B" ++ [LF]
       ++ str "#define B 0" ++ [LF]
       ++ str "#endif").
Proof.
  split; [|repeat split; reflexivity].
  intros schema variantName v s1 s2 k d Es Ns V D.
  assert (G : get schema k = Some d).
  { rewrite Es. apply get_first, Ns. }
  assert (L : exists c e,
             lines (headerWorld schema variantName v)
             = (preamble variantName
                ++ flat_map (tier1Lines schema v) (keys v)
                ++ separator ++ c)
               ++ [ str "#ifndef " ++ k;
                    str "#define " ++ k ++ str " "
                    ++ specLiteral (type d) (default d);
                    str "#endif" ]
               ++ e).
  { rewrite headerWorld_lines.
    destruct (In_flat_map_block (tier2Lines schema) (keys schema) k
                (get_Some_In _ _ _ G)) as (c & e & E).
    rewrite E, (tier2Lines_declared schema k d V G D).
    exists c, e. unfold guardedBlock. rewrite defineLine_spec.
    rewrite <- !app_assoc. reflexivity. }
  destruct L as (c & e & L). split.
  - exists (flat_map (tier1Lines schema v) (keys v)), c, e.
    rewrite L. unfold preamble, separator. rewrite <- !app_assoc.
    reflexivity.
  - unfold rawHeader. rewrite L. apply join_block. discriminate.
Qed.

(** The example of the spec: schema [{B: boolean, default false}] and an
    empty value mapping. *)
Lemma falsy_default_preserved_witness :
  exists x y,
    rawHeader booleanB (str "variant") []
    = x ++ [LF] ++ str "#ifndef B" ++ [LF] ++ str "#define B 0" ++ [LF]
      ++ str "#endif" ++ y /\
    (y = [] \/ exists y', y = LF :: y').
Proof.
  apply (proj2 (proj1 falsy_default_preserved booleanB (str "variant") []
                  [] [] (str "B")
                  (Descriptor (str "boolean") (VBool false) None)
                  eq_refl (fun H => H) eq_refl
                  ltac:(discriminate))).
Defined.

(* ================================================================== *)
(** ** Keys without a descriptor, keys that are not identifiers *)

Lemma inherited_valid (k : jsstring) :
  inherited k = true -> isValidCIdentifier k = true.
Proof.
  unfold inherited, objectPrototype. cbn [existsb]. intros H.
  repeat (apply orb_true_iff in H as [H|H];
          [apply jseqb_eq in H; subst k; reflexivity|]).
  discriminate H.
Qed.

Lemma rawHeader_without (schema : Schema) (variantName : jsstring)
  (v : Values) (k : jsstring) :
  skippable schema k ->
  rawHeader schema variantName v
  = rawHeader schema variantName (without k v).
Proof.
  intros Sk. unfold rawHeader. rewrite !headerWorld_lines. do 3 f_equal.
  unfold without.
  rewrite (flat_map_without
             (tier1Lines schema
                (filter (fun kv => negb (jseqb (fst kv) k)) v)) k v).
  - apply flat_map_ext. intros k'. symmetry.
    apply (tier1Lines_without schema v k k' Sk).
  - apply (tier1Lines_skippable schema (without k v) k Sk).
Qed.

Lemma not_In_without (k : jsstring) (v : Values) :
  ~ In k (keys (without k v)).
Proof.
  unfold without, keys. rewrite in_map_iff.
  intros ([k' x] & E & I). simpl in E. subst k'.
  apply filter_In in I as [_ I]. simpl in I.
  rewrite jseqb_refl in I. discriminate I.
Qed.

(** C6. What the two guards of the first loop do, and the key they miss.
    A key of the value mapping that is not a valid C identifier, or that is
    neither a key of the schema nor the name of a member of
    [Object.prototype], is skipped and never fatal: the text and the
    preview are those of the value mapping without that key, its warning
    is logged, and every accepted key still has its [#define] line.  For
    the value mapping [{bad-key: 5}] nothing of the header mentions
    [bad-key].  But a key that has no descriptor and is named as a member
    of [Object.prototype] ([constructor], [toString], ...) passes the test
    [!schemaEntry]: the loop writes a define for it and logs nothing.  For
    the empty schema and the value mapping [{constructor: 5}] the header
    has the line [#define constructor 5]. *)
Theorem skippable_key_omitted :
  (forall (schema : Schema) (variantName : jsstring) (v : Values)
          (k : jsstring),
     In k (keys v) ->
     isValidCIdentifier k = false \/
     (~ In k (keys schema) /\ inherited k = false) ->
     rawHeader schema variantName v
     = rawHeader schema variantName (without k v) /\
     generateCHeader schema variantName v
     = generateCHeader schema variantName (without k v) /\
     ~ In k (keys (without k v)) /\
     In (if isValidCIdentifier k
         then str "No schema found for key: " ++ k
         else str "Skipping invalid C identifier: " ++ k)
        (console (headerWorld schema variantName v)) /\
     (forall v1 v2 s1 s2 k' x d,
        v = v1 ++ (k', x) :: v2 -> ~ In k' (keys v1) ->
        schema = s1 ++ (k', d) :: s2 -> ~ In k' (keys s1) ->
        isValidCIdentifier k' = true ->
        In (str "#define " ++ k' ++ str " " ++ specLiteral (type d) x)
           (lines (headerWorld schema variantName v)))) /\
  (let w := headerWorld badKey (str "variant")
              [(str "bad-key", VNum (int 5))] in
   lines w
   = [ str "#pragma once";
       str "// Auto-generated header from Config Editor";
       str "// Variant: variant";
       [];
       str "// Variant-specific defines (highest priority)";
       [];
       str "// Common defaults (only applied if not defined by variant)" ] /\
   includesb (str "bad-key")
     (rawHeader badKey (str "variant") [(str "bad-key", VNum (int 5))])
   = false /\
   includesb (str "bad-key")
     (generateCHeader badKey (str "variant") [(str "bad-key", VNum (int 5))])
   = false /\
   console w = [str "Skipping invalid C identifier: bad-key"]) /\
  (forall (schema : Schema) (variantName : jsstring) (v : Values)
          (k : jsstring),
     In k (keys v) ->
     ~ In k (keys schema) ->
     inherited k = true ->
     In (str "#define " ++ k ++ str " " ++ specText (getValue v k))
        (lines (headerWorld schema variantName v)) /\
     ~ In (str "No schema found for key: " ++ k)
          (console (headerWorld schema variantName v)) /\
     ~ In (str "Skipping invalid C identifier: " ++ k)
          (console (headerWorld schema variantName v))) /\
  (let w := headerWorld [] (str "variant")
              [(str "constructor", VNum (int 5))] in
   lines w
   = [ str "#pragma once";
       str "// Auto-generated header from Config Editor";
       str "// Variant: variant";
       [];
       str "// Variant-specific defines (highest priority)";
       str "#define constructor 5";
       [];
       str "// Common defaults (only applied if not defined by variant)" ] /\
   console w = [] /\
   includesb (str "#define constructor 5")
     (rawHeader [] (str "variant") [(str "constructor", VNum (int 5))])
   = true).
Proof.
  refine (conj _ (conj _ (conj _ _))).
  - intros schema variantName v k Hk H.
    assert (Sk : skippable schema k).
    { destruct H as [V|[N I]]; [left; exact V|right].
      apply readSchema_none; [apply get_None_not_In, N|exact I]. }
    pose proof (rawHeader_without schema variantName v k Sk) as R.
    split; [exact R|].
    split; [unfold generateCHeader; rewrite R; reflexivity|].
    split; [apply not_In_without|].
    split.
    + rewrite headerWorld_console.
      destruct (In_flat_map_block (tier1Warnings schema v) (keys v) k Hk)
        as (a & b & ->).
      rewrite (tier1Warnings_skippable schema v k Sk).
      apply in_or_app; right; left; reflexivity.
    + intros v1 v2 s1 s2 k' x d Ev Nv Es Ns V.
      assert (Gv : get v k' = Some x) by (rewrite Ev; apply get_first, Nv).
      assert (Gs : get schema k' = Some d)
        by (rewrite Es; apply get_first, Ns).
      rewrite headerWorld_lines.
      apply in_or_app; right. apply in_or_app; left.
      apply in_flat_map. exists k'. split; [exact (get_Some_In _ _ _ Gv)|].
      rewrite (tier1Lines_valid schema v k' d V Gs), defineLine_spec.
      unfold getValue. rewrite Gv. left; reflexivity.
  - vm_compute. repeat split.
  - intros schema variantName v k Hk N I.
    pose proof (get_None_not_In _ _ N) as G.
    pose proof (inherited_valid k I) as V.
    split; [|split].
    + rewrite headerWorld_lines.
      apply in_or_app; right. apply in_or_app; left.
      apply in_flat_map. exists k. split; [exact Hk|].
      rewrite (tier1Lines_inherited schema v k V G I).
      rewrite (toString_specText (getValue v k)). left; reflexivity.
    + rewrite headerWorld_console. intros C.
      apply in_flat_map in C as (k' & _ & C).
      destruct (tier1Warnings_shape _ _ _ _ C) as [[V' E]|(G' & I' & E)].
      * discriminate E.
      * apply app_inv_head in E. subst k'. congruence.
    + rewrite headerWorld_console. intros C.
      apply in_flat_map in C as (k' & _ & C).
      destruct (tier1Warnings_shape _ _ _ _ C) as [[V' E]|(G' & I' & E)].
      * apply app_inv_head in E. subst k'. congruence.
      * discriminate E.
  - vm_compute. repeat split.
Qed.

Lemma skippable_key_omitted_witness :
  rawHeader [] (str "variant") [(str "bad-key", VNum (int 5))]
  = rawHeader [] (str "variant") [] /\
  In (str "#define toString 5")
     (lines (headerWorld [] (str "variant") [(str "toString", VNum (int 5))])).
Proof.
  split.
  - apply (proj1 skippable_key_omitted [] (str "variant")
             [(str "bad-key", VNum (int 5))] (str "bad-key"));
      [left; reflexivity | left; reflexivity].
  - apply (proj1 (proj2 (proj2 skippable_key_omitted)) [] (str "variant")
             [(str "toString", VNum (int 5))] (str "toString"));
      [left; reflexivity | intros [] | reflexivity].
Defined.

(* ================================================================== *)
(** ** Where a word stands after a replacement *)

Section Located.

Variable rx : matcher.
Variable template : jsstring -> jsstring.
Hypothesis rx_sound : sound rx.
Hypothesis rx_wrap :
  forall prev s m g1 rest,
    rx prev s = Some (m, g1, rest) ->
    exists o, In o tags /\ template g1 = o ++ m ++ spanClose.

Variables w w' : jsstring.

(** Where the word starts, the replacement writes [w']. *)
Hypothesis at_word :
  forall prev b, exists prev',
    replaceAt rx template prev (w ++ b)
      = w' ++ replaceAt rx template prev' b.

(** A match that starts before the word and reaches into it covers the
    word, which is then kept as it is. *)
Hypothesis reach :
  forall prev a b m g1 rest,
    a <> [] ->
    rx prev (a ++ w ++ b) = Some (m, g1, rest) ->
    List.length a < List.length m ->
    w' = w /\ exists m3, m = a ++ w ++ m3.

(** In a text without tags. *)
Lemma located_text (n : nat) :
  forall (prev : option ascii) (x y : jsstring),
    List.length x <= n ->
    exists x' y',
      replaceAt rx template prev (x ++ w ++ y) = x' ++ w' ++ y' /\
      markup x x' /\ markup y y'.
Proof.
  assert (Base : forall prev y,
             exists x' y',
               replaceAt rx template prev ([] ++ w ++ y) = x' ++ w' ++ y' /\
               markup [] x' /\ markup y y').
  { intros prev y. destruct (at_word prev y) as (prev' & R).
    exists [], (replaceAt rx template prev' y).
    split; [exact R|]. split; [constructor|].
    apply (replaceAt_markup_text rx template rx_sound rx_wrap
             (List.length y)). lia. }
  induction n as [|n IH]; intros prev x y L.
  - destruct x; [apply Base|simpl in L; lia].
  - destruct x as [|c x]; [apply Base|].
    change ((c :: x) ++ w ++ y) with (c :: x ++ w ++ y).
    rewrite (replaceAt_cons rx template rx_sound).
    destruct (rx prev (c :: x ++ w ++ y)) as [[[m g1] rest]|] eqn:R.
    + destruct (rx_wrap _ _ _ _ _ R) as (o & O & ->).
      destruct (rx_sound _ _ _ _ _ R) as [S N].
      destruct (Nat.le_gt_cases (List.length m) (List.length (c :: x)))
        as [Le|Gt].
      * destruct (app_split_short (c :: x) (w ++ y) m rest S Le)
          as (x2 & Ea & Er).
        assert (L2 : List.length x2 <= n).
        { apply (f_equal (@List.length ascii)) in Ea.
          rewrite length_app in Ea. simpl in Ea, L.
          destruct m; [congruence|simpl in Ea; lia]. }
        destruct (IH (lastOf prev m) x2 y L2) as (x2' & y' & E & M1 & M2).
        exists (o ++ m ++ spanClose ++ x2'), y'.
        rewrite Er, E. split; [rewrite <- !app_assoc; reflexivity|].
        split; [|exact M2]. rewrite Ea.
        apply markup_tag; [exact O|].
        apply markup_app; [apply markup_refl|].
        apply markup_tag; [apply spanClose_tag|exact M1].
      * destruct (reach prev (c :: x) y m g1 rest) as (Ew & m3 & Em);
          [discriminate|exact R|exact Gt|].
        assert (Ey : y = m3 ++ rest).
        { rewrite Em in S. rewrite <- !app_assoc in S.
          change (c :: x ++ w ++ y) with ((c :: x) ++ w ++ y) in S.
          apply app_inv_head in S. apply app_inv_head in S. exact S. }
        exists (o ++ c :: x),
               (m3 ++ spanClose
                ++ replaceAt rx template (lastOf prev m) rest).
        rewrite Ew, Em. split; [rewrite <- !app_assoc; reflexivity|].
        split.
        -- apply markup_tag; [exact O|apply markup_refl].
        -- rewrite Ey. apply markup_app; [apply markup_refl|].
           apply markup_tag; [apply spanClose_tag|].
           apply (replaceAt_markup_text rx template rx_sound rx_wrap
                    (List.length rest)). lia.
    + destruct (IH (Some c) x y) as (x' & y' & E & M1 & M2);
        [simpl in L; lia|].
      exists (c :: x'), y'. rewrite E.
      split; [reflexivity|]. split; [constructor; exact M1|exact M2].
Qed.

Hypothesis rx_text_start :
  forall prev c s m g1 rest,
    rx prev (c :: s) = Some (m, g1, rest) -> isTagChar c = false.
Hypothesis rx_text_end :
  forall prev s m g1 rest,
    rx prev s = Some (m, g1, rest) -> textEnd m.

(** In a text with tags. *)
Lemma located_markup (ty y : jsstring) :
  markup ty y ->
  forall (n : nat) (prev : option ascii) (tx x : jsstring),
    List.length x <= n -> markup tx x ->
    exists x' y',
      replaceAt rx template prev (x ++ w ++ y) = x' ++ w' ++ y' /\
      markup tx x' /\ markup ty y'.
Proof.
  intros My.
  assert (Base : forall prev,
             exists x' y',
               replaceAt rx template prev ([] ++ w ++ y) = x' ++ w' ++ y' /\
               markup [] x' /\ markup ty y').
  { intros prev. destruct (at_word prev y) as (prev' & R).
    exists [], (replaceAt rx template prev' y).
    split; [exact R|]. split; [constructor|].
    apply (replaceAt_markup rx template rx_sound rx_wrap rx_text_start
             rx_text_end (List.length y)); [lia|exact My]. }
  induction n as [|n IH]; intros prev tx x L M.
  - destruct x; [|simpl in L; lia].
    inversion M; subst.
    + apply Base.
    + match goal with
      | H : ?g ++ _ = [], G : In ?g tags |- _ =>
          destruct (tag_shape g G) as (g' & Eg & _); rewrite Eg in H;
          discriminate H
      end.
  - pose proof M as M0.
    destruct M as [|c t u M|g t u G M].
    + apply Base.
    + change ((c :: u) ++ w ++ y) with (c :: u ++ w ++ y).
      rewrite (replaceAt_cons rx template rx_sound).
      destruct (rx prev (c :: u ++ w ++ y)) as [[[m g1] rest]|] eqn:R.
      * destruct (rx_wrap _ _ _ _ _ R) as (o & O & ->).
        destruct (rx_sound _ _ _ _ _ R) as [S N].
        pose proof (rx_text_end _ _ _ _ _ R) as T.
        destruct (Nat.le_gt_cases (List.length m) (List.length (c :: u)))
          as [Le|Gt].
        -- destruct (app_split_short (c :: u) (w ++ y) m rest S Le)
             as (x2 & Ea & Er).
           assert (L2 : List.length x2 <= n).
           { apply (f_equal (@List.length ascii)) in Ea.
             rewrite length_app in Ea. simpl in Ea, L.
             destruct m; [congruence|simpl in Ea; lia]. }
           rewrite Ea in M0.
           destruct (markup_split _ _ _ M0 T) as (t1 & t2 & Et & M1 & M2).
           destruct (IH (lastOf prev m) t2 x2 L2 M2)
             as (x2' & y' & E & M3 & M4).
           exists (o ++ m ++ spanClose ++ x2'), y'.
           rewrite Er, E. split; [rewrite <- !app_assoc; reflexivity|].
           split; [|exact M4]. rewrite Et.
           apply markup_tag; [exact O|].
           apply markup_app; [exact M1|].
           apply markup_tag; [apply spanClose_tag|exact M3].
        -- destruct (reach prev (c :: u) y m g1 rest) as (Ew & m3 & Em);
             [discriminate|exact R|exact Gt|].
           assert (Ey : y = m3 ++ rest).
           { rewrite Em in S. rewrite <- !app_assoc in S.
             change (c :: u ++ w ++ y) with ((c :: u) ++ w ++ y) in S.
             apply app_inv_head in S. apply app_inv_head in S. exact S. }
           assert (T3 : textEnd m3).
           { rewrite Em, app_assoc in T.
             exact (textEnd_drop _ _ T). }
           rewrite Ey in My.
           destruct (markup_split _ _ _ My T3) as (t1 & t2 & Et & M1 & M2).
           exists (o ++ c :: u),
                  (m3 ++ spanClose
                   ++ replaceAt rx template (lastOf prev m) rest).
           rewrite Ew, Em. split; [rewrite <- !app_assoc; reflexivity|].
           split.
           ++ apply markup_tag; [exact O|exact M0].
           ++ rewrite Et. apply markup_app; [exact M1|].
              apply markup_tag; [apply spanClose_tag|].
              apply (replaceAt_markup rx template rx_sound rx_wrap
                       rx_text_start rx_text_end (List.length rest));
                [lia|exact M2].
      * destruct (IH (Some c) t u) as (x' & y' & E & M1 & M2);
          [simpl in L; lia|exact M|].
        exists (c :: x'), y'. rewrite E.
        split; [reflexivity|]. split; [constructor; exact M1|exact M2].
    + destruct (tag_shape g G) as (g' & Eg & _ & TC).
      rewrite <- app_assoc.
      rewrite (replaceAt_through_tag rx template rx_sound rx_text_start g)
        by exact TC.
      destruct (IH (lastOf prev g) t u) as (x' & y' & E & M1 & M2);
        [rewrite length_app, Eg in L; simpl in L; lia|exact M|].
      exists (g ++ x'), y'. rewrite E.
      split; [rewrite <- !app_assoc; reflexivity|].
      split; [constructor; assumption|exact M2].
Qed.

End Located.

(** A match that cannot stop inside the word covers it. *)
Lemma reach_of_astride (rx : matcher) (w : jsstring) :
  sound rx ->
  (forall prev a m2 w3 b g1,
     a <> [] -> m2 <> [] -> w3 <> [] -> w = m2 ++ w3 ->
     rx prev (a ++ w ++ b) = Some (a ++ m2, g1, w3 ++ b) -> False) ->
  forall prev a b m g1 rest,
    a <> [] ->
    rx prev (a ++ w ++ b) = Some (m, g1, rest) ->
    List.length a < List.length m ->
    w = w /\ exists m3, m = a ++ w ++ m3.
Proof.
  intros rx_sound not_astride p a b m g1 rest Na R Gt.
  split; [reflexivity|].
  destruct (rx_sound _ _ _ _ _ R) as [S N].
  destruct (app_split_long a (w ++ b) m rest S) as (m2 & Em & Ew); [lia|].
  assert (N2 : m2 <> []).
  { intros ->. rewrite app_nil_r in Em. subst m. lia. }
  destruct (Nat.le_gt_cases (List.length w) (List.length m2)) as [Le|Gt2].
  - destruct (app_split_short m2 rest w b (eq_sym Ew) Le) as (m3 & E2 & _).
    exists m3. rewrite Em, E2. reflexivity.
  - exfalso.
    destruct (app_split_long m2 rest w b (eq_sym Ew)) as (w3 & E3 & Er);
      [lia|].
    assert (N3 : w3 <> []).
    { intros ->. rewrite app_nil_r in E3. subst m2. lia. }
    subst m rest.
    exact (not_astride p a m2 w3 b g1 Na N2 N3 E3 R).
Qed.

Lemma commentRx_not_astride (w : jsstring) :
  commentProof w = true ->
  forall prev a m2 w3 b g1,
    a <> [] -> m2 <> [] -> w3 <> [] -> w = m2 ++ w3 ->
    commentRx prev (a ++ w ++ b) = Some (a ++ m2, g1, w3 ++ b) -> False.
Proof.
  intros P p a m2 w3 b g1 Na N2 N3 -> E.
  unfold commentProof in P. rewrite forallb_forall in P.
  apply commentRx_Some in E as (s' & _ & _ & _ & Er).
  pose proof (span_stop (fun c => negb (isLineTerminator c)) s') as St.
  rewrite <- Er in St. destruct w3 as [|c3 w3]; [congruence|].
  simpl in St. specialize (P c3).
  rewrite in_app_iff in P. simpl in P.
  rewrite St, andb_false_r in P. discriminate P. auto.
Qed.

Lemma stringRx_not_astride (w : jsstring) :
  stringProof w = true ->
  forall prev a m2 w3 b g1,
    a <> [] -> m2 <> [] -> w3 <> [] -> w = m2 ++ w3 ->
    stringRx prev (a ++ w ++ b) = Some (a ++ m2, g1, w3 ++ b) -> False.
Proof.
  intros P p a m2 w3 b g1 Na N2 N3 Ew E.
  unfold stringProof in P. apply andb_true_iff in P as [_ P2].
  rewrite forallb_forall in P2.
  apply stringRx_Some in E as (Em & _ & _).
  assert (I : In m2 (inits w)) by (rewrite Ew; apply In_inits; exact N3).
  specialize (P2 m2 I). apply andb_true_iff in P2 as [Q1 Q2].
  apply negb_true_iff in Q1, Q2.
  rewrite app_assoc in Em.
  apply app_eq_app in Em as (l & [[E1 E2] | [E1 E2]]).
  - rewrite E2, isSuffixOf_intro in Q1; [discriminate|exact N2].
  - rewrite E2, isSuffixOf_intro in Q2; [discriminate|discriminate].
Qed.

Lemma numberRx_not_astride (w : jsstring) :
  numberProof w = true ->
  forall prev a m2 w3 b g1,
    a <> [] -> m2 <> [] -> w3 <> [] -> w = m2 ++ w3 ->
    numberRx prev (a ++ w ++ b) = Some (a ++ m2, g1, w3 ++ b) -> False.
Proof.
  intros P p a m2 w3 b g1 Na N2 N3 -> E.
  unfold numberProof in P. apply andb_true_iff in P as [P _].
  rewrite forallb_forall in P.
  apply numberRx_Some in E as (_ & _ & _ & D & _).
  destruct m2 as [|c m2]; [congruence|].
  rewrite forallb_app in D. apply andb_true_iff in D as [_ D].
  simpl in D. apply andb_true_iff in D as [D _].
  specialize (P c). simpl in P. rewrite D in P. discriminate P. auto.
Qed.

Lemma keywordRx_wrap (prev : option ascii) (s m g1 rest : jsstring) :
  keywordRx prev s = Some (m, g1, rest) ->
  exists o, In o tags /\ keywordTemplate g1 = o ++ m ++ spanClose.
Proof.
  intros H. apply keywordRx_Some in H as (_ & -> & _).
  exists (spanOpen "keyword"). split; [right; left; reflexivity|reflexivity].
Qed.

Lemma keywordRx_text_start (prev : option ascii) (c : ascii)
  (s m g1 rest : jsstring) :
  keywordRx prev (c :: s) = Some (m, g1, rest) -> isTagChar c = false.
Proof.
  intros H. apply keywordRx_Some in H as (I & _ & S). simpl in I.
  destruct I as [<-|[<-|[<-|[<-|[]]]]]; inversion S; reflexivity.
Qed.

Lemma keywordRx_text_end (prev : option ascii) (s m g1 rest : jsstring) :
  keywordRx prev s = Some (m, g1, rest) -> textEnd m.
Proof.
  intros H. apply keywordRx_Some in H as (I & _ & _). right. simpl in I.
  destruct I as [<-|[<-|[<-|[<-|[]]]]]; reflexivity.
Qed.

Lemma stringRx_wrap (prev : option ascii) (s m g1 rest : jsstring) :
  stringRx prev s = Some (m, g1, rest) ->
  exists o, In o tags /\ stringTemplate g1 = o ++ m ++ spanClose.
Proof.
  intros H. apply stringRx_Some in H as (-> & _ & _).
  exists (spanOpen "string"). split; [right; right; left; reflexivity|].
  rewrite <- !app_assoc. reflexivity.
Qed.

Lemma stringRx_text_start (prev : option ascii) (c : ascii)
  (s m g1 rest : jsstring) :
  stringRx prev (c :: s) = Some (m, g1, rest) -> isTagChar c = false.
Proof.
  intros H. apply stringRx_Some in H as (-> & S & _).
  inversion S. reflexivity.
Qed.

Lemma stringRx_text_end (prev : option ascii) (s m g1 rest : jsstring) :
  stringRx prev s = Some (m, g1, rest) -> textEnd m.
Proof.
  intros H. apply stringRx_Some in H as (-> & _ & _).
  left. exists (str "&quot;" ++ g1 ++ str "&quot"), ";".
  split; [|reflexivity].
  rewrite <- !app_assoc. reflexivity.
Qed.

Lemma numberRx_wrap (prev : option ascii) (s m g1 rest : jsstring) :
  numberRx prev s = Some (m, g1, rest) ->
  exists o, In o tags /\ numberTemplate g1 = o ++ m ++ spanClose.
Proof.
  intros H. apply numberRx_Some in H as (_ & _ & -> & _).
  exists (spanOpen "number").
  split; [right; right; right; left; reflexivity|reflexivity].
Qed.

Lemma numberRx_text_start (prev : option ascii) (c : ascii)
  (s m g1 rest : jsstring) :
  numberRx prev (c :: s) = Some (m, g1, rest) -> isTagChar c = false.
Proof.
  intros H. apply numberRx_Some in H as (S & N & _ & D & _).
  destruct m as [|d m]; [congruence|]. inversion S; subst d.
  simpl in D. apply andb_true_iff in D as [D _].
  apply digit_not_tag; exact D.
Qed.

Lemma numberRx_text_end (prev : option ascii) (s m g1 rest : jsstring) :
  numberRx prev s = Some (m, g1, rest) -> textEnd m.
Proof.
  intros H. apply numberRx_Some in H as (_ & N & _ & D & _).
  left. destruct (exists_last N) as (m' & c & ->).
  exists m', c. split; [reflexivity|].
  apply digit_not_tag. rewrite forallb_app in D.
  apply andb_true_iff in D as [_ D]. simpl in D.
  apply andb_true_iff in D as [D _]. exact D.
Qed.

Lemma keywordRx_reach (kw : jsstring) :
  In kw keywords ->
  forall prev a b m g1 rest,
    a <> [] ->
    keywordRx prev (a ++ kw ++ b) = Some (m, g1, rest) ->
    List.length a < List.length m ->
    spanOpen "keyword" ++ kw ++ spanClose = kw /\
    exists m3, m = a ++ kw ++ m3.
Proof.
  intros K p a b m g1 rest Na R Gt. exfalso.
  apply keywordRx_Some in R as (I & _ & S).
  destruct (app_split_long a _ m rest S) as (m2 & -> & E2); [lia|].
  destruct m2 as [|d m2]; [rewrite app_nil_r in Gt; lia|].
  destruct a as [|x a]; [congruence|].
  assert (H : In d (List.concat (map (@tl ascii) keywords))).
  { apply in_concat. exists (tl ((x :: a) ++ d :: m2)).
    split; [apply in_map; exact I|].
    simpl. apply in_or_app. right. left. reflexivity. }
  assert (d = "#").
  { simpl in K. destruct K as [<-|[<-|[<-|[<-|[]]]]];
      inversion E2; reflexivity. }
  subst d. simpl in H. intuition discriminate.
Qed.

(** Each pass leaves a keyword, or a wrapped keyword, where it stands. *)
Lemma commentPass_located (kw x y : jsstring) :
  In kw keywords ->
  exists x' y',
    commentPass (x ++ kw ++ y) = x' ++ kw ++ y' /\
    markup x x' /\ markup y y'.
Proof.
  intros K.
  assert (P : commentProof kw = true).
  { simpl in K. destruct K as [<-|[<-|[<-|[<-|[]]]]]; reflexivity. }
  rewrite commentPass_eq.
  apply (located_text commentRx _ commentRx_sound commentRx_wrap kw kw)
    with (n := List.length x); [| |lia].
  - intros p b. exists (lastOf p kw).
    apply (replaceAt_copy_word commentRx _ commentRx_sound).
    apply commentRx_not_at, P.
  - apply (reach_of_astride commentRx kw commentRx_sound).
    apply commentRx_not_astride, P.
Qed.

Lemma keywordPass_located (kw tx x ty y : jsstring) :
  In kw keywords -> markup tx x -> markup ty y ->
  exists x' y',
    keywordPass (x ++ kw ++ y)
    = x' ++ (spanOpen "keyword" ++ kw ++ spanClose) ++ y' /\
    markup tx x' /\ markup ty y'.
Proof.
  intros K Mx My. rewrite keywordPass_eq.
  apply (located_markup keywordRx _ keywordRx_sound keywordRx_wrap kw
           (spanOpen "keyword" ++ kw ++ spanClose))
    with (n := List.length x);
    [| |exact keywordRx_text_start|exact keywordRx_text_end
     |exact My|lia|exact Mx].
  - intros p b. exists (lastOf p kw).
    rewrite (replaceAt_match keywordRx _ keywordRx_sound p _ kw kw b)
      by (apply keyword_at_word; exact K).
    unfold keywordTemplate. rewrite <- !app_assoc. reflexivity.
  - apply keywordRx_reach, K.
Qed.

Lemma stringPass_located (w tx x ty y : jsstring) :
  stringProof w = true -> markup tx x -> markup ty y ->
  exists x' y',
    stringPass (x ++ w ++ y) = x' ++ w ++ y' /\
    markup tx x' /\ markup ty y'.
Proof.
  intros P Mx My. rewrite stringPass_eq.
  apply (located_markup stringRx _ stringRx_sound stringRx_wrap w w)
    with (n := List.length x);
    [| |exact stringRx_text_start|exact stringRx_text_end
     |exact My|lia|exact Mx].
  - intros p b. exists (lastOf p w).
    apply (replaceAt_copy_word stringRx _ stringRx_sound).
    apply stringRx_not_at, P.
  - apply (reach_of_astride stringRx w stringRx_sound).
    apply stringRx_not_astride, P.
Qed.

Lemma numberPass_located (w tx x ty y : jsstring) :
  numberProof w = true -> markup tx x -> markup ty y ->
  exists x' y',
    numberPass (x ++ w ++ y) = x' ++ w ++ y' /\
    markup tx x' /\ markup ty y'.
Proof.
  intros P Mx My. rewrite numberPass_eq.
  apply (located_markup numberRx _ numberRx_sound numberRx_wrap w w)
    with (n := List.length x);
    [| |exact numberRx_text_start|exact numberRx_text_end
     |exact My|lia|exact Mx].
  - intros p b. exists (lastOf p w).
    apply (replaceAt_copy_word numberRx _ numberRx_sound).
    apply numberRx_not_at, P.
  - apply (reach_of_astride numberRx w numberRx_sound).
    apply numberRx_not_astride, P.
Qed.

(** C8, amended. The highlighter wraps every occurrence of the four
    preprocessor keywords in a keyword span, wherever in the line the
    occurrence stands.  Whatever text [pre] comes before an occurrence and
    whatever text [post] comes after it, the highlighted text is the
    highlighted form of [pre] (its escaped text with tags between the code
    units), then the keyword inside a keyword span, then the highlighted
    form of [post]. *)
Theorem keyword_wrapped_anywhere :
  forall kw pre post : jsstring,
    In kw keywords ->
    exists X Y,
      highlight (pre ++ kw ++ post)
      = X ++ (spanOpen "keyword" ++ kw ++ spanClose) ++ Y /\
      markup (escapeHtml pre) X /\
      markup (escapeHtml post) Y.
Proof.
  intros kw pre post K.
  assert (Ek : escapeHtml kw = kw).
  { simpl in K. destruct K as [<-|[<-|[<-|[<-|[]]]]]; reflexivity. }
  assert (Ps : stringProof (spanOpen "keyword" ++ kw ++ spanClose) = true).
  { simpl in K. destruct K as [<-|[<-|[<-|[<-|[]]]]]; reflexivity. }
  assert (Pn : numberProof (spanOpen "keyword" ++ kw ++ spanClose) = true).
  { simpl in K. destruct K as [<-|[<-|[<-|[<-|[]]]]]; reflexivity. }
  unfold highlight. rewrite !escapeHtml_app, Ek.
  destruct (commentPass_located kw (escapeHtml pre) (escapeHtml post) K)
    as (x1 & y1 & -> & Mx1 & My1).
  destruct (keywordPass_located kw _ x1 _ y1 K Mx1 My1)
    as (x2 & y2 & -> & Mx2 & My2).
  destruct (stringPass_located _ _ x2 _ y2 Ps Mx2 My2)
    as (x3 & y3 & -> & Mx3 & My3).
  destruct (numberPass_located _ _ x3 _ y3 Pn Mx3 My3)
    as (x4 & y4 & -> & Mx4 & My4).
  exists x4, y4. auto.
Qed.

Lemma keyword_wrapped_anywhere_witness :
  exists X Y,
    highlight (str "x " ++ str "#define" ++ str " y")
    = X ++ (spanOpen "keyword" ++ str "#define" ++ spanClose) ++ Y /\
    markup (escapeHtml (str "x ")) X /\
    markup (escapeHtml (str " y")) Y.
Proof.
  apply (keyword_wrapped_anywhere (str "#define") (str "x ") (str " y")).
  right. left. reflexivity.
Defined.
